(** * Multi-stock GRU demo: data loader and evaluator

    A shallow embedding of [data-loader.js] (class [DataLoader]) and of the
    evaluation helpers of [gru.js] (class [GRUModel]), with the properties
    the specification states about them, followed by further properties of
    the two classes: the outcome of a load, the layout of the series and of
    the samples, the split, the statistics of the normalisers, and what the
    evaluator returns.

    Conventions of the embedding.
    - A JavaScript Number is an IEEE-754 binary64 value, i.e. Rocq's primitive
      [float]; [NaN] is the loader's marker for a missing slot.
    - A JavaScript string is a [string]; objects used as dictionaries and
      [Map]s are [gmap string _].
    - A [throw] is the [Throw] branch of [result].
    - The loader is modelled from the row records that the [map] callback of
      [loadFromCSVText] builds, i.e. after the CSV text has been tokenised and
      the numeric fields have gone through [parseFloat].
    - [Date] parsing of non-ISO text is left to the engine by ECMAScript; the
      loader is therefore parameterised by the engine's parser.
    - TensorFlow.js tensors are modelled by their shape and their row-major
      values, and the tensors the loader stores by their nested arrays of
      float32 values.
    - The accuracies are float32 means, computed as the CPU backend does
      ([div] by the float32 count, then [sum]); they are carried by the
      rationals they denote.  The mean over the horizon axis enters the
      result only through its comparison with one half, which has the same
      outcome on the exact mean, and is taken exactly. *)

From Stdlib Require Import ZArith QArith Lia Lqa.
From Stdlib Require Import Qround Qabs Qpower.
From Stdlib Require Import Strings.Ascii Strings.String.
From Stdlib Require Import Floats.FloatClass Floats.PrimFloat.
From Stdlib Require Import Floats.FloatOps Floats.SpecFloat.
From Stdlib Require Floats.FloatAxioms.
From Stdlib Require Structures.OrderedTypeEx.
From Stdlib Require Import Numbers.Cyclic.Int63.Uint63.
From stdpp Require Import gmap strings list list_monad sorting.

Local Open Scope Z_scope.
Local Open Scope nat_scope.

(** ** JavaScript values and built-ins used by the two classes *)

Module Js.

Inductive JsError : Type :=
| Error (msg : string)
| TypeError (msg : string).

Inductive result (A : Type) : Type :=
| Ok (a : A)
| Throw (e : JsError).
Arguments Ok {A} a.
Arguments Throw {A} e.

Definition is_ok {A} (r : result A) : bool :=
  match r with Ok _ => true | Throw _ => false end.

#[global] Instance result_ret : MRet result := @Ok.
#[global] Instance result_bind : MBind result :=
  λ A B f m, match m with Ok a => f a | Throw e => Throw e end.
#[global] Instance result_fmap : FMap result :=
  λ A B f m, match m with Ok a => Ok (f a) | Throw e => Throw e end.

(** [Number.isNaN] *)
Definition Number_isNaN (x : float) : bool := PrimFloat.is_nan x.

(** The strict comparison [a > b] of two Numbers. *)
Definition gt (a b : float) : bool := PrimFloat.ltb b a.

(** [a === b] on Numbers. *)
Definition strict_eq (a b : float) : bool := PrimFloat.eqb a b.

Definition is_neg_zero (x : float) : bool :=
  match PrimFloat.classify x with NZero => true | _ => false end.

(** [Math.min(a, b)] and [Math.max(a, b)]: NaN is contagious and
    [-0] is smaller than [+0]. *)
Definition min2 (a b : float) : float :=
  if PrimFloat.is_nan a || PrimFloat.is_nan b then PrimFloat.nan
  else if PrimFloat.ltb b a then b
  else if PrimFloat.ltb a b then a
  else if is_neg_zero b then b else a.

Definition max2 (a b : float) : float :=
  if PrimFloat.is_nan a || PrimFloat.is_nan b then PrimFloat.nan
  else if PrimFloat.ltb a b then b
  else if PrimFloat.ltb b a then a
  else if is_neg_zero a then b else a.

(** [Math.min(...xs)] and [Math.max(...xs)]; on no argument they are
    [+Infinity] and [-Infinity]. *)
Definition Math_min (xs : list float) : float :=
  fold_left min2 xs PrimFloat.infinity.

Definition Math_max (xs : list float) : float :=
  fold_left max2 xs PrimFloat.neg_infinity.

(** [Math.round]: the nearest integer, ties towards [+Infinity].  [None]
    stands for the results that are not integers (NaN and the infinities). *)
Definition Math_round (x : float) : option Z :=
  match Prim2SF x with
  | S754_zero _ => Some 0%Z
  | S754_finite s m e =>
      let sm := if s then Z.neg m else Z.pos m in
      if (0 <=? e)%Z then Some (sm * 2 ^ e)%Z
      else Some ((2 * sm + 2 ^ (- e)) / 2 ^ (1 - e))%Z
  | S754_infinity _ | S754_nan => None
  end.

(** The binary32 value nearest to a Number, ties to even, as a Number:
    what a [Float32Array] holds once the Number is stored in it
    ([Math.fround]).  NaN, the zeros and the infinities stay as they are;
    a finite value beyond the binary32 range becomes an infinity, one
    below half the smallest subnormal a zero. *)
Definition fround (x : float) : float :=
  match Prim2SF x with
  | S754_finite s m e =>
      SF2Prim (binary_normalize 24 128 (if s then Z.neg m else Z.pos m) e s)
  | _ => x
  end.

(** The Number that holds a length or a count. *)
Definition of_nat (n : nat) : float :=
  PrimFloat.of_uint63 (Uint63.of_Z (Z.of_nat n)).

(** A string is truthy when it is not empty. *)
Definition truthy (s : string) : bool :=
  match s with EmptyString => false | _ => true end.

(** [s.replace(/c/g, d)] for a single character [c]. *)
Fixpoint replace_all (c d : ascii) (s : string) : string :=
  match s with
  | EmptyString => EmptyString
  | String a r => String (if Ascii.eqb a c then d else a) (replace_all c d r)
  end.

Definition is_space (a : ascii) : bool :=
  let n := nat_of_ascii a in
  Nat.eqb n 32 || (Nat.leb 9 n && Nat.leb n 13).

Fixpoint trim_left (s : string) : string :=
  match s with
  | String a r => if is_space a then trim_left r else s
  | EmptyString => EmptyString
  end.

Fixpoint trim_right (s : string) : string :=
  match s with
  | EmptyString => EmptyString
  | String a r =>
      match trim_right r with
      | EmptyString => if is_space a then EmptyString else String a EmptyString
      | r' => String a r'
      end
  end.

(** [s.trim()] (ASCII white space). *)
Definition trim (s : string) : string := trim_right (trim_left s).

(** [Array.from(new Set(xs))]: the distinct elements in order of first
    occurrence. *)
Definition set_add (acc : list string) (x : string) : list string :=
  if bool_decide (x ∈ acc) then acc else acc ++ [x].

Definition distinct (xs : list string) : list string :=
  fold_left set_add xs [].

(** [Array.prototype.sort] is stable; for a comparator [before x y]
    ([x] sorts strictly before [y]) that comes from a total preorder it
    returns the stable sorted arrangement, which insertion computes. *)
Section Sort.
Context {A : Type} (before : A → A → bool).

Fixpoint insert_sorted (x : A) (l : list A) : list A :=
  match l with
  | [] => [x]
  | y :: r => if before x y then x :: l else y :: insert_sorted x r
  end.

Definition sort (l : list A) : list A :=
  fold_left (λ acc x, insert_sorted x acc) l [].
End Sort.

End Js.

Export Js.

(** ** The loader: [data-loader.js] *)

Module DataLoader.

(** A row as the [map] callback of [loadFromCSVText] builds it. *)
Record Row : Type := mkRow
  { Date : string; Symbol : string; Open : float; Close : float }.

(** What [Papa.parse] hands back, with [data] already mapped to rows. *)
Record Parsed : Type := mkParsed
  { data : list Row; errors : list string }.

(** An element of a per-symbol series: [{date, open, close}]. *)
Record Point : Type := mkPoint
  { date : string; open : float; close : float }.

(** [{openMin, openMax, closeMin, closeMax}] *)
Record Normalizer : Type := mkNormalizer
  { openMin : float; openMax : float; closeMin : float; closeMax : float }.

(** The options object a caller passes to the constructor.  The
    constructor destructures [sequenceLength] and [forecastHorizon]; any
    other property, such as [expectedSymbolCount], is carried by the object
    and never read. *)
Record Options : Type := mkOptions
  { opt_sequenceLength : option nat;
    opt_forecastHorizon : option nat;
    opt_expectedSymbolCount : option nat }.

(** The messages handed to the logger. *)
Inductive LogMsg : Type :=
| MsgParsing                                  (* "Parsing CSV..." *)
| MsgParseErrors (errs : list string)         (* "CSV parse errors:", ... *)
| MsgSymbolWarning (found : nat)
    (* `Warning: found ${found} distinct symbols (expected 10).` *)
| MsgParsed (nrows nsymbols ndates : nat)
| MsgPrepared (total : nat) (train test : Z).

(** [this.raw] *)
Record Raw : Type := mkRaw { rows : list Row; parsedCount : nat }.

(** What [prepareDataset] stores: the four tensors (by their nested
    arrays), the index ranges and the anchor dates. *)
Record Dataset : Type := mkDataset
  { X_train : list (list (list float));
    y_train : list (list float);
    X_test : list (list (list float));
    y_test : list (list float);
    trainIndices : Z * Z;
    testIndices : Z * Z;
    sampleDates : list string;
    sampleDatesTrain : list string;
    sampleDatesTest : list string }.

(** The object state.  [logger] tells whether [setLogger] installed a
    callback and [logged] is the sequence of calls it has received. *)
Record t : Type := mkLoader
  { sequenceLength : nat;
    forecastHorizon : nat;
    raw : option Raw;
    symbols : list string;
    dates : list string;
    perSymbolSeries : gmap string (list Point);
    normalizers : gmap string Normalizer;
    dataset : option Dataset;
    logger : bool;
    logged : list LogMsg }.

(** The object [prepareDataset] returns. *)
Record Meta : Type := mkMeta
  { samples : nat;
    trainSamples : Z;
    testSamples : Z;
    meta_sequenceLength : nat;
    featuresPerStep : nat;
    outputDim : nat;
    meta_symbols : list string }.

Definition constructor (o : Options) : t :=
  {| sequenceLength := default 12 (opt_sequenceLength o);
     forecastHorizon := default 3 (opt_forecastHorizon o);
     raw := None; symbols := []; dates := [];
     perSymbolSeries := ∅; normalizers := ∅;
     dataset := None; logger := false; logged := [] |}.

Definition setLogger (this : t) : t :=
  {| sequenceLength := sequenceLength this;
     forecastHorizon := forecastHorizon this;
     raw := raw this; symbols := symbols this; dates := dates this;
     perSymbolSeries := perSymbolSeries this;
     normalizers := normalizers this;
     dataset := dataset this; logger := true; logged := logged this |}.

(** [log(...args) { if (this.logger) this.logger(...args); }] *)
Definition log (m : LogMsg) (this : t) : t :=
  if logger this then
    {| sequenceLength := sequenceLength this;
       forecastHorizon := forecastHorizon this;
       raw := raw this; symbols := symbols this; dates := dates this;
       perSymbolSeries := perSymbolSeries this;
       normalizers := normalizers this;
       dataset := dataset this; logger := true;
       logged := logged this ++ [m] |}
  else this.

(** The assignments of [loadFromCSVText] to the loaded fields. *)
Definition set_loaded (this : t) (syms ds : list string)
    (pss : gmap string (list Point)) (ns : gmap string Normalizer)
    (r : option Raw) : t :=
  {| sequenceLength := sequenceLength this;
     forecastHorizon := forecastHorizon this;
     raw := r; symbols := syms; dates := ds;
     perSymbolSeries := pss; normalizers := ns;
     dataset := dataset this; logger := logger this;
     logged := logged this |}.

Definition set_dataset (this : t) (d : Dataset) : t :=
  {| sequenceLength := sequenceLength this;
     forecastHorizon := forecastHorizon this;
     raw := raw this; symbols := symbols this; dates := dates this;
     perSymbolSeries := perSymbolSeries this;
     normalizers := normalizers this;
     dataset := Some d; logger := logger this; logged := logged this |}.

Section Loader.

(** The engine's [Date]: [Date_parse s] is the time value of [new Date(s)]
    in milliseconds, [None] for an Invalid Date, and [toISOString] prints a
    valid time value. *)
Variable Date_parse : string → option Z.
Variable toISOString : Z → string.

(** [d.toISOString().slice(0,10)] *)
Definition isoDay (d : Z) : string := substring 0 10 (toISOString d).

(** The date normalisation applied to every row. *)
Definition normalizeDate (s : string) : string :=
  match Date_parse s with
  | None =>
      let mm := trim (replace_all "/" "-" (replace_all "." "-" s)) in
      match Date_parse mm with
      | Some d2 => isoDay d2
      | None => s
      end
  | Some d => isoDay d
  end.

Definition normalizeRow (r : Row) : Row :=
  mkRow (normalizeDate (Date r)) (Symbol r) (Open r) (Close r).

(** The filter of the parsed rows. *)
Definition validRow (r : Row) : bool :=
  truthy (Date r) && truthy (Symbol r)
  && negb (Number_isNaN (Open r)) && negb (Number_isNaN (Close r)).

(** [(a,b) => new Date(a) - new Date(b)]; [None] is NaN. *)
Definition dateCompare (a b : string) : option Z :=
  match Date_parse a, Date_parse b with
  | Some x, Some y => Some (x - y)%Z
  | _, _ => None
  end.

(** [a] is not later than [b], both being texts the engine reads as
    dates. *)
Definition chronological (a b : string) : Prop :=
  match Date_parse a, Date_parse b with
  | Some x, Some y => (x ≤ y)%Z
  | _, _ => False
  end.

(** The comparator as [sort] reads it: a NaN result counts as [+0]. *)
Definition dateBefore (a b : string) : bool :=
  match dateCompare a b with
  | Some v => (v <? 0)%Z
  | None => false
  end.

(** The key of the lookup map: [`${sym}||${date}`]. *)
Definition key (sym dt : string) : string := sym +:+ "||" +:+ dt.

(** [rows.forEach(r => lookup.set(key, {open, close}))] *)
Definition buildLookup (rs : list Row) : gmap string (float * float) :=
  fold_left (λ m r, <[key (Symbol r) (Date r) := (Open r, Close r)]> m) rs ∅.

(** The series of one symbol over the date axis; a date with no entry in
    the lookup map gets the NaN pair. *)
Definition seriesOf (lookup : gmap string (float * float))
    (ds : list string) (sym : string) : list Point :=
  map (λ dt, match lookup !! key sym dt with
             | Some v => mkPoint dt (fst v) (snd v)
             | None => mkPoint dt PrimFloat.nan PrimFloat.nan
             end) ds.

Definition buildSeries (lookup : gmap string (float * float))
    (syms ds : list string) : gmap string (list Point) :=
  fold_left (λ m sym, <[sym := seriesOf lookup ds sym]> m) syms ∅.

(** The zero-range guard: [1e-6] is the binary64 value the literal denotes. *)
Definition eps : float := 0x1.0c6f7a0b5ed8dp-20%float.

Definition normalizerOf (arr : list Point) : Normalizer :=
  let opens := filter (λ v, Number_isNaN v = false) (map open arr) in
  let closes := filter (λ v, Number_isNaN v = false) (map close arr) in
  let omin := Math_min opens in
  let omax := Math_max opens in
  let cmin := Math_min closes in
  let cmax := Math_max closes in
  {| openMin := omin;
     openMax := if strict_eq omax omin then (omin + eps)%float else omax;
     closeMin := cmin;
     closeMax := if strict_eq cmax cmin then (cmin + eps)%float else cmax |}.

Definition buildNormalizers (pss : gmap string (list Point))
    (syms : list string) : gmap string Normalizer :=
  fold_left (λ m sym, <[sym := normalizerOf (default [] (pss !! sym))]> m)
            syms ∅.

(** [loadFromCSVText], from the parsed rows on.  The object is returned in
    both outcomes, since the logger may have been called before a throw. *)
Definition loadFromCSVText (this : t) (parsed : Parsed)
    : t * result (list string * list string) :=
  let this := log MsgParsing this in
  let this := match errors parsed with
              | [] => this
              | es => log (MsgParseErrors (take 5 es)) this
              end in
  let rs := filter (λ r, validRow r = true) (data parsed) in
  match rs with
  | [] => (this, Throw (Error "No valid rows in CSV"))
  | _ =>
      let rs := map normalizeRow rs in
      let syms := sort String.ltb (distinct (map Symbol rs)) in
      let ds := sort dateBefore (distinct (map Date rs)) in
      let this := set_loaded this syms ds (perSymbolSeries this)
                    (normalizers this) (raw this) in
      let this := if negb (Nat.eqb (length syms) 10)
                  then log (MsgSymbolWarning (length syms)) this
                  else this in
      let lookup := buildLookup rs in
      let pss := buildSeries lookup syms ds in
      let ns := buildNormalizers pss syms in
      let this := set_loaded this syms ds pss ns
                    (Some (mkRaw rs (length rs))) in
      let this := log (MsgParsed (length rs) (length syms) (length ds)) this in
      (this, Ok (syms, ds))
  end.

(** [loadFromFile(file)]: a missing file throws, otherwise the text of
    the file goes to [loadFromCSVText]. *)
Definition loadFromFile (this : t) (file : option Parsed)
    : t * result (list string * list string) :=
  match file with
  | None => (this, Throw (Error "No file provided"))
  | Some parsed => loadFromCSVText this parsed
  end.

End Loader.

(** *** [prepareDataset] *)

Definition undefined_read : JsError :=
  TypeError "Cannot read properties of undefined".

(** [this.perSymbolSeries[this.symbols[s]]], about to be indexed. *)
Definition seriesAt (this : t) (s : nat) : result (list Point) :=
  match symbols this !! s with
  | Some sym =>
      match perSymbolSeries this !! sym with
      | Some ser => Ok ser
      | None => Throw undefined_read
      end
  | None => Throw undefined_read
  end.

(** [this.normalizers[this.symbols[s]]], about to be read. *)
Definition normalizerAt (this : t) (s : nat) : result Normalizer :=
  match symbols this !! s with
  | Some sym =>
      match normalizers this !! sym with
      | Some n => Ok n
      | None => Throw undefined_read
      end
  | None => Throw undefined_read
  end.

(** An element about to be read through one of its properties. *)
Definition pointAt (ser : list Point) (k : nat) : result Point :=
  match ser !! k with
  | Some v => Ok v
  | None => Throw undefined_read
  end.

(** The loop over [t = seqStart .. i]; the result is the [bad] flag and the
    loop stops at the first NaN. *)
Fixpoint windowBad (ser : list Point) (ts : list nat) : result bool :=
  match ts with
  | [] => Ok false
  | k :: ts' =>
      v ← pointAt ser k;
      if Number_isNaN (open v) || Number_isNaN (close v) then Ok true
      else windowBad ser ts'
  end.

(** The loop over [offset = 1 .. h]: [!v2 || Number.isNaN(v2.close)]. *)
Fixpoint futureBad (ser : list Point) (i : nat) (offsets : list nat) : bool :=
  match offsets with
  | [] => false
  | o :: os =>
      match ser !! (i + o) with
      | None => true
      | Some v2 =>
          if Number_isNaN (close v2) then true else futureBad ser i os
      end
  end.

(** The loop over the symbols, left at the first symbol found bad. *)
Fixpoint symbolsBad (this : t) (i : nat) (ts offsets : list nat)
    (ss : list nat) : result bool :=
  match ss with
  | [] => Ok false
  | s :: ss' =>
      ser ← seriesAt this s;
      b1 ← windowBad ser ts;
      let b2 := futureBad ser i offsets in
      if b1 || b2 then Ok true else symbolsBad this i ts offsets ss'
  end.

(** [seqStart = i - seq + 1] *)
Definition seqStart (this : t) (i : nat) : Z :=
  (Z.of_nat i - Z.of_nat (sequenceLength this) + 1)%Z.

(** [futureEnd = i + h] *)
Definition futureEnd (this : t) (i : nat) : nat := i + forecastHorizon this.

(** The values [t] takes in [for (t = seqStart; t <= i; t++)] once
    [seqStart >= 0] is known. *)
Definition windowRange (this : t) (i : nat) : list nat :=
  let a := Z.to_nat (seqStart this i) in seq a (i + 1 - a).

(** The values of [offset] in [for (offset = 1; offset <= h; offset++)]. *)
Definition offsetRange (this : t) : list nat := seq 1 (forecastHorizon this).

(** Whether the body of the loop over [i] reaches the three [push]es:
    neither [continue] on the bounds is taken and [bad] stays false. *)
Definition anchorOk (this : t) (i : nat) : result bool :=
  if (seqStart this i <? 0)%Z then Ok false
  else if Nat.leb (length (dates this)) (futureEnd this i) then Ok false
  else
    bad ← symbolsBad this i (windowRange this i) (offsetRange this)
                     (seq 0 (length (symbols this)));
    Ok (negb bad).

(** One row of the input: per symbol the normalised open and close. *)
Definition featurePair (this : t) (k s : nat) : result (list float) :=
  ser ← seriesAt this s;
  v ← pointAt ser k;
  norm ← normalizerAt this s;
  let on := ((open v - openMin norm) / (openMax norm - openMin norm))%float in
  let cn := ((close v - closeMin norm) / (closeMax norm - closeMin norm))%float in
  Ok [on; cn].

Definition featureRow (this : t) (k : nat) : result (list float) :=
  ps ← mapM (featurePair this k) (seq 0 (length (symbols this)));
  Ok (concat ps).

(** [sampleInput], of shape [seq, S*2]. *)
Definition sampleInput (this : t) (i : nat) : result (list (list float)) :=
  mapM (featureRow this) (windowRange this i).

(** The labels of one symbol: [futureClose > closeD ? 1 : 0] per offset. *)
Definition symbolLabels (this : t) (i s : nat) : result (list float) :=
  ser ← seriesAt this s;
  vD ← pointAt ser i;
  let closeD := close vD in
  mapM (λ o, v ← pointAt ser (i + o);
             Ok (if gt (close v) closeD then 1%float else 0%float))
       (offsetRange this).

(** [sampleOutput], of length [S*h]. *)
Definition sampleOutput (this : t) (i : nat) : result (list float) :=
  ls ← mapM (symbolLabels this i) (seq 0 (length (symbols this)));
  Ok (concat ls).

(** A sample, before the three parallel arrays are filled: its anchor
    index, input, output and anchor date. *)
Record Sample : Type := mkSample
  { anchor : nat;
    input : list (list float);
    output : list float;
    anchorDate : string }.

(** The body of the loop over [i]: nothing, or one sample. *)
Definition sampleAt (this : t) (i : nat) : result (option Sample) :=
  ok ← anchorOk this i;
  if ok : bool then
    x ← sampleInput this i;
    y ← sampleOutput this i;
    Ok (Some (mkSample i x y (default EmptyString (dates this !! i))))
  else Ok None.

(** The loop [for (i = 0; i < D; i++)]. *)
Definition collectSamples (this : t) : result (list Sample) :=
  rs ← mapM (sampleAt this) (seq 0 (length (dates this)));
  Ok (omap id rs).

(** [(trainSplitPercent/100) * total], rounded. *)
Definition trainCountOf (trainSplitPercent : float) (total : nat) : option Z :=
  Math_round ((trainSplitPercent / 100) * of_nat total)%float.

(** [tensor.slice([b, 0, ..], [n, ..])] along the first axis, the other axes
    taken whole.  TensorFlow.js refuses a range that leaves the tensor. *)
Definition tf_slice {A} (b n : Z) (xs : list A) : result (list A) :=
  if ((0 <=? b) && (0 <=? n) && (b + n <=? Z.of_nat (length xs)))%Z
  then Ok (take (Z.to_nat n) (drop (Z.to_nat b) xs))
  else Throw (Error "slice: begin + size must not exceed the shape").

(** [xs.slice(0, n)] and [xs.slice(n)] of a JavaScript array. *)
Definition js_slice_to {A} (n : Z) (xs : list A) : list A :=
  if (n <? 0)%Z then take (length xs - Z.to_nat (- n)) xs
  else take (Z.to_nat n) xs.

Definition js_slice_from {A} (n : Z) (xs : list A) : list A :=
  if (n <? 0)%Z then drop (length xs - Z.to_nat (- n)) xs
  else drop (Z.to_nat n) xs.

Definition not_loaded : JsError :=
  Error "No data loaded. Call loadFromFile or loadFromCSVText first.".

Definition no_samples : JsError :=
  Error "No valid sliding-window samples could be constructed (missing data or short series).".

(** [tf.tensor3d(values)] of a nested array with no shape given.  The
    shape is inferred along the first elements: a nested array whose first
    element is empty has rank 2 and is refused, an empty one has rank 1 and
    needs a shape.  The values are stored as float32.  (The rows the sample
    loop builds have one length, so the consistency check of the inferred
    shape passes.) *)
Definition tensor3d (values : list (list (list float)))
    : result (list (list (list float))) :=
  match values with
  | [] =>
      Throw (Error "tensor3d() requires shape to be provided when `values` are a flat array")
  | [] :: _ =>
      Throw (Error "tensor3d() requires values to be number[][][] or flat/TypedArray")
  | (_ :: _) :: _ => Ok (map (map (map fround)) values)
  end.

(** [tf.tensor2d(values)] of a nested array with no shape given. *)
Definition tensor2d (values : list (list float)) : result (list (list float)) :=
  match values with
  | [] =>
      Throw (Error "tensor2d() requires shape to be provided when `values` are a flat/TypedArray")
  | _ :: _ => Ok (map (map fround) values)
  end.

(** The default of the destructured parameter [{ trainSplitPercent = 80 }]. *)
Definition trainSplitPercentOf (o : option float) : float :=
  default 80%float o.

(** [prepareDataset], with [trainSplitPercent] already destructured.  The
    tensors are carried by their nested arrays of float32 values. *)
Definition prepareDataset (this : t) (trainSplitPercent : float)
    : t * result Meta :=
  match raw this with
  | None => (this, Throw not_loaded)
  | Some _ =>
      let S := length (symbols this) in
      let h := forecastHorizon this in
      match collectSamples this with
      | Throw e => (this, Throw e)
      | Ok [] => (this, Throw no_samples)
      | Ok smp =>
          let inputSamples := map input smp in
          let outputSamples := map output smp in
          let sampleDates := map anchorDate smp in
          let total := length inputSamples in
          let r :=
            X ← tensor3d inputSamples;
            y ← tensor2d outputSamples;
            match trainCountOf trainSplitPercent total with
            | None => Throw (Error "slice: size is not a number")
            | Some trainCount =>
                let rest := (Z.of_nat total - trainCount)%Z in
                xtr ← tf_slice 0 trainCount X;
                xte ← tf_slice trainCount rest X;
                ytr ← tf_slice 0 trainCount y;
                yte ← tf_slice trainCount rest y;
                Ok (mkDataset xtr ytr xte yte (0%Z, trainCount)
                      (trainCount, rest) sampleDates
                      (js_slice_to trainCount sampleDates)
                      (js_slice_from trainCount sampleDates), trainCount)
            end in
          match r with
          | Throw e => (this, Throw e)
          | Ok (d, trainCount) =>
              let rest := (Z.of_nat total - trainCount)%Z in
              let this := set_dataset this d in
              let this := log (MsgPrepared total trainCount rest) this in
              (this, Ok (mkMeta total trainCount rest
                           (sequenceLength this) (S * 2) (S * h)
                           (symbols this)))
          end
      end
  end.

(** The object [getTensors] returns: the four stored tensors, the current
    symbols and the anchor dates of the test part. *)
Record Tensors : Type := mkTensors
  { t_X_train : list (list (list float));
    t_y_train : list (list float);
    t_X_test : list (list (list float));
    t_y_test : list (list float);
    t_symbols : list string;
    t_sampleDatesTest : list string }.

(** [getTensors] *)
Definition getTensors (this : t) : result Tensors :=
  match dataset this with
  | Some d =>
      Ok (mkTensors (X_train d) (y_train d) (X_test d) (y_test d)
            (symbols this) (sampleDatesTest d))
  | None => Throw (Error "Dataset not prepared yet. Call prepareDataset()")
  end.

End DataLoader.

(** ** A [Date] for the ISO date-only form

    ECMAScript fixes the reading of [YYYY-MM-DD] (midnight UTC of that
    civil day) and the output of [toISOString].  This instance reads that
    form and a valid calendar day only, and rejects every other text; it is
    the parser the worked examples below run with. *)

Module IsoDate.

Local Open Scope Z_scope.

Definition digit (a : ascii) : option Z :=
  let n := Z.of_nat (nat_of_ascii a) in
  if (48 <=? n) && (n <=? 57) then Some (n - 48) else None.

Fixpoint digits (acc : Z) (l : list ascii) : option Z :=
  match l with
  | [] => Some acc
  | a :: r => match digit a with
              | Some d => digits (10 * acc + d) r
              | None => None
              end
  end.

Definition isLeap (y : Z) : bool :=
  ((y mod 4 =? 0) && negb (y mod 100 =? 0)) || (y mod 400 =? 0).

Definition daysInMonth (y m : Z) : Z :=
  if m =? 2 then (if isLeap y then 29 else 28)
  else if (m =? 4) || (m =? 6) || (m =? 9) || (m =? 11) then 30 else 31.

(** Days from 1970-01-01 to the civil day [y-m-d]. *)
Definition daysFromCivil (y m d : Z) : Z :=
  let y := if m <=? 2 then y - 1 else y in
  let era := y / 400 in
  let yoe := y - era * 400 in
  let doy := (153 * (m + (if 2 <? m then -3 else 9)) + 2) / 5 + d - 1 in
  let doe := yoe * 365 + yoe / 4 - yoe / 100 + doy in
  era * 146097 + doe - 719468.

(** The civil day of a day number. *)
Definition civilFromDays (z : Z) : Z * Z * Z :=
  let z := z + 719468 in
  let era := z / 146097 in
  let doe := z - era * 146097 in
  let yoe := (doe - doe / 1460 + doe / 36524 - doe / 146096) / 365 in
  let y := yoe + era * 400 in
  let doy := doe - (365 * yoe + yoe / 4 - yoe / 100) in
  let mp := (5 * doy + 2) / 153 in
  let d := doy - (153 * mp + 2) / 5 + 1 in
  let m := if mp <? 10 then mp + 3 else mp - 9 in
  (if m <=? 2 then y + 1 else y, m, d).

Definition msPerDay : Z := 86400000.

Definition parse (s : string) : option Z :=
  match list_ascii_of_string s with
  | [y1; y2; y3; y4; "-"%char; m1; m2; "-"%char; d1; d2] =>
      match digits 0 [y1; y2; y3; y4], digits 0 [m1; m2], digits 0 [d1; d2] with
      | Some y, Some m, Some d =>
          if (1 <=? m) && (m <=? 12) && (1 <=? d) && (d <=? daysInMonth y m)
          then Some (daysFromCivil y m d * msPerDay)
          else None
      | _, _, _ => None
      end
  | _ => None
  end.

Definition digitChar (d : Z) : ascii := ascii_of_nat (Z.to_nat (48 + d mod 10)).

(** [n] printed on [w] digits, zero padded. *)
Fixpoint pad (w : nat) (n : Z) (acc : string) : string :=
  match w with
  | O => acc
  | S w' => pad w' (n / 10) (String (digitChar n) acc)
  end.

(** [toISOString] for the years 0000 to 9999. *)
Definition toISOString (tv : Z) : string :=
  let day := tv / msPerDay in
  let ms := tv mod msPerDay in
  let '(y, m, d) := civilFromDays day in
  pad 4 y ("-" +:+ pad 2 m ("-" +:+ pad 2 d ("T" +:+
    pad 2 (ms / 3600000) (":" +:+ pad 2 (ms / 60000 mod 60) (":" +:+
    pad 2 (ms / 1000 mod 60) ("." +:+ pad 3 (ms mod 1000) "Z")))))).

End IsoDate.

(** ** The worked scenario of the specification

    Two assets A and B over six consecutive days, no missing value,
    [sequenceLength = 2], [forecastHorizon = 1]. *)

Module Scenario.
Import DataLoader.

Local Open Scope float_scope.

Definition day (k : nat) : string :=
  nth k ["2024-01-01"; "2024-01-02"; "2024-01-03";
         "2024-01-04"; "2024-01-05"; "2024-01-06"] EmptyString.

Definition closesA : list float := [10; 11; 9; 12; 13; 14].
Definition closesB : list float := [5; 5; 6; 6; 7; 8].

Definition rowsOf (sym : string) (cs : list float) : list Row :=
  imap (λ k c, mkRow (day k) sym c c) cs.

Definition parsed : Parsed :=
  mkParsed (rowsOf "A" closesA ++ rowsOf "B" closesB) [].

Definition fresh : DataLoader.t :=
  setLogger (constructor (mkOptions (Some 2%nat) (Some 1%nat) None)).

Definition loaded : DataLoader.t :=
  fst (loadFromCSVText IsoDate.parse IsoDate.toISOString fresh parsed).

Definition prepared : DataLoader.t * result Meta := prepareDataset loaded 75.

(** The samples of the scenario, the first of them (anchor 1), and the
    series of asset A. *)
Definition samples : list Sample :=
  match collectSamples loaded with Ok l => l | Throw _ => [] end.

Definition sample1 : Sample :=
  match samples with x :: _ => x | [] => mkSample 0 [] [] EmptyString end.

Definition seriesA : list Point :=
  match seriesAt loaded 0 with Ok l => l | Throw _ => [] end.

Definition pointA (k : nat) : Point :=
  nth k seriesA (mkPoint EmptyString PrimFloat.nan PrimFloat.nan).


End Scenario.

(** ** TensorFlow.js tensors, as far as [gru.js] uses them *)

Module Tf.

(** A tensor: its shape and its values in row-major order. *)
Record Tensor (A : Type) : Type := mkTensor
  { shape : list nat; values : list A }.
Arguments mkTensor {A} shape values.
Arguments shape {A} _.
Arguments values {A} _.

(** The number of elements a shape announces. *)
Definition sizeOf (sh : list nat) : nat := foldr Nat.mul 1 sh.

(** A tensor holds as many values as its shape announces. *)
Definition wf {A} (x : Tensor A) : Prop := length (values x) = sizeOf (shape x).

(** Element-wise operations keep the shape. *)
Definition tmap {A B} (f : A → B) (x : Tensor A) : Tensor B :=
  mkTensor (shape x) (map f (values x)).

(** [x.reshape(sh)] fails unless the element counts agree. *)
Definition reshape {A} (sh : list nat) (x : Tensor A) : result (Tensor A) :=
  if Nat.eqb (sizeOf sh) (sizeOf (shape x)) then Ok (mkTensor sh (values x))
  else Throw (Error "Size must match the product of shape").

(** One element of [x.greater(tf.scalar(c)).toInt()]. *)
Definition threshold (c p : float) : Z := if gt p c then 1%Z else 0%Z.

(** [x.greater(tf.scalar(c)).toInt()] on Numbers. *)
Definition greaterInt (c : float) (x : Tensor float) : Tensor Z :=
  tmap (threshold c) x.

(** The conversion of a Number to a 32-bit integer ([ToInt32]): truncation,
    wrap-around modulo [2^32], and 0 for NaN and the infinities. *)
Definition toInt32 (x : float) : Z :=
  match Prim2SF x with
  | S754_finite s m e =>
      let mag := if (0 <=? e)%Z then (Z.pos m * 2 ^ e)%Z
                 else (Z.pos m / 2 ^ (- e))%Z in
      let v := if s then (- mag)%Z else mag in
      ((v + 2 ^ 31) mod 2 ^ 32 - 2 ^ 31)%Z
  | _ => 0%Z
  end.

(** [x.toInt()] *)
Definition toInt (x : Tensor float) : Tensor Z := tmap toInt32 x.

(** One element of [a.equal(b)], as 1 or 0. *)
Definition eq01 (x y : Z) : Z := if Z.eqb x y then 1%Z else 0%Z.

(** [a.equal(b)] for two tensors of one shape, as 1 and 0. *)
Definition equalInt (a b : Tensor Z) : Tensor Z :=
  mkTensor (shape a) (zip_with eq01 (values a) (values b)).

(** [n] consecutive chunks of [k] elements. *)
Fixpoint chunks {A} (k n : nat) (l : list A) : list (list A) :=
  match n with
  | O => []
  | S n' => take k l :: chunks k n' (drop k l)
  end.

(** [x.arraySync()] of a tensor of shape [[N, S, h]] and of shape [[N, S]]
    that has at least one element.  (Of a tensor without elements
    [arraySync] gives the empty array; what is stated below about the
    entries of these arrays is stated for [N], [S] and [h] at least 1.) *)
Definition array3 {A} (N S h : nat) (vals : list A) : list (list (list A)) :=
  map (chunks h S) (chunks (S * h) N vals).

Definition array2 {A} (N S : nat) (vals : list A) : list (list A) :=
  chunks S N vals.

Definition sumQ (l : list Q) : Q := foldr Qplus 0%Q l.

(** The exact mean of [xs] over [n] reduced elements: the sum of the
    quotients [x / n]. *)
Definition meanOver (n : nat) (xs : list Z) : Q :=
  sumQ (map (λ x, (inject_Z x / inject_Z (Z.of_nat n))%Q) xs).

(** *** Float32 values, by the rationals they denote *)

(** [2^e] *)
Definition pow2 (e : Z) : Q := Qpower 2 e.

(** The exponent [l] with [2^l <= q < 2^(l+1)], for a positive [q]. *)
Definition log2Q (q : Q) : Z :=
  let e0 := (Z.log2 (Qnum q) - Z.log2 (Zpos (Qden q)))%Z in
  if Qle_bool (pow2 e0) q then e0 else (e0 - 1)%Z.

(** The integer nearest to [x], ties to the even one. *)
Definition roundEven (x : Q) : Z :=
  let f := Qfloor x in
  match Qcompare (x - inject_Z f) (1 # 2) with
  | Lt => f
  | Gt => (f + 1)%Z
  | Eq => if Z.even f then f else (f + 1)%Z
  end.

(** The exponent of the float32 grid around a positive [q]: 24 significant
    bits, and [2^-149] for the subnormals. *)
Definition quantum32 (q : Q) : Z := Z.max (log2Q q - 23) (-149).

(** The float32 value nearest to [q], ties to even, for [q] below the
    overflow threshold [2^128] in magnitude (the values rounded here are
    counts and quotients of at most 1). *)
Definition round32 (q : Q) : Q :=
  match Qcompare q 0 with
  | Eq => 0
  | Gt => inject_Z (roundEven (q / pow2 (quantum32 q))) * pow2 (quantum32 q)
  | Lt => - (inject_Z (roundEven (- q / pow2 (quantum32 (- q))))
             * pow2 (quantum32 (- q)))
  end.

(** [x.mean(axes)] over [n] reduced elements, as the kernel of the CPU
    backend computes it: every element is divided by the float32 scalar
    [n] and stored as float32, the quotients are added up in a binary64
    accumulator, which is exact for the up to [2^24] quotients of one
    magnitude met here, and the sum is stored as float32. *)
Definition mean32 (n : nat) (xs : list Z) : Q :=
  round32 (sumQ (map (λ x, round32 (inject_Z x
                                    / round32 (inject_Z (Z.of_nat n))))
                     xs)).

(** [x.mean()] *)
Definition meanAll (vals : list Z) : Q := mean32 (length vals) vals.

(** [x.mean(2)] on shape [[N, S, h]]: one value per sample and asset.
    It is only compared with one half and is taken exactly: for fewer than
    [2^22] horizons the comparison has the same outcome on the float32
    mean ([horizon_mean_comparison]). *)
Definition meanAxis2 (N S h : nat) (vals : list Z) : list Q :=
  map (meanOver h) (chunks h (N * S) vals).

(** [x.mean([0,2])] on shape [[N, S, h]]: one value per asset. *)
Definition meanAxes02 (N S h : nat) (vals : list Z) : list Q :=
  map (λ s, mean32 (N * h)
              (concat (map (λ row, nth s row []) (array3 N S h vals))))
      (seq 0 S).

(** [x.greater(tf.scalar(1/2)).toInt()] on means. *)
Definition greaterHalf (q : Q) : Z :=
  if Qle_bool q (1 # 2) then 0%Z else 1%Z.

(** The JavaScript Number that [arraySync] gives for an integer. *)
Definition numberOf (z : Z) : float :=
  if (z <? 0)%Z then (- PrimFloat.of_uint63 (Uint63.of_Z (- z)))%float
  else PrimFloat.of_uint63 (Uint63.of_Z z).

(** [x.transpose([1,0]).arraySync()] on shape [[N, S]] with at least one
    element: one row per asset. *)
Definition transposed {A} (d : A) (N S : nat) (vals : list A)
    : list (list A) :=
  map (λ s, map (λ n, nth (n * S + s) vals d) (seq 0 N)) (seq 0 S).

(** The matrix [tf.tensor2d(rows)] of a nested array whose rows have [w]
    entries, and any run of its rows cut out by [slice]: shape [[n, w]],
    values in row-major order. *)
Definition matrixOf {A} (w : nat) (rows : list (list A)) : Tensor A :=
  mkTensor [length rows; w] (concat rows).

End Tf.

(** ** The evaluator: [gru.js] *)

Module GRUModel.
Import Tf.

(** The object state that evaluation reads: [this.model], reduced to the
    function [model.predict] computes. *)
Record t : Type := mkModel
  { model : option (Tensor float → Tensor float) }.

Definition not_built : JsError := Error "Model not built.".

(** [predict(X)] *)
Definition predict (this : t) (X : Tensor float) : result (Tensor float) :=
  match model this with
  | None => Throw not_built
  | Some m => Ok (m X)
  end.

(** [x.shape[0]], about to be used as a dimension. *)
Definition shape0 {A} (x : Tensor A) : result nat :=
  match shape x with
  | n :: _ => Ok n
  | [] => Throw (Error "Size must match the product of shape")
  end.

(** [{ perStockAcc, overallAcc }] *)
Record Accuracy : Type := mkAccuracy
  { acc_perStockAcc : list Q; acc_overallAcc : Q }.

(** [computePerStockAccuracy(y_true, y_pred, S, h)] *)
Definition computePerStockAccuracy (y_true y_pred : Tensor float)
    (S h : nat) : result Accuracy :=
  let predsBin := greaterInt 0.5 y_pred in
  let truths := toInt y_true in
  samples ← shape0 predsBin;
  preds3 ← reshape [samples; S; h] predsBin;
  truths3 ← reshape [samples; S; h] truths;
  let correct := equalInt preds3 truths3 in
  let perStockAcc := meanAxes02 samples S h (values correct) in
  let overallAcc := meanAll (values correct) in
  Ok (mkAccuracy perStockAcc overallAcc).

(** The object [evaluateTestSet] returns. *)
Record Evaluation : Type := mkEvaluation
  { perStockAcc : list Q;
    overallAcc : Q;
    perStockTimeline : list (list Z);
    predArr : list (list (list Z));
    truthArr : list (list (list Z)) }.

(** [evaluateTestSet(X_test, y_test, symbols, horizon)] *)
Definition evaluateTestSet (this : t) (X_test y_test : Tensor float)
    (symbols : list string) (horizon : nat) : result Evaluation :=
  let S := length symbols in
  preds ← predict this X_test;
  samples ← shape0 preds;
  let predsBin := greaterInt 0.5 preds in
  let truths := toInt y_test in
  preds3 ← reshape [samples; S; horizon] predsBin;
  truths3 ← reshape [samples; S; horizon] truths;
  let correctPerHorizon := equalInt preds3 truths3 in
  let correctPerSamplePerStock :=
    meanAxis2 samples S horizon (values correctPerHorizon) in
  let timelineBinary := map greaterHalf correctPerSamplePerStock in
  let cpArr := transposed 0%Z samples S timelineBinary in
  let perStockTimeline := cpArr in
  acc ← computePerStockAccuracy y_test preds S horizon;
  let predArr := array3 samples S horizon (values preds3) in
  let truthArr := array3 samples S horizon (values truths3) in
  Ok (mkEvaluation (acc_perStockAcc acc) (acc_overallAcc acc)
        perStockTimeline predArr truthArr).

End GRUModel.

(** ** A flat series of large prices

    One asset whose open and close stay at 2e10 over four days. *)

Module FlatScenario.
Import DataLoader.

Local Open Scope float_scope.

Definition price : float := 20000000000.

Definition parsed : Parsed :=
  mkParsed (map (λ d, mkRow d "A" price price)
                ["2024-01-01"; "2024-01-02"; "2024-01-03"; "2024-01-04"]) [].

Definition loaded : DataLoader.t :=
  fst (loadFromCSVText IsoDate.parse IsoDate.toISOString
         (constructor (mkOptions (Some 2%nat) (Some 1%nat) None)) parsed).

Definition seriesA : list Point :=
  match seriesAt loaded 0 with Ok l => l | Throw _ => [] end.

Definition normalizerA : Normalizer := normalizerOf seriesA.

(** The normalised open of a point of the series, as [prepareDataset]
    computes it, and the value the normaliser maps it back to. *)
Definition normalizedOpen (v : Point) : float :=
  (open v - openMin normalizerA) / (openMax normalizerA - openMin normalizerA).

Definition restoredOpen (v : Point) : float :=
  normalizedOpen v * (openMax normalizerA - openMin normalizerA)
  + openMin normalizerA.

End FlatScenario.

(** ** Two symbols whose keys coincide

    Three rows with texts no engine reads as dates: two for the symbol [A]
    on the date [|x], then one for the symbol [A|] on the date [x]. *)

Module ClashScenario.
Import DataLoader.

Local Open Scope float_scope.

Definition parsed : Parsed :=
  mkParsed [mkRow "|x" "A" 1 1; mkRow "|x" "A" 2 2; mkRow "x" "A|" 3 3] [].

Definition loaded : DataLoader.t :=
  fst (loadFromCSVText IsoDate.parse IsoDate.toISOString
         (constructor (mkOptions None None None)) parsed).

(** The last row of the input with symbol [A] and date [|x]. *)
Definition lastDuplicate : option Row :=
  last (filter (λ r, Symbol r = "A" ∧ Date r = "|x")
          (map (normalizeRow IsoDate.parse IsoDate.toISOString)
               (filter (λ r, validRow r = true) (data parsed)))).

End ClashScenario.

(** ** A worked evaluation

    Two samples, two assets, two horizons; the predictor returns a fixed
    probability matrix. *)

Module EvalScenario.
Import Tf.

Local Open Scope float_scope.

Definition symbols : list string := ["A"; "B"].

Definition probabilities : Tensor float :=
  mkTensor [2; 4]%nat [0.5; 0.75; 0.875; 0.25;
                       0.625; 0.625; 0.375; 0.375].

Definition truths : Tensor float :=
  mkTensor [2; 4]%nat [1; 1; 1; 0;
                       1; 1; 1; 1].

Definition X_test : Tensor float := mkTensor [2; 1; 4]%nat (replicate 8 0).

Definition gru : GRUModel.t := GRUModel.mkModel (Some (λ _, probabilities)).

(** An object on which [buildModel] was never called. *)
Definition unbuilt : GRUModel.t := GRUModel.mkModel None.

(** A predictor that returns no row, five columns wide. *)
Definition emptyWide : GRUModel.t :=
  GRUModel.mkModel (Some (λ _, mkTensor [0; 5]%nat [])).

Definition noTruths : Tensor float := mkTensor [0; 5]%nat [].

End EvalScenario.

(** ** The worked scenario, from the loader to the evaluator

    The dataset of the worked scenario split at 75 percent: one test
    sample, two assets, one horizon. *)

Module PipelineScenario.
Import Tf.

Local Open Scope float_scope.

Definition tensors : DataLoader.Tensors :=
  match DataLoader.getTensors (fst Scenario.prepared) with
  | Ok g => g
  | Throw _ => DataLoader.mkTensors [] [] [] [] [] []
  end.

Definition meta : DataLoader.Meta :=
  match snd Scenario.prepared with
  | Ok m => m
  | Throw _ => DataLoader.mkMeta 0 0 0 0 0 0 []
  end.

(** The normaliser of asset A. *)
Definition normalizerA : DataLoader.Normalizer :=
  match DataLoader.normalizerAt Scenario.loaded 0 with
  | Ok n => n
  | Throw _ => DataLoader.mkNormalizer 0 0 0 0
  end.

(** The ground truth of the test part, as the tensor handed to the
    evaluator. *)
Definition truths : Tensor float :=
  matrixOf (DataLoader.outputDim meta) (DataLoader.t_y_test tensors).

(** A predictor that returns one row: a rise for A, none for B. *)
Definition gru : GRUModel.t :=
  GRUModel.mkModel (Some (λ _, mkTensor [1; 2]%nat [0.75; 0.25])).

(** A predictor that returns the probabilities of the worked evaluation
    pushed to 0 and 1. *)
Definition sharp : GRUModel.t :=
  GRUModel.mkModel (Some (λ _, mkTensor [2; 4]%nat [0; 1; 1; 0;
                                                    1; 1; 0; 0])).

(** A predictor that returns the truths of the worked evaluation. *)
Definition oracle : GRUModel.t :=
  GRUModel.mkModel (Some (λ _, EvalScenario.truths)).

End PipelineScenario.

(** * Vocabulary of the statements *)

Import DataLoader.
Import Tf.

(** ** The loader *)

(** The invariant [loadFromCSVText] establishes: every symbol has a series
    as long as the date axis, and a normaliser. *)
Definition Loaded (this : DataLoader.t) : Prop :=
  ∀ s sym, symbols this !! s = Some sym →
    (∃ ser, perSymbolSeries this !! sym = Some ser
            ∧ length ser = length (dates this))
    ∧ is_Some (normalizers this !! sym).

(** Asset [s] has a present (open, close) pair at position [k]. *)
Definition presentPair (this : DataLoader.t) (s k : nat) : Prop :=
  ∃ ser v, seriesAt this s = Ok ser ∧ ser !! k = Some v
           ∧ Number_isNaN (open v) = false ∧ Number_isNaN (close v) = false.

(** Asset [s] has a present close at position [k]. *)
Definition presentClose (this : DataLoader.t) (s k : nat) : Prop :=
  ∃ ser v, seriesAt this s = Ok ser ∧ ser !! k = Some v
           ∧ Number_isNaN (close v) = false.

(** The condition of the specification on an anchor index. *)
Definition validAnchor (this : DataLoader.t) (i : nat) : Prop :=
  (0 ≤ seqStart this i)%Z
  ∧ i + forecastHorizon this < length (dates this)
  ∧ ∀ s, s < length (symbols this) →
      (∀ k, (seqStart this i ≤ Z.of_nat k)%Z → k ≤ i → presentPair this s k)
      ∧ (∀ o, 1 ≤ o ≤ forecastHorizon this → presentClose this s (i + o)).

(** The anchors, as a test on the index. *)
Definition isAnchor (this : DataLoader.t) (i : nat) : bool :=
  match anchorOk this i with Ok true => true | _ => false end.

Section LoadedData.
Variable Date_parse : string → option Z.
Variable toISOString : Z → string.

(** The rows that survive the filter, with their dates normalised. *)
Definition loadedRows (parsed : Parsed) : list Row :=
  map (normalizeRow Date_parse toISOString)
      (filter (λ r, validRow r = true) (data parsed)).

Definition loadedSymbols (parsed : Parsed) : list string :=
  sort String.ltb (distinct (map Symbol (loadedRows parsed))).

Definition loadedDates (parsed : Parsed) : list string :=
  sort (dateBefore Date_parse) (distinct (map Date (loadedRows parsed))).

(** The text of a date is read by the engine, as it stands or after the
    separators have been replaced. *)
Definition parseable (s : string) : Prop :=
  is_Some (Date_parse s)
  ∨ is_Some (Date_parse (trim (replace_all "/" "-" (replace_all "." "-" s)))).

(** The messages the logger has received from one state of the object to
    a later one. *)
Definition received (before after : DataLoader.t) : list LogMsg :=
  drop (length (logged before)) (logged after).

(** The symbol counts of the warnings among some messages. *)
Definition warningsOf (l : list LogMsg) : list nat :=
  omap (λ m, match m with MsgSymbolWarning n => Some n | _ => None end) l.

(** The logger has received a symbol-count warning. *)
Definition warned (this : DataLoader.t) : Prop :=
  ∃ n, MsgSymbolWarning n ∈ logged this.

(** The reading of the specification: with a logger installed, the
    warning comes exactly when the number of distinct symbols differs from
    the count configured as [expectedSymbolCount]. *)
Definition warnsOnConfiguredMismatch (opts : Options) (parsed : Parsed)
    : Prop :=
  let this :=
    fst (loadFromCSVText Date_parse toISOString
           (setLogger (constructor opts)) parsed) in
  ∀ k, opt_expectedSymbolCount opts = Some k →
       (warned this ↔ length (symbols this) ≠ k).

End LoadedData.

(** The rational a finite Number denotes. *)
Definition valueQ (x : float) : option Q :=
  match Prim2SF x with
  | S754_zero _ => Some 0%Q
  | S754_finite s m e =>
      Some (inject_Z (if s then Z.neg m else Z.pos m) * pow2 e)%Q
  | S754_infinity _ | S754_nan => None
  end.


(** A correctness entry: 0 or 1. *)
Definition isBit (x : Z) : Prop := x = 0%Z ∨ x = 1%Z.

(** A label: the Number 0 or the Number 1. *)
Definition isLabel (v : float) : Prop := v = 0%float ∨ v = 1%float.

(** The dataset and the metadata of a successful [prepareDataset]: the
    inputs as the float32 tensor holds them, the labels as they are (0 and
    1 are float32 values). *)
Definition splitDataset (smp : list Sample) (c : Z) : Dataset :=
  let k := Z.to_nat c in
  let X := map (map (map fround)) (map input smp) in
  let y := map output smp in
  mkDataset (take k X) (take k y) (drop k X) (drop k y)
    (0%Z, c) (c, (Z.of_nat (length smp) - c)%Z)
    (map anchorDate smp)
    (take k (map anchorDate smp)) (drop k (map anchorDate smp)).

Definition splitMeta (this : DataLoader.t) (smp : list Sample) (c : Z) : Meta :=
  mkMeta (length smp) c (Z.of_nat (length smp) - c) (sequenceLength this)
    (length (symbols this) * 2)
    (length (symbols this) * forecastHorizon this) (symbols this).

(** ** The evaluator *)

(** [arr[i][j]] and [arr[i][j][k]] of nested arrays. *)
Definition at2 {A} (arr : list (list A)) (i j : nat) : option A :=
  match arr !! i with Some row => row !! j | None => None end.

Definition at3 {A} (arr : list (list (list A))) (i j k : nat) : option A :=
  match at2 arr i j with Some l => l !! k | None => None end.

Definition sumZ (l : list Z) : Z := foldr Z.add 0%Z l.

(** The correctness entries the two accuracy routines compute. *)
Definition correctness (y_true y_pred : Tensor float) : list Z :=
  zip_with eq01 (map (threshold 0.5) (values y_pred))
                (map toInt32 (values y_true)).

(** The result of a successful evaluation, given the prediction tensor. *)
Definition evaluationOf (preds y_test : Tensor float) (N S h : nat)
    : GRUModel.Evaluation :=
  GRUModel.mkEvaluation
    (meanAxes02 N S h (correctness y_test preds))
    (meanAll (correctness y_test preds))
    (transposed 0%Z N S
       (map greaterHalf (meanAxis2 N S h (correctness y_test preds))))
    (array3 N S h (map (threshold 0.5) (values preds)))
    (array3 N S h (map toInt32 (values y_test))).

(** The float32 mean of [n] entries of which [k] are 1 and the others 0:
    [k] times the float32 quotient [1/n], stored as float32. *)
Definition ratio32 (k n : nat) : Q :=
  round32 (inject_Z (Z.of_nat k) * round32 (1 / inject_Z (Z.of_nat n))).

(** The number of horizons on which prediction and truth agree. *)
Definition correctCount (ps ts : list Z) : nat :=
  length (filter (λ pt, pt.1 = pt.2) (zip ps ts)).

(** The reading of the specification for [rawPredictions]: the nested
    array holds the probabilities the predictor returned. *)
Definition returnsRawProbabilities (this : GRUModel.t) (X y : Tensor float)
    (syms : list string) (h : nat) : Prop :=
  ∀ r m N rest,
    GRUModel.evaluateTestSet this X y syms h = Ok r →
    GRUModel.model this = Some m → shape (m X) = N :: rest →
    map (map (map numberOf)) (GRUModel.predArr r)
    = array3 N (length syms) h (values (m X)).

(** A matrix matches the declared asset and horizon counts. *)
Definition shapeMatches {A} (x : Tensor A) (S h : nat) : Prop :=
  ∃ N, shape x = [N; S * h].

(** The reading of the specification for the failures of the evaluator:
    it succeeds exactly when the predicted and the truth matrix match the
    declared counts. *)
Definition failsOnlyOnShapeMismatch (this : GRUModel.t) (X y : Tensor float)
    (syms : list string) (h : nat) : Prop :=
  is_ok (GRUModel.evaluateTestSet this X y syms h) = true ↔
  (∀ m, GRUModel.model this = Some m → shapeMatches (m X) (length syms) h)
  ∧ shapeMatches y (length syms) h.

(** ** Further vocabulary *)

(** Two states of the object that agree on every field; the messages the
    logger has received may differ. *)
Definition sameData (a b : DataLoader.t) : Prop :=
  sequenceLength a = sequenceLength b
  ∧ forecastHorizon a = forecastHorizon b
  ∧ raw a = raw b ∧ symbols a = symbols b ∧ dates a = dates b
  ∧ perSymbolSeries a = perSymbolSeries b
  ∧ normalizers a = normalizers b
  ∧ dataset a = dataset b ∧ logger a = logger b.

(** The order of [sort()] without a comparator, on two different strings. *)
Definition ascending : relation string := λ a b, String.ltb a b = true.

(** No slot of the date axis is missing, for any symbol. *)
Definition complete (this : DataLoader.t) : Prop :=
  ∀ s k, s < length (symbols this) → k < length (dates this) →
         presentPair this s k.

(** A slot of a series holds a pair of prices, or the pair of NaN. *)
Definition slotPresent (v : Point) : Prop :=
  Number_isNaN (open v) = false ∧ Number_isNaN (close v) = false.

Definition slotMissing (v : Point) : Prop :=
  Number_isNaN (open v) = true ∧ Number_isNaN (close v) = true.

(** From [a] to [b] the logger is the same, the messages it has received
    are only added to, and without a logger none is recorded. *)
Definition logExtends (a b : DataLoader.t) : Prop :=
  logger b = logger a
  ∧ logged a `prefix_of` logged b
  ∧ (logger a = false → logged b = logged a).

(** The number of (sample, horizon) pairs of asset [s] on which two
    nested arrays of shape [[N][S][h]] agree. *)
Definition assetHits (predArr truthArr : list (list (list Z))) (s : nat)
    : nat :=
  sum_list (zip_with (λ prow trow,
                        correctCount (nth s prow []) (nth s trow []))
                     predArr truthArr).

(** * Properties *)

(** ** The error monad and loops over lists *)

Lemma bind_Ok {A B} (m : result A) (f : A → result B) (b : B) :
  m ≫= f = Ok b ↔ ∃ a, m = Ok a ∧ f a = Ok b.
Proof.
  destruct m as [a|e]; simpl; split.
  - intros H. exists a. auto.
  - intros (a' & Ha & Hf). congruence.
  - discriminate.
  - intros (a' & Ha & _). discriminate.
Qed.

Lemma bind_Ok_l {A B} (m : result A) (f : A → result B) (a : A) :
  m = Ok a → m ≫= f = f a.
Proof. by intros ->. Qed.

(** Run the binds of a hypothesis whose argument is already a value. *)
Ltac run_binds_in H :=
  repeat match type of H with
  | context [@mbind result _ _ _ ?f (Ok ?a)] =>
      change (@mbind result _ _ _ f (Ok a)) with (f a) in H; cbv beta in H
  end.

(** Run the binds of the goal whose argument is already a value. *)
Ltac run_binds :=
  repeat match goal with
  | |- context [@mbind result _ _ _ ?f (Ok ?a)] =>
      change (@mbind result _ _ _ f (Ok a)) with (f a); cbv beta
  end.

Section ResultLemmas.
Context {A B : Type}.

Lemma mapM_Ok_Forall2 (f : A → result B) (l : list A) (k : list B) :
  mapM f l = Ok k ↔ Forall2 (λ x y, f x = Ok y) l k.
Proof.
  revert k. induction l as [|x l IH]; intros k; simpl.
  - split.
    + intros H. injection H as <-. constructor.
    + intros H. inversion H. reflexivity.
  - split.
    + intros H. apply bind_Ok in H as (y & Hy & H).
      apply bind_Ok in H as (k' & Hk' & H). injection H as <-.
      constructor; [assumption | by apply IH].
    + intros H. inversion H as [|? y ? k' Hy Hk']; subst.
      apply IH in Hk'. rewrite (bind_Ok_l _ _ _ Hy).
      by rewrite (bind_Ok_l _ _ _ Hk').
Qed.

Lemma mapM_total (f : A → result B) (l : list A) :
  (∀ x, x ∈ l → ∃ y, f x = Ok y) → ∃ k, mapM f l = Ok k.
Proof.
  induction l as [|x l IH]; intros H.
  - by exists [].
  - destruct (H x) as [y Hy]; [by left|].
    destruct IH as [k Hk]; [intros z Hz; apply H; by right|].
    exists (y :: k). apply mapM_Ok_Forall2. constructor; [done|].
    by apply mapM_Ok_Forall2.
Qed.

End ResultLemmas.

(** ** The numeric built-ins on sample values *)

Example Math_round_ties_up :
  Math_round 2.5 = Some 3%Z ∧ Math_round (-2.5) = Some (-2)%Z
  ∧ Math_round 3 = Some 3%Z ∧ Math_round (-0.25) = Some 0%Z
  ∧ Math_round 0x1.fffffffffffffp-2 = Some 0%Z
  ∧ Math_round PrimFloat.nan = None.
Proof. repeat split; vm_compute; reflexivity. Qed.

Example toInt32_truncates :
  Tf.toInt32 1 = 1%Z ∧ Tf.toInt32 0 = 0%Z ∧ Tf.toInt32 2.75 = 2%Z
  ∧ Tf.toInt32 (-2.75) = (-2)%Z ∧ Tf.toInt32 PrimFloat.nan = 0%Z
  ∧ Tf.toInt32 4294967297 = 1%Z.
Proof. repeat split; vm_compute; reflexivity. Qed.

Example Math_min_max_sample :
  Math_min [3; 1; 2]%float = 1%float ∧ Math_max [3; 1; 2]%float = 3%float
  ∧ Math_min [] = PrimFloat.infinity.
Proof. repeat split; vm_compute; reflexivity. Qed.

(** ** The validity check of [prepareDataset] *)

Lemma Loaded_seriesAt this s :
  Loaded this → s < length (symbols this) →
  ∃ ser, seriesAt this s = Ok ser ∧ length ser = length (dates this).
Proof.
  intros HL Hs. destruct (lookup_lt_is_Some_2 _ _ Hs) as [sym Hsym].
  destruct (HL s sym Hsym) as [(ser & Hser & Hlen) _].
  exists ser. unfold seriesAt. by rewrite Hsym, Hser.
Qed.

Lemma Loaded_normalizerAt this s :
  Loaded this → s < length (symbols this) →
  ∃ n, normalizerAt this s = Ok n.
Proof.
  intros HL Hs. destruct (lookup_lt_is_Some_2 _ _ Hs) as [sym Hsym].
  destruct (HL s sym Hsym) as [_ [n Hn]].
  exists n. unfold normalizerAt. by rewrite Hsym, Hn.
Qed.

Lemma pointAt_Ok ser k v : pointAt ser k = Ok v ↔ ser !! k = Some v.
Proof.
  unfold pointAt. destruct (ser !! k); split; intros H; congruence.
Qed.

Lemma pointAt_total ser k : k < length ser → ∃ v, pointAt ser k = Ok v.
Proof.
  intros H. destruct (lookup_lt_is_Some_2 _ _ H) as [v Hv].
  exists v. by apply pointAt_Ok.
Qed.

Lemma windowBad_spec ser ts :
  (∀ k, k ∈ ts → k < length ser) →
  ∃ b, windowBad ser ts = Ok b
       ∧ (b = false ↔
          ∀ k, k ∈ ts → ∃ v, ser !! k = Some v
                 ∧ Number_isNaN (open v) = false
                 ∧ Number_isNaN (close v) = false).
Proof.
  induction ts as [|k ts IH]; intros Hin; simpl.
  - exists false. split; [done|]. split; [|done].
    intros _ k Hk. by apply elem_of_nil in Hk.
  - destruct (pointAt_total ser k) as [v Hv]; [apply Hin; by left|].
    rewrite (bind_Ok_l _ _ _ Hv). apply pointAt_Ok in Hv.
    destruct (Number_isNaN (open v) || Number_isNaN (close v)) eqn:Hnan.
    + exists true. split; [done|]. split; [done|].
      intros H. destruct (H k) as (v' & Hv' & Ho & Hc); [by left|].
      assert (v' = v) as -> by congruence.
      rewrite Ho, Hc in Hnan. discriminate.
    + destruct IH as (b & Hb & Hspec); [intros; apply Hin; by right|].
      exists b. split; [done|]. rewrite Hspec. split.
      * intros H k' Hk'. apply elem_of_cons in Hk' as [->|Hk']; [|by apply H].
        exists v. apply orb_false_iff in Hnan as [? ?]. done.
      * intros H k' Hk'. apply H. by right.
Qed.

Lemma futureBad_spec ser i os :
  futureBad ser i os = false ↔
  ∀ o, o ∈ os → ∃ v, ser !! (i + o) = Some v ∧ Number_isNaN (close v) = false.
Proof.
  induction os as [|o os IH]; simpl.
  - split; [|done]. intros _ o Ho. by apply elem_of_nil in Ho.
  - destruct (ser !! (i + o)) as [v|] eqn:Hv.
    + destruct (Number_isNaN (close v)) eqn:Hnan.
      * split; [done|]. intros H. destruct (H o) as (v' & Hv' & Hc); [by left|].
        congruence.
      * rewrite IH. split.
        -- intros H o' Ho'. apply elem_of_cons in Ho' as [->|Ho'];
             [by exists v | by apply H].
        -- intros H o' Ho'. apply H. by right.
    + split; [done|]. intros H. destruct (H o) as (v' & Hv' & _); [by left|].
      congruence.
Qed.

Lemma symbolsBad_spec this i ts os ss :
  (∀ s, s ∈ ss → ∃ ser, seriesAt this s = Ok ser
                        ∧ ∀ k, k ∈ ts → k < length ser) →
  ∃ b, symbolsBad this i ts os ss = Ok b
       ∧ (b = false ↔
          ∀ s, s ∈ ss →
            (∀ k, k ∈ ts → presentPair this s k)
            ∧ (∀ o, o ∈ os → presentClose this s (i + o))).
Proof.
  induction ss as [|s ss IH]; intros Hser; simpl.
  - exists false. split; [done|]. split; [|done].
    intros _ s Hs. by apply elem_of_nil in Hs.
  - destruct (Hser s) as (ser & Hs & Hlen); [by left|].
    rewrite (bind_Ok_l _ _ _ Hs).
    destruct (windowBad_spec ser ts Hlen) as (b1 & Hb1 & Hw).
    rewrite (bind_Ok_l _ _ _ Hb1).
    pose proof (futureBad_spec ser i os) as Hf.
    destruct (b1 || futureBad ser i os) eqn:Hor.
    + exists true. split; [done|]. split; [done|].
      intros H. destruct (H s) as [Hp Hc]; [by left|].
      apply orb_true_iff in Hor as [->|Hfb].
      * assert (true = false); [|done]. apply Hw. intros k Hk.
        destruct (Hp k Hk) as (ser' & v & Hs' & Hv & Ho & Hcl).
        assert (ser' = ser) as -> by congruence. by exists v.
      * rewrite Hfb in Hf. assert (true = false); [|done]. apply Hf.
        intros o Ho. destruct (Hc o Ho) as (ser' & v & Hs' & Hv & Hcl).
        assert (ser' = ser) as -> by congruence. by exists v.
    + apply orb_false_iff in Hor as [-> Hfb].
      destruct IH as (b & Hb & Hspec); [intros; apply Hser; by right|].
      exists b. split; [done|]. rewrite Hspec. split.
      * intros H s' Hs'. apply elem_of_cons in Hs' as [->|Hs']; [|by apply H].
        split.
        -- intros k Hk. destruct Hw as [Hw _].
           destruct (Hw eq_refl k Hk) as (v & ? & ? & ?). by exists ser, v.
        -- intros o Ho. destruct Hf as [Hf _].
           destruct (Hf Hfb o Ho) as (v & ? & ?). by exists ser, v.
      * intros H s' Hs'. apply H. by right.
Qed.

Lemma elem_of_windowRange this i k :
  (0 ≤ seqStart this i)%Z →
  k ∈ windowRange this i ↔ (seqStart this i ≤ Z.of_nat k)%Z ∧ k ≤ i.
Proof.
  intros H0. unfold windowRange. rewrite elem_of_seq.
  unfold seqStart in *. lia.
Qed.

Lemma elem_of_offsetRange this o :
  o ∈ offsetRange this ↔ 1 ≤ o ≤ forecastHorizon this.
Proof. unfold offsetRange. rewrite elem_of_seq. lia. Qed.

Lemma anchorOk_spec this i :
  Loaded this →
  ∃ b, anchorOk this i = Ok b ∧ (b = true ↔ validAnchor this i).
Proof.
  intros HL. unfold anchorOk, validAnchor.
  destruct (seqStart this i <? 0)%Z eqn:Hs.
  { exists false. split; [done|]. apply Z.ltb_lt in Hs. split; [done|].
    intros [? _]. lia. }
  apply Z.ltb_ge in Hs.
  destruct (Nat.leb (length (dates this)) (futureEnd this i)) eqn:Hf.
  { exists false. split; [done|]. apply Nat.leb_le in Hf.
    unfold futureEnd in Hf. split; [done|]. intros (_ & ? & _). lia. }
  apply Nat.leb_gt in Hf. unfold futureEnd in Hf.
  destruct (symbolsBad_spec this i (windowRange this i) (offsetRange this)
              (seq 0 (length (symbols this)))) as (b & Hb & Hspec).
  { intros s Hin. apply elem_of_seq in Hin.
    destruct (Loaded_seriesAt this s HL) as (ser & Hser & Hlen); [lia|].
    exists ser. split; [done|]. intros k Hk.
    apply elem_of_windowRange in Hk; [|done]. lia. }
  rewrite (bind_Ok_l _ _ _ Hb). exists (negb b). split; [done|].
  rewrite negb_true_iff, Hspec. split.
  - intros H. split; [done|]. split; [done|]. intros s Hlt.
    destruct (H s) as [Hp Hc]; [apply elem_of_seq; lia|]. split.
    + intros k ? ?. apply Hp. by apply elem_of_windowRange.
    + intros o Ho. apply Hc. by apply elem_of_offsetRange.
  - intros (_ & _ & H) s Hin. apply elem_of_seq in Hin.
    destruct (H s) as [Hp Hc]; [lia|]. split.
    + intros k Hk. apply elem_of_windowRange in Hk as [? ?]; [|done].
      by apply Hp.
    + intros o Ho. apply Hc. by apply elem_of_offsetRange.
Qed.

(** ** The sample built at a valid anchor *)

Lemma featurePair_total this k s :
  Loaded this → k < length (dates this) → s < length (symbols this) →
  ∃ p, featurePair this k s = Ok p.
Proof.
  intros HL Hk Hs. unfold featurePair.
  destruct (Loaded_seriesAt this s HL Hs) as (ser & Hser & Hlen).
  destruct (pointAt_total ser k) as [v Hv]; [lia|].
  destruct (Loaded_normalizerAt this s HL Hs) as [n Hn].
  rewrite (bind_Ok_l _ _ _ Hser), (bind_Ok_l _ _ _ Hv), (bind_Ok_l _ _ _ Hn).
  eauto.
Qed.

Lemma sampleInput_total this i :
  Loaded this → validAnchor this i → ∃ x, sampleInput this i = Ok x.
Proof.
  intros HL (H0 & HD & _). unfold sampleInput. apply mapM_total.
  intros k Hk. apply elem_of_windowRange in Hk as [_ Hk]; [|done].
  unfold featureRow.
  destruct (mapM_total (featurePair this k) (seq 0 (length (symbols this))))
    as [ps Hps].
  { intros s Hs. apply elem_of_seq in Hs.
    apply featurePair_total; [done|lia|lia]. }
  rewrite (bind_Ok_l _ _ _ Hps). eauto.
Qed.

Lemma symbolLabels_total this i s :
  Loaded this → i + forecastHorizon this < length (dates this) →
  s < length (symbols this) →
  ∃ l, symbolLabels this i s = Ok l.
Proof.
  intros HL HD Hs. unfold symbolLabels.
  destruct (Loaded_seriesAt this s HL Hs) as (ser & Hser & Hlen).
  destruct (pointAt_total ser i) as [vD HvD]; [lia|].
  rewrite (bind_Ok_l _ _ _ Hser), (bind_Ok_l _ _ _ HvD).
  apply mapM_total. intros o Ho. apply elem_of_offsetRange in Ho.
  destruct (pointAt_total ser (i + o)) as [v Hv]; [lia|].
  rewrite (bind_Ok_l _ _ _ Hv). eauto.
Qed.

Lemma sampleOutput_total this i :
  Loaded this → validAnchor this i → ∃ y, sampleOutput this i = Ok y.
Proof.
  intros HL (H0 & HD & _). unfold sampleOutput.
  destruct (mapM_total (symbolLabels this i) (seq 0 (length (symbols this))))
    as [ls Hls].
  { intros s Hs. apply elem_of_seq in Hs.
    apply symbolLabels_total; [done|done|lia]. }
  rewrite (bind_Ok_l _ _ _ Hls). eauto.
Qed.

Lemma isAnchor_spec this i :
  Loaded this → isAnchor this i = true ↔ validAnchor this i.
Proof.
  intros HL. destruct (anchorOk_spec this i HL) as (b & Hb & Hspec).
  unfold isAnchor. rewrite Hb, <- Hspec. by destruct b.
Qed.

Lemma sampleAt_total this i :
  Loaded this → ∃ r, sampleAt this i = Ok r.
Proof.
  intros HL. destruct (anchorOk_spec this i HL) as (b & Hb & Hspec).
  unfold sampleAt. rewrite (bind_Ok_l _ _ _ Hb). destruct b; [|eauto].
  assert (validAnchor this i) as Hv by by apply Hspec.
  destruct (sampleInput_total this i HL Hv) as [x Hx].
  destruct (sampleOutput_total this i HL Hv) as [y Hy].
  rewrite (bind_Ok_l _ _ _ Hx), (bind_Ok_l _ _ _ Hy). eauto.
Qed.

Lemma sampleAt_Some this i x :
  sampleAt this i = Ok (Some x) →
  isAnchor this i = true ∧ anchor x = i
  ∧ sampleInput this i = Ok (input x) ∧ sampleOutput this i = Ok (output x)
  ∧ anchorDate x = default EmptyString (dates this !! i).
Proof.
  unfold sampleAt, isAnchor. intros H.
  apply bind_Ok in H as (b & Hb & H). rewrite Hb. destruct b; [|done].
  apply bind_Ok in H as (xi & Hxi & H).
  apply bind_Ok in H as (yo & Hyo & H). injection H as <-. done.
Qed.

Lemma sampleAt_None this i :
  sampleAt this i = Ok None → isAnchor this i = false.
Proof.
  unfold sampleAt, isAnchor. intros H.
  apply bind_Ok in H as (b & Hb & H). rewrite Hb. destruct b; [|done].
  apply bind_Ok in H as (xi & Hxi & H).
  apply bind_Ok in H as (yo & Hyo & H). discriminate.
Qed.

Lemma collect_anchors this l (rs : list (option Sample)) :
  mapM (sampleAt this) l = Ok rs →
  map anchor (omap id rs) = filter (λ i, isAnchor this i = true) l.
Proof.
  intros H. apply mapM_Ok_Forall2 in H.
  induction H as [|i r l rs Hr _ IH]; [done|].
  destruct r as [x|].
  - apply sampleAt_Some in Hr as (Ha & Hi & _).
    rewrite filter_cons_True by done.
    change (omap id (Some x :: rs)) with (x :: omap id rs).
    rewrite map_cons. by rewrite Hi, IH.
  - apply sampleAt_None in Hr.
    change (omap id (None :: rs)) with (omap id rs).
    rewrite filter_cons_False; [done|]. by rewrite Hr.
Qed.

Lemma collect_elem this l (rs : list (option Sample)) x :
  mapM (sampleAt this) l = Ok rs →
  x ∈ omap id rs → ∃ i, i ∈ l ∧ sampleAt this i = Ok (Some x).
Proof.
  intros H. apply mapM_Ok_Forall2 in H.
  induction H as [|i r l rs Hr _ IH].
  - intros Hx. by apply elem_of_nil in Hx.
  - destruct r as [x'|].
    + change (omap id (Some x' :: rs)) with (x' :: omap id rs).
      intros Hx. apply elem_of_cons in Hx as [->|Hx].
      * exists i. split; [by left|done].
      * destruct (IH Hx) as (j & ? & ?). exists j. split; [by right|done].
    + change (omap id (None :: rs)) with (omap id rs).
      intros Hx. destruct (IH Hx) as (j & ? & ?).
      exists j. split; [by right|done].
Qed.

Lemma collectSamples_Ok this smp :
  collectSamples this = Ok smp ↔
  ∃ rs, mapM (sampleAt this) (seq 0 (length (dates this))) = Ok rs
        ∧ smp = omap id rs.
Proof.
  unfold collectSamples. rewrite bind_Ok. split.
  - intros (rs & Hrs & H). injection H as <-. eauto.
  - intros (rs & Hrs & ->). eauto.
Qed.

Lemma collectSamples_total this :
  Loaded this → ∃ smp, collectSamples this = Ok smp.
Proof.
  intros HL.
  destruct (mapM_total (sampleAt this) (seq 0 (length (dates this))))
    as [rs Hrs].
  { intros i _. by apply sampleAt_total. }
  exists (omap id rs). apply collectSamples_Ok. eauto.
Qed.

Lemma collectSamples_anchors this smp :
  collectSamples this = Ok smp →
  map anchor smp
  = filter (λ i, isAnchor this i = true) (seq 0 (length (dates this))).
Proof.
  intros H. apply collectSamples_Ok in H as (rs & Hrs & ->).
  by apply collect_anchors.
Qed.

(** C2. An anchor index is emitted exactly when the window fits on the
    date axis ([i - L + 1 >= 0] and [i + h < D]) and, for every asset, every
    window position holds a present (open, close) pair and every one of the
    [h] future positions holds a present close. In particular an emitted
    sample touches no missing slot. *)
Theorem C2_anchor_emitted_iff_valid (this : DataLoader.t) :
  Loaded this →
  ∃ smp, collectSamples this = Ok smp
         ∧ ∀ i, i ∈ map anchor smp ↔ validAnchor this i.
Proof.
  intros HL. destruct (collectSamples_total this HL) as [smp Hsmp].
  exists smp. split; [done|]. intros i.
  rewrite (collectSamples_anchors this smp Hsmp), list_elem_of_filter.
  rewrite (isAnchor_spec this i HL), elem_of_seq. split.
  - by intros [? _].
  - intros Hv. split; [done|]. destruct Hv as (_ & ? & _). lia.
Qed.

(** ** What [loadFromCSVText] leaves in the object *)

Lemma log_fields m this :
  sequenceLength (log m this) = sequenceLength this
  ∧ forecastHorizon (log m this) = forecastHorizon this
  ∧ raw (log m this) = raw this
  ∧ symbols (log m this) = symbols this
  ∧ dates (log m this) = dates this
  ∧ perSymbolSeries (log m this) = perSymbolSeries this
  ∧ normalizers (log m this) = normalizers this
  ∧ logger (log m this) = logger this.
Proof. unfold log. destruct (logger this) eqn:E; simpl; by rewrite ?E. Qed.

Lemma symbols_log m this : symbols (log m this) = symbols this.
Proof. apply log_fields. Qed.
Lemma dates_log m this : dates (log m this) = dates this.
Proof. apply log_fields. Qed.
Lemma perSymbolSeries_log m this :
  perSymbolSeries (log m this) = perSymbolSeries this.
Proof. apply log_fields. Qed.
Lemma normalizers_log m this : normalizers (log m this) = normalizers this.
Proof. apply log_fields. Qed.
Lemma raw_log m this : raw (log m this) = raw this.
Proof. apply log_fields. Qed.
Lemma sequenceLength_log m this :
  sequenceLength (log m this) = sequenceLength this.
Proof. apply log_fields. Qed.
Lemma forecastHorizon_log m this :
  forecastHorizon (log m this) = forecastHorizon this.
Proof. apply log_fields. Qed.
Lemma logger_log m this : logger (log m this) = logger this.
Proof. apply log_fields. Qed.

Create Rewrite HintDb loader_fields.
#[local] Hint Rewrite symbols_log dates_log perSymbolSeries_log normalizers_log
  raw_log sequenceLength_log forecastHorizon_log logger_log : loader_fields.

Lemma logged_log m this :
  logged (log m this) = if logger this then logged this ++ [m] else logged this.
Proof. unfold log. by destruct (logger this). Qed.

Lemma fold_insert_lookup {V} (f : string → V) (syms : list string)
    (m : gmap string V) (sym : string) :
  fold_left (λ m sym, <[sym := f sym]> m) syms m !! sym
  = if bool_decide (sym ∈ syms) then Some (f sym) else m !! sym.
Proof.
  revert m. induction syms as [|a syms IH]; intros m; simpl.
  - done.
  - rewrite IH. destruct (decide (sym ∈ syms)) as [Hin|Hin].
    + rewrite !bool_decide_eq_true_2; [done| by right | done].
    + rewrite (bool_decide_eq_false_2 _ Hin).
      destruct (decide (sym = a)) as [->|Hne].
      * rewrite bool_decide_eq_true_2 by by left. by rewrite lookup_insert_eq.
      * rewrite bool_decide_eq_false_2.
        -- by rewrite lookup_insert_ne.
        -- intros Hc. apply elem_of_cons in Hc as [?|?]; done.
Qed.

Lemma buildSeries_lookup lookup syms ds sym :
  sym ∈ syms → buildSeries lookup syms ds !! sym = Some (seriesOf lookup ds sym).
Proof.
  intros Hin. unfold buildSeries.
  rewrite (fold_insert_lookup (seriesOf lookup ds)).
  by rewrite bool_decide_eq_true_2.
Qed.

Lemma buildNormalizers_lookup pss syms sym :
  sym ∈ syms →
  buildNormalizers pss syms !! sym
  = Some (normalizerOf (default [] (pss !! sym))).
Proof.
  intros Hin. unfold buildNormalizers.
  rewrite (fold_insert_lookup (λ sym, normalizerOf (default [] (pss !! sym)))).
  by rewrite bool_decide_eq_true_2.
Qed.

Lemma length_seriesOf lookup ds sym : length (seriesOf lookup ds sym) = length ds.
Proof. unfold seriesOf. by rewrite length_map. Qed.

Section LoadFacts.
Variable Date_parse : string → option Z.
Variable toISOString : Z → string.

Local Abbreviation rowsOf := (loadedRows Date_parse toISOString).
Local Abbreviation symbolsOf := (loadedSymbols Date_parse toISOString).
Local Abbreviation datesOf := (loadedDates Date_parse toISOString).

Lemma loadFromCSVText_Ok this parsed this' r :
  loadFromCSVText Date_parse toISOString this parsed = (this', Ok r) →
  rowsOf parsed ≠ []
  ∧ r = (symbolsOf parsed, datesOf parsed)
  ∧ symbols this' = symbolsOf parsed
  ∧ dates this' = datesOf parsed
  ∧ perSymbolSeries this'
    = buildSeries (buildLookup (rowsOf parsed))
        (symbolsOf parsed) (datesOf parsed)
  ∧ normalizers this'
    = buildNormalizers (perSymbolSeries this') (symbolsOf parsed)
  ∧ raw this' = Some (mkRaw (rowsOf parsed) (length (rowsOf parsed)))
  ∧ sequenceLength this' = sequenceLength this
  ∧ forecastHorizon this' = forecastHorizon this.
Proof.
  unfold loadFromCSVText, loadedSymbols, loadedDates, loadedRows.
  destruct (filter (λ r, validRow r = true) (data parsed)) as [|r0 rs] eqn:Hf.
  { intros H. injection H as _ H. discriminate. }
  intros H. injection H as <- <-.
  destruct (errors parsed); destruct (negb _);
    autorewrite with loader_fields; cbn [symbols dates perSymbolSeries
      normalizers raw sequenceLength forecastHorizon set_loaded];
    autorewrite with loader_fields; repeat split; try done;
    unfold set_loaded; cbn [sequenceLength forecastHorizon];
    by autorewrite with loader_fields.
Qed.

Lemma loadFromCSVText_Loaded this parsed this' r :
  loadFromCSVText Date_parse toISOString this parsed = (this', Ok r) →
  Loaded this'.
Proof.
  intros H. apply loadFromCSVText_Ok in H
    as (_ & _ & Hsym & Hds & Hpss & Hns & _).
  intros s sym Hs.
  assert (sym ∈ symbolsOf parsed) as Hin.
  { rewrite <- Hsym. by eapply list_elem_of_lookup_2. }
  split.
  - exists (seriesOf (buildLookup (rowsOf parsed)) (datesOf parsed) sym).
    rewrite Hpss, Hds. split; [by apply buildSeries_lookup|].
    apply length_seriesOf.
  - rewrite Hns. rewrite buildNormalizers_lookup by done. eauto.
Qed.

End LoadFacts.

(** ** Labels *)

(** Two Numbers that are [===] are not in the relation [<]. *)
Lemma strict_eq_not_gt (a b : float) :
  strict_eq a b = true → gt b a = false.
Proof.
  unfold strict_eq, gt. rewrite FloatAxioms.eqb_spec, FloatAxioms.ltb_spec.
  unfold SFeqb, SFltb. by destruct (SFcompare _ _) as [[]|].
Qed.

Lemma concat_lookup_uniform {A} (h : nat) (ls : list (list A)) (s j : nat)
    (l : list A) :
  Forall (λ l, length l = h) ls → ls !! s = Some l → j < h →
  concat ls !! (s * h + j) = l !! j.
Proof.
  intros Hall. revert s. induction Hall as [|l0 ls Hl0 _ IH]; intros s Hs Hj.
  - done.
  - destruct s as [|s]; simpl in *.
    + injection Hs as ->. rewrite lookup_app_l by lia. done.
    + rewrite lookup_app_r by lia.
      replace (h + s * h + j - length l0) with (s * h + j) by lia.
      by apply IH.
Qed.

Lemma length_concat_uniform {A} (h : nat) (ls : list (list A)) :
  Forall (λ l, length l = h) ls → length (concat ls) = length ls * h.
Proof.
  induction 1 as [|l ls Hl _ IH]; simpl; [done|].
  rewrite length_app. lia.
Qed.

Lemma symbolLabels_spec this i s l :
  symbolLabels this i s = Ok l →
  ∃ ser vD, seriesAt this s = Ok ser ∧ ser !! i = Some vD
    ∧ length l = forecastHorizon this
    ∧ ∀ o, 1 ≤ o ≤ forecastHorizon this →
        ∃ v, ser !! (i + o) = Some v
             ∧ l !! (o - 1)
               = Some (if gt (close v) (close vD) then 1%float else 0%float).
Proof.
  unfold symbolLabels. intros H.
  apply bind_Ok in H as (ser & Hser & H).
  apply bind_Ok in H as (vD & HvD & H). apply pointAt_Ok in HvD.
  apply mapM_Ok_Forall2 in H. exists ser, vD.
  split; [done|]. split; [done|]. split.
  - apply Forall2_length in H. unfold offsetRange in H.
    by rewrite length_seq in H.
  - intros o Ho.
    assert (offsetRange this !! (o - 1) = Some o) as Hlk.
    { unfold offsetRange. rewrite lookup_seq. lia. }
    destruct (Forall2_lookup_l _ _ _ _ _ H Hlk) as (y & Hy & Hf).
    apply bind_Ok in Hf as (v & Hv & Hf). apply pointAt_Ok in Hv.
    injection Hf as <-. by exists v.
Qed.

Lemma sampleOutput_spec this i y :
  sampleOutput this i = Ok y →
  length y = length (symbols this) * forecastHorizon this
  ∧ ∀ s o, s < length (symbols this) → 1 ≤ o ≤ forecastHorizon this →
      ∃ ser vD v, seriesAt this s = Ok ser ∧ ser !! i = Some vD
        ∧ ser !! (i + o) = Some v
        ∧ y !! (s * forecastHorizon this + (o - 1))
          = Some (if gt (close v) (close vD) then 1%float else 0%float).
Proof.
  unfold sampleOutput. intros H.
  apply bind_Ok in H as (ls & Hls & H). injection H as <-.
  apply mapM_Ok_Forall2 in Hls.
  assert (Forall (λ l, length l = forecastHorizon this) ls) as Hall.
  { apply list.Forall_forall. intros l Hl.
    apply list_elem_of_lookup in Hl as [k Hk].
    destruct (Forall2_lookup_r _ _ _ _ _ Hls Hk) as (s & _ & Hs).
    by apply symbolLabels_spec in Hs as (? & ? & _ & _ & ? & _). }
  split.
  - rewrite (length_concat_uniform _ _ Hall).
    apply Forall2_length in Hls. rewrite length_seq in Hls. by rewrite <- Hls.
  - intros s o Hs Ho.
    assert (seq 0 (length (symbols this)) !! s = Some s) as Hlk.
    { rewrite lookup_seq. lia. }
    destruct (Forall2_lookup_l _ _ _ _ _ Hls Hlk) as (l & Hl & Hf).
    apply symbolLabels_spec in Hf as (ser & vD & Hser & HvD & _ & Hlab).
    destruct (Hlab o Ho) as (v & Hv & Hlo).
    exists ser, vD, v. repeat split; try done.
    rewrite (concat_lookup_uniform _ _ _ _ l Hall Hl) by lia. done.
Qed.

Lemma collectSamples_elem this smp x :
  collectSamples this = Ok smp → x ∈ smp →
  sampleAt this (anchor x) = Ok (Some x)
  ∧ anchor x < length (dates this).
Proof.
  intros H Hx. apply collectSamples_Ok in H as (rs & Hrs & ->).
  destruct (collect_elem this _ rs x Hrs Hx) as (i & Hi & Hat).
  pose proof (sampleAt_Some this i x Hat) as (_ & Ha & _). subst i.
  split; [done|]. apply elem_of_seq in Hi. lia.
Qed.

(** C1. In every emitted sample, the label of asset [s] and offset [o]
    stands at position [s*h + (o-1)] (asset-major, offset-minor) and is 1
    when the close at [i+o] is strictly greater than the close at the anchor
    [i], and 0 otherwise; in particular two equal closes give 0. *)
Theorem C1_label_is_strict_rise (this : DataLoader.t) (smp : list Sample)
    (x : Sample) (s o : nat) (ser : list Point) (vD vF : Point) :
  collectSamples this = Ok smp → x ∈ smp →
  s < length (symbols this) → 1 ≤ o ≤ forecastHorizon this →
  seriesAt this s = Ok ser →
  ser !! anchor x = Some vD → ser !! (anchor x + o) = Some vF →
  length (output x) = length (symbols this) * forecastHorizon this
  ∧ output x !! (s * forecastHorizon this + (o - 1))
    = Some (if gt (close vF) (close vD) then 1%float else 0%float)
  ∧ (strict_eq (close vD) (close vF) = true →
     output x !! (s * forecastHorizon this + (o - 1)) = Some 0%float).
Proof.
  intros Hc Hx Hs Ho Hser HvD HvF.
  destruct (collectSamples_elem this smp x Hc Hx) as [Hat _].
  apply sampleAt_Some in Hat as (_ & _ & _ & Hout & _).
  apply sampleOutput_spec in Hout as [Hlen Hlab].
  destruct (Hlab s o Hs Ho) as (ser' & vD' & v' & Hser' & HvD' & Hv' & Hy).
  assert (ser' = ser) as -> by congruence.
  assert (vD' = vD) as -> by congruence.
  assert (v' = vF) as -> by congruence.
  split; [done|]. split; [done|].
  intros Heq. rewrite Hy. by rewrite (strict_eq_not_gt _ _ Heq).
Qed.

(** ** The chronological split *)

Lemma tf_slice_Ok {A} (b n : Z) (xs : list A) :
  (0 ≤ b)%Z → (0 ≤ n)%Z → (b + n ≤ Z.of_nat (length xs))%Z →
  tf_slice b n xs = Ok (take (Z.to_nat n) (drop (Z.to_nat b) xs)).
Proof.
  intros Hb Hn Hlen. unfold tf_slice.
  destruct (Z.leb_spec 0 b); [|lia]. destruct (Z.leb_spec 0 n); [|lia].
  destruct (Z.leb_spec (b + n) (Z.of_nat (length xs))); [|lia]. done.
Qed.

Lemma tf_slice_head {A} (c : Z) (xs : list A) :
  (0 ≤ c ≤ Z.of_nat (length xs))%Z →
  tf_slice 0 c xs = Ok (take (Z.to_nat c) xs).
Proof. intros H. rewrite tf_slice_Ok by lia. done. Qed.

Lemma tf_slice_tail {A} (c : Z) (n : nat) (xs : list A) :
  length xs = n → (0 ≤ c ≤ Z.of_nat n)%Z →
  tf_slice c (Z.of_nat n - c) xs = Ok (drop (Z.to_nat c) xs).
Proof.
  intros <- H. rewrite tf_slice_Ok by lia. f_equal.
  apply take_ge. rewrite length_drop. lia.
Qed.

Lemma sublist_StronglySorted {A} (R : relation A) (l1 l2 : list A) :
  l1 `sublist_of` l2 → StronglySorted R l2 → StronglySorted R l1.
Proof.
  induction 1 as [|x l1 l2 Hsub IH|x l1 l2 Hsub IH]; intros Hs.
  - constructor.
  - apply StronglySorted_cons in Hs as [Hall Hs].
    apply StronglySorted_cons. split; [|by apply IH].
    apply list.Forall_forall. intros y Hy.
    eapply list.Forall_forall; [exact Hall|]. by eapply elem_of_sublist.
  - apply StronglySorted_cons in Hs as [_ Hs]. by apply IH.
Qed.

Lemma dates_by_index (ds : list string) :
  map (λ i, default EmptyString (ds !! i)) (seq 0 (length ds)) = ds.
Proof.
  apply list_eq. intros i. rewrite list_lookup_fmap.
  destruct (ds !! i) as [d|] eqn:Hd.
  - rewrite lookup_seq_lt by by eapply lookup_lt_Some. simpl. by rewrite Hd.
  - rewrite lookup_seq_ge by by apply lookup_ge_None. done.
Qed.

Lemma collect_dates_sublist this l (rs : list (option Sample)) :
  mapM (sampleAt this) l = Ok rs →
  map anchorDate (omap id rs)
    `sublist_of` map (λ i, default EmptyString (dates this !! i)) l.
Proof.
  intros H. apply mapM_Ok_Forall2 in H.
  induction H as [|i r l rs Hr _ IH]; [constructor|].
  destruct r as [x|].
  - apply sampleAt_Some in Hr as (_ & _ & _ & _ & Hd).
    change (omap id (Some x :: rs)) with (x :: omap id rs).
    rewrite !map_cons, Hd. by constructor.
  - change (omap id (None :: rs)) with (omap id rs).
    rewrite map_cons. by constructor.
Qed.

(** The anchor dates come in the order of the date axis. *)
Lemma sampleDates_sublist this smp :
  collectSamples this = Ok smp →
  map anchorDate smp `sublist_of` dates this.
Proof.
  intros H. apply collectSamples_Ok in H as (rs & Hrs & ->).
  rewrite <- (dates_by_index (dates this)) at 1.
  by apply collect_dates_sublist.
Qed.

Lemma isAnchor_seqStart this i :
  isAnchor this i = true → sequenceLength this ≤ i + 1.
Proof.
  unfold isAnchor, anchorOk, seqStart.
  destruct (Z.ltb_spec (Z.of_nat i - Z.of_nat (sequenceLength this) + 1) 0);
    [done|]. intros _. lia.
Qed.

(** ** Rationals: powers of two and the float32 grid *)

Lemma pow2_pos (e : Z) : (0 < pow2 e)%Q.
Proof. apply Qpower_0_lt. reflexivity. Qed.

Lemma pow2_add (a b : Z) : (pow2 (a + b) == pow2 a * pow2 b)%Q.
Proof. apply Qpower_plus. discriminate. Qed.

Lemma pow2_sub (a b : Z) : (pow2 (a - b) == pow2 a / pow2 b)%Q.
Proof. apply Qpower_minus. discriminate. Qed.

Lemma pow2_nonneg (e : Z) : (0 <= e)%Z → (pow2 e == inject_Z (2 ^ e))%Q.
Proof. intros H. unfold pow2. by rewrite (Zpower_Qpower 2 e H). Qed.

Lemma pow2_le (a b : Z) : (a <= b)%Z → (pow2 a <= pow2 b)%Q.
Proof.
  intros H. replace b with (a + (b - a))%Z by lia. rewrite pow2_add.
  assert (1 <= pow2 (b - a))%Q as H1.
  { rewrite pow2_nonneg by lia. change 1%Q with (inject_Z 1).
    rewrite <- Zle_Qle. pose proof (Z.pow_pos_nonneg 2 (b - a)). lia. }
  pose proof (pow2_pos a). nra.
Qed.

Lemma pow2_succ (a : Z) : (pow2 (a + 1) == 2 * pow2 a)%Q.
Proof. rewrite pow2_add. change (pow2 1) with 2%Q. ring. Qed.

Lemma Qfrac_lt (a b A B : Z) :
  (0 < b)%Z → (0 < B)%Z → (a * B < A * b)%Z →
  (inject_Z a / inject_Z b < inject_Z A / inject_Z B)%Q.
Proof.
  intros Hb HB H.
  assert (0 < inject_Z b)%Q by (change 0%Q with (inject_Z 0); by rewrite <- Zlt_Qlt).
  assert (0 < inject_Z B)%Q by (change 0%Q with (inject_Z 0); by rewrite <- Zlt_Qlt).
  apply Qlt_shift_div_r; [done|].
  assert (inject_Z A / inject_Z B * inject_Z b
          == inject_Z A * inject_Z b / inject_Z B)%Q as -> by (field; lra).
  apply Qlt_shift_div_l; [done|].
  rewrite <- !inject_Z_mult. by rewrite <- Zlt_Qlt.
Qed.

Lemma Qfrac_le (a b A B : Z) :
  (0 < b)%Z → (0 < B)%Z → (a * B <= A * b)%Z →
  (inject_Z a / inject_Z b <= inject_Z A / inject_Z B)%Q.
Proof.
  intros Hb HB H.
  assert (0 < inject_Z b)%Q by (change 0%Q with (inject_Z 0); by rewrite <- Zlt_Qlt).
  assert (0 < inject_Z B)%Q by (change 0%Q with (inject_Z 0); by rewrite <- Zlt_Qlt).
  apply Qle_shift_div_r; [done|].
  assert (inject_Z A / inject_Z B * inject_Z b
          == inject_Z A * inject_Z b / inject_Z B)%Q as -> by (field; lra).
  apply Qle_shift_div_l; [done|].
  rewrite <- !inject_Z_mult. by rewrite <- Zle_Qle.
Qed.

Lemma log2Q_spec (q : Q) :
  (0 < q)%Q → (pow2 (log2Q q) <= q)%Q ∧ (q < pow2 (log2Q q + 1))%Q.
Proof.
  intros Hq. destruct q as [a b].
  assert (0 < a)%Z as Ha by (unfold Qlt in Hq; simpl in Hq; lia).
  unfold log2Q. cbn [Qnum Qden].
  set (la := Z.log2 a). set (lb := Z.log2 (Z.pos b)).
  pose proof (Z.log2_spec a Ha) as [Ha1 Ha2]. fold la in Ha1, Ha2.
  pose proof (Z.log2_spec (Z.pos b) eq_refl) as [Hb1 Hb2]. fold lb in Hb1, Hb2.
  pose proof (Z.log2_nonneg a) as Hla. fold la in Hla.
  pose proof (Z.log2_nonneg (Z.pos b)) as Hlb. fold lb in Hlb.
  assert (0 < 2 ^ la)%Z by (apply Z.pow_pos_nonneg; lia).
  assert (0 < 2 ^ lb)%Z by (apply Z.pow_pos_nonneg; lia).
  assert (Hqd : (a # b == inject_Z a / inject_Z (Z.pos b))%Q)
    by apply Qmake_Qdiv.
  assert (Hup : (a # b < pow2 (la - lb + 1))%Q).
  { replace (la - lb + 1)%Z with ((la + 1) - lb)%Z by lia.
    rewrite pow2_sub, !pow2_nonneg by lia. rewrite Hqd.
    apply Qfrac_lt; [done|done|]. change (la + 1)%Z with (Z.succ la).
    apply Z.le_lt_trans with (a * Z.pos b)%Z.
    - apply Z.mul_le_mono_nonneg_l; lia.
    - apply Z.mul_lt_mono_pos_r; lia. }
  assert (Hlo : (pow2 (la - lb - 1) < a # b)%Q).
  { replace (la - lb - 1)%Z with (la - (lb + 1))%Z by lia.
    rewrite pow2_sub, !pow2_nonneg by lia. rewrite Hqd.
    apply Qfrac_lt; [|done|].
    - apply Z.pow_pos_nonneg; lia.
    - change (lb + 1)%Z with (Z.succ lb).
      apply Z.le_lt_trans with (a * Z.pos b)%Z.
      + apply Z.mul_le_mono_nonneg_r; lia.
      + apply Z.mul_lt_mono_pos_l; lia. }
  destruct (Qle_bool (pow2 (la - lb)) (a # b)) eqn:E.
  - apply Qle_bool_iff in E. by split.
  - split; [apply Qlt_le_weak; exact Hlo|].
    replace (la - lb - 1 + 1)%Z with (la - lb)%Z by lia.
    apply Qnot_le_lt. intros Hc. apply Qle_bool_iff in Hc. congruence.
Qed.

Lemma log2Q_unique (q : Q) (l : Z) :
  (pow2 l <= q)%Q → (q < pow2 (l + 1))%Q → log2Q q = l.
Proof.
  intros H1 H2.
  assert (0 < q)%Q as Hq by (pose proof (pow2_pos l); lra).
  destruct (log2Q_spec q Hq) as [H3 H4].
  destruct (Z.lt_trichotomy (log2Q q) l) as [Hlt|[Heq|Hgt]]; [|done|].
  - pose proof (pow2_le (log2Q q + 1) l ltac:(lia)). lra.
  - pose proof (pow2_le (l + 1) (log2Q q) ltac:(lia)). lra.
Qed.

Lemma roundEven_spec (x : Q) :
  (inject_Z (roundEven x) - x <= 1 # 2)%Q
  ∧ (x - inject_Z (roundEven x) <= 1 # 2)%Q.
Proof.
  unfold roundEven. pose proof (Qfloor_le x) as H1.
  pose proof (Qlt_floor x) as H2. rewrite inject_Z_plus in H2.
  change (inject_Z 1) with 1%Q in H2.
  destruct (Qcompare_spec (x - inject_Z (Qfloor x)) (1 # 2)) as [E|E|E].
  - destruct (Z.even _); [|rewrite inject_Z_plus; change (inject_Z 1) with 1%Q];
      split; lra.
  - split; lra.
  - rewrite inject_Z_plus. change (inject_Z 1) with 1%Q. split; lra.
Qed.

Lemma roundEven_Z (z : Z) : roundEven (inject_Z z) = z.
Proof.
  unfold roundEven. rewrite Qfloor_Z.
  destruct (Qcompare_spec (inject_Z z - inject_Z z) (1 # 2)) as [E|E|E].
  - lra.
  - done.
  - lra.
Qed.

Lemma roundEven_comp (x y : Q) : (x == y)%Q → roundEven x = roundEven y.
Proof.
  intros H. unfold roundEven. rewrite (Qfloor_comp _ _ H).
  assert ((x - inject_Z (Qfloor y) ?= 1 # 2) = (y - inject_Z (Qfloor y) ?= 1 # 2))%Q
    as -> by (by rewrite H). done.
Qed.

Lemma log2Q_comp (x y : Q) : (0 < x)%Q → (x == y)%Q → log2Q x = log2Q y.
Proof.
  intros Hx H. apply log2Q_unique.
  - rewrite H. apply log2Q_spec. by rewrite <- H.
  - rewrite H. apply log2Q_spec. by rewrite <- H.
Qed.

#[local] Instance round32_comp : Proper (Qeq ==> Qeq) round32.
Proof.
  intros x y H. unfold round32, quantum32.
  assert ((x ?= 0) = (y ?= 0))%Q as -> by (by rewrite H).
  destruct (Qcompare_spec y 0) as [E|E|E]; [done| |].
  - assert (log2Q (- x) = log2Q (- y)) as ->
      by (apply log2Q_comp; [rewrite H; lra|by rewrite H]).
    rewrite (roundEven_comp (- x / _) (- y / pow2 (Z.max (log2Q (- y) - 23) (-149)))); [done|].
    by rewrite H.
  - assert (log2Q x = log2Q y) as ->
      by (apply log2Q_comp; [rewrite H; lra|done]).
    rewrite (roundEven_comp (x / _) (y / pow2 (Z.max (log2Q y - 23) (-149)))); [done|].
    by rewrite H.
Qed.

Lemma round32_0 : round32 0 = 0%Q.
Proof. reflexivity. Qed.

(** The relative error of a rounding in the normal range. *)
Lemma round32_error (q : Q) :
  (pow2 (-126) <= q)%Q →
  (round32 q - q <= q * (1 # 16777216))%Q
  ∧ (q - round32 q <= q * (1 # 16777216))%Q.
Proof.
  intros Hq.
  assert (0 < q)%Q as Hpos by (pose proof (pow2_pos (-126)); lra).
  destruct (log2Q_spec q Hpos) as [Hl1 Hl2].
  assert (-126 <= log2Q q)%Z as Hl.
  { destruct (Z.le_gt_cases (-126) (log2Q q)) as [?|Hc]; [done|].
    pose proof (pow2_le (log2Q q + 1) (-126) ltac:(lia)). lra. }
  unfold round32. destruct (Qcompare_spec q 0) as [E|E|E]; [lra|lra|].
  unfold quantum32. rewrite Z.max_l by lia.
  set (e := (log2Q q - 23)%Z).
  pose proof (pow2_pos e) as He.
  destruct (roundEven_spec (q / pow2 e)) as [H1 H2].
  set (m := inject_Z (roundEven (q / pow2 e))) in *.
  assert (q == (q / pow2 e) * pow2 e)%Q as Hqe by (field; lra).
  assert (pow2 (log2Q q) == pow2 e * inject_Z (2 ^ 23))%Q as Hpe.
  { replace (log2Q q) with (e + 23)%Z at 1 by (unfold e; lia).
    rewrite pow2_add, (pow2_nonneg 23) by lia. done. }
  change (inject_Z (2 ^ 23)) with (8388608 # 1)%Q in Hpe.
  set (x := (q / pow2 e)%Q) in *.
  assert (8388608 # 1 <= x)%Q as Hx.
  { unfold x. apply Qle_shift_div_l; [done|]. lra. }
  assert ((m - x) * pow2 e <= (1 # 2) * pow2 e)%Q as A1 by nra.
  assert ((x - m) * pow2 e <= (1 # 2) * pow2 e)%Q as A2 by nra.
  assert ((1 # 2) * pow2 e <= x * pow2 e * (1 # 16777216))%Q as A3 by nra.
  split; lra.
Qed.

Lemma round32_nonneg (q : Q) : (0 <= q)%Q → (0 <= round32 q)%Q.
Proof.
  intros Hq. unfold round32. destruct (Qcompare_spec q 0) as [E|E|E]; [lra|lra|].
  pose proof (pow2_pos (quantum32 q)) as He.
  destruct (roundEven_spec (q / pow2 (quantum32 q))) as [H1 H2].
  assert (0 <= q / pow2 (quantum32 q))%Q as Hx
    by (apply Qle_shift_div_l; [done|]; lra).
  assert (0 <= roundEven (q / pow2 (quantum32 q)))%Z as Hm.
  { unfold roundEven.
    pose proof (Qfloor_resp_le _ _ Hx) as Hf. change (Qfloor 0) with 0%Z in Hf.
    destruct (_ ?= _)%Q; [destruct (Z.even _)| |]; lia. }
  rewrite Zle_Qle in Hm. change (inject_Z 0) with 0%Q in Hm. nra.
Qed.

(** Integers below [2^24] are float32 values. *)
Lemma round32_int (n : Z) :
  (0 < n < 2 ^ 24)%Z → (round32 (inject_Z n) == inject_Z n)%Q.
Proof.
  intros [Hn1 Hn2]. unfold round32.
  assert (0 < inject_Z n)%Q as Hpos
    by (change 0%Q with (inject_Z 0); by rewrite <- Zlt_Qlt).
  destruct (Qcompare_spec (inject_Z n) 0) as [E|E|E]; [lra|lra|].
  assert (log2Q (inject_Z n) = Z.log2 n) as Hlog.
  { pose proof (Z.log2_spec n Hn1) as [H1 H2].
    pose proof (Z.log2_nonneg n).
    apply log2Q_unique; rewrite pow2_nonneg by lia.
    - by rewrite <- Zle_Qle.
    - rewrite <- Zlt_Qlt. lia. }
  assert (Z.log2 n < 24)%Z as Hl by (apply Z.log2_lt_pow2; lia).
  pose proof (Z.log2_nonneg n) as Hl0.
  unfold quantum32. rewrite Hlog, Z.max_l by lia.
  set (k := (23 - Z.log2 n)%Z).
  assert (pow2 (Z.log2 n - 23) == / inject_Z (2 ^ k))%Q as Hp.
  { replace (Z.log2 n - 23)%Z with (- k)%Z by (unfold k; lia).
    unfold pow2. rewrite Qpower_opp. fold (pow2 k).
    rewrite pow2_nonneg by (unfold k; lia). done. }
  assert (0 < 2 ^ k)%Z as Hk by (apply Z.pow_pos_nonneg; unfold k; lia).
  assert (0 < inject_Z (2 ^ k))%Q as HkQ
    by (change 0%Q with (inject_Z 0); by rewrite <- Zlt_Qlt).
  rewrite (roundEven_comp _ (inject_Z (n * 2 ^ k))).
  - rewrite roundEven_Z, Hp, inject_Z_mult. field. lra.
  - rewrite Hp, inject_Z_mult. field. lra.
Qed.

Lemma roundEven_le (y : Q) (M : Z) :
  (y < inject_Z M)%Q → (roundEven y ≤ M)%Z.
Proof.
  intros H. pose proof (Qfloor_le y) as Hf.
  assert (Qfloor y < M)%Z as Hlt by (rewrite Zlt_Qlt; lra).
  unfold roundEven. destruct (_ ?= _)%Q; [destruct (Z.even _)| |]; lia.
Qed.

(** Rounding does not cross a power of two: up to half a step above [2^e]
    the result is at most [2^e]. *)
Lemma round32_le_pow2 (e : Z) (x : Q) :
  (-126 ≤ e)%Z → (0 <= x)%Q → (x <= pow2 e * (1 + (1 # 16777216)))%Q →
  (round32 x <= pow2 e)%Q.
Proof.
  intros He H0 H1. pose proof (pow2_pos e) as Hpe. unfold round32.
  destruct (Qcompare_spec x 0) as [E|E|E]; [lra|lra|].
  destruct (log2Q_spec x E) as [Hl1 Hl2].
  destruct (Qlt_le_dec x (pow2 e)) as [Hx|Hx].
  - assert (log2Q x < e)%Z as Hl.
    { destruct (Z.lt_ge_cases (log2Q x) e) as [?|Hge]; [done|].
      pose proof (pow2_le e (log2Q x) Hge). lra. }
    set (q := quantum32 x).
    assert (q ≤ e)%Z as Hqe by (unfold q, quantum32; lia).
    pose proof (pow2_pos q) as Hq.
    assert (inject_Z (2 ^ (e - q)) * pow2 q == pow2 e)%Q as HM.
    { rewrite <- (pow2_nonneg (e - q)) by lia. rewrite <- pow2_add.
      by replace (e - q + q)%Z with e by lia. }
    assert (roundEven (x / pow2 q) ≤ 2 ^ (e - q))%Z as Hm.
    { apply roundEven_le. apply Qlt_shift_div_r; [done|]. lra. }
    rewrite Zle_Qle in Hm. nra.
  - assert (log2Q x = e) as Hl.
    { apply log2Q_unique; [done|]. rewrite pow2_succ. lra. }
    unfold quantum32. rewrite Hl. rewrite Z.max_l by lia.
    pose proof (pow2_pos (e - 23)) as Hq.
    assert (pow2 e == pow2 (e - 23) * (8388608 # 1))%Q as Hp.
    { replace e with (e - 23 + 23)%Z at 1 by lia. by rewrite pow2_add. }
    set (y := (x / pow2 (e - 23))%Q).
    assert (y * pow2 (e - 23) == x)%Q as Hy by (unfold y; field; lra).
    pose proof (Qfloor_le y) as Hf1. pose proof (Qlt_floor y) as Hf2.
    assert ((8388608 # 1) <= y)%Q as Hy1 by nra.
    assert (y <= (8388608 # 1) + (1 # 2))%Q as Hy2 by nra.
    assert (Qfloor y = 8388608%Z) as Hf.
    { assert (Qfloor y < 8388609)%Z
        by (rewrite Zlt_Qlt; change (inject_Z 8388609) with (8388609 # 1)%Q;
            lra).
      assert (8388608 < Qfloor y + 1)%Z
        by (rewrite Zlt_Qlt; change (inject_Z 8388608) with (8388608 # 1)%Q;
            lra).
      lia. }
    assert (roundEven y = 8388608%Z) as ->.
    { unfold roundEven. rewrite Hf.
      change (inject_Z 8388608) with (8388608 # 1)%Q.
      destruct (Qcompare_spec (y - (8388608 # 1)) (1 # 2)) as [C|C|C];
        [reflexivity|reflexivity|lra]. }
    change (inject_Z 8388608) with (8388608 # 1)%Q. lra.
Qed.

Lemma round32_le_one (x : Q) :
  (0 <= x)%Q → (x <= 1 + (1 # 16777216))%Q → (round32 x <= 1)%Q.
Proof.
  intros H0 H1.
  apply (round32_le_pow2 0 x); [lia|done|]. change (pow2 0) with 1%Q. lra.
Qed.

(** ** [Math.round], float32 storage and the split *)

(** The rounding to float32 written on the rationals gives the value of
    [fround] on these Numbers: quotients that are not float32 values, a
    count beyond [2^24], negative values, and in the subnormal range
    [2^-150], a tie that goes to 0, and [3 * 2^-150], a tie that goes to
    [2^-148]. *)
Example round32_agrees_with_fround :
  forallb (λ x, match valueQ x, valueQ (fround x) with
                | Some q, Some r => Qeq_bool (round32 q) r
                | _, _ => false
                end)
    [6 / 10; 1 / 3; 1 / 41; 1 / 10; 3 / 4; 16777217; 123456789;
     - (1 / 3); - (7 / 10);
     1 / 1267650600228229401496703205376 / 1125899906842624;
     3 / 1267650600228229401496703205376 / 1125899906842624;
     5 / 1267650600228229401496703205376 / 1125899906842624;
     1 / 1267650600228229401496703205376 / 4503599627370496]%float
  = true.
Proof. by vm_compute. Qed.



Lemma collected_input_length this smp x :
  collectSamples this = Ok smp → x ∈ smp →
  length (input x) = sequenceLength this.
Proof.
  intros Hc Hx.
  destruct (collectSamples_elem this smp x Hc Hx) as [Hat _].
  apply sampleAt_Some in Hat as (Hanchor & _ & Hin & _).
  pose proof (isAnchor_seqStart this _ Hanchor) as HL.
  unfold sampleInput in Hin. apply mapM_Ok_Forall2 in Hin.
  apply Forall2_length in Hin. rewrite <- Hin.
  unfold windowRange, seqStart. rewrite length_seq. lia.
Qed.

Lemma symbolLabels_labels this i s l :
  symbolLabels this i s = Ok l → Forall isLabel l.
Proof.
  unfold symbolLabels. intros H.
  apply bind_Ok in H as (ser & _ & H).
  apply bind_Ok in H as (vD & _ & H).
  apply mapM_Ok_Forall2 in H.
  induction H as [|o y os ys Hy _ IH]; constructor; [|done].
  apply bind_Ok in Hy as (v & _ & Hy). injection Hy as <-.
  unfold isLabel. destruct (gt _ _); auto.
Qed.

Lemma sampleOutput_labels this i y :
  sampleOutput this i = Ok y → Forall isLabel y.
Proof.
  unfold sampleOutput. intros H.
  apply bind_Ok in H as (ls & Hls & H). injection H as <-.
  apply mapM_Ok_Forall2 in Hls. apply Forall_concat.
  induction Hls as [|s l ss ls Hl _ IH]; constructor; [|done].
  by eapply symbolLabels_labels.
Qed.

(** The labels of every sample are 0 or 1. *)
Lemma collected_output_labels this smp x :
  collectSamples this = Ok smp → x ∈ smp → Forall isLabel (output x).
Proof.
  intros Hc Hx.
  destruct (collectSamples_elem this smp x Hc Hx) as [Hat _].
  apply sampleAt_Some in Hat as (_ & _ & _ & Hout & _).
  by eapply sampleOutput_labels.
Qed.

(** A label is a float32 value: storing it in a tensor keeps it. *)
Lemma fround_label (v : float) : isLabel v → fround v = v.
Proof. by intros [-> | ->]; vm_compute. Qed.

Lemma collected_outputs_float32 this smp :
  collectSamples this = Ok smp →
  map (map fround) (map output smp) = map output smp.
Proof.
  intros Hc. rewrite <- (map_id (map output smp)) at 2.
  rewrite !map_map. apply map_ext_in. intros x Hx.
  apply list_elem_of_In in Hx.
  pose proof (collected_output_labels this smp x Hc Hx) as Hl.
  simpl. induction Hl as [|v l Hv _ IH]; [done|].
  simpl. by rewrite (fround_label v Hv), IH.
Qed.

Lemma tensor3d_samples this smp :
  collectSamples this = Ok smp → smp ≠ [] → 1 ≤ sequenceLength this →
  tensor3d (map input smp) = Ok (map (map (map fround)) (map input smp)).
Proof.
  intros Hc Hne HL. destruct smp as [|x smp']; [done|].
  assert (length (input x) = sequenceLength this) as Hlen.
  { apply (collected_input_length this (x :: smp')); [done|by left]. }
  rewrite map_cons. destruct (input x) as [|r rs]; [simpl in Hlen; lia|].
  reflexivity.
Qed.

Lemma tensor3d_no_window this smp :
  collectSamples this = Ok smp → smp ≠ [] → sequenceLength this = 0 →
  ∃ e, tensor3d (map input smp) = Throw e.
Proof.
  intros Hc Hne HL. destruct smp as [|x smp']; [done|].
  assert (length (input x) = sequenceLength this) as Hlen.
  { apply (collected_input_length this (x :: smp')); [done|by left]. }
  rewrite map_cons. destruct (input x) as [|r rs]; [|simpl in Hlen; lia].
  eauto.
Qed.

Lemma tensor2d_samples this smp :
  collectSamples this = Ok smp → smp ≠ [] →
  tensor2d (map output smp) = Ok (map output smp).
Proof.
  intros Hc Hne. destruct smp as [|x smp']; [done|].
  rewrite <- (collected_outputs_float32 this (x :: smp') Hc) at 2.
  reflexivity.
Qed.

Lemma prepareDataset_Ok this p smp c :
  is_Some (raw this) →
  collectSamples this = Ok smp → smp ≠ [] →
  1 ≤ sequenceLength this →
  trainCountOf p (length smp) = Some c →
  (0 ≤ c ≤ Z.of_nat (length smp))%Z →
  prepareDataset this p
  = (log (MsgPrepared (length smp) c (Z.of_nat (length smp) - c))
       (set_dataset this (splitDataset smp c)),
     Ok (splitMeta this smp c)).
Proof.
  intros [r Hraw] Hc Hne HL Hcount Hrange.
  unfold prepareDataset. rewrite Hraw, Hc.
  rewrite (tensor3d_samples this smp Hc Hne HL).
  rewrite (tensor2d_samples this smp Hc Hne).
  destruct smp as [|x0 smp']; [done|]. clear Hne.
  set (smp := x0 :: smp') in *.
  cbn [mbind result_bind].
  rewrite !length_map, Hcount.
  rewrite (tf_slice_head c (map (map (map fround)) (map input smp)))
    by by rewrite !length_map.
  rewrite (tf_slice_tail c (length smp) (map (map (map fround)) (map input smp)))
    by (by rewrite ?length_map).
  rewrite (tf_slice_head c (map output smp)) by by rewrite length_map.
  rewrite (tf_slice_tail c (length smp) (map output smp))
    by (by rewrite ?length_map).
  cbn [mbind result_bind].
  unfold js_slice_to, js_slice_from.
  destruct (Z.ltb_spec c 0); [lia|].
  rewrite sequenceLength_log, symbols_log. done.
Qed.

Lemma dataset_log m this : dataset (log m this) = dataset this.
Proof. unfold log. by destruct (logger this). Qed.



(** ** Tensors: chunks, nested arrays and means *)

Lemma length_chunks {A} (k n : nat) (l : list A) : length (chunks k n l) = n.
Proof. revert l. induction n as [|n IH]; intros l; simpl; [done|]. by rewrite IH. Qed.

Lemma chunks_lookup {A} (k n i : nat) (l : list A) :
  i < n → chunks k n l !! i = Some (take k (drop (i * k) l)).
Proof.
  revert i l. induction n as [|n IH]; intros i l Hi; [lia|].
  destruct i as [|i]; simpl; [done|].
  rewrite IH by lia. by rewrite drop_drop.
Qed.

Lemma concat_chunks {A} (k n : nat) (l : list A) :
  concat (chunks k n l) = take (n * k) l.
Proof.
  revert l. induction n as [|n IH]; intros l; simpl; [done|].
  by rewrite IH, take_take_drop.
Qed.

(** The entry [[n][s]] of the nested array of a [[N, S, h]] tensor is the
    run of [h] values that starts at [(n*S + s)*h]. *)
Lemma array3_lookup2 {A} (N S h n s : nat) (vals : list A) :
  n < N → s < S →
  at2 (array3 N S h vals) n s
  = Some (take h (drop ((n * S + s) * h) vals)).
Proof.
  intros Hn Hs. unfold at2, array3. rewrite list_lookup_fmap.
  rewrite chunks_lookup by done. simpl. rewrite chunks_lookup by done.
  f_equal. rewrite take_drop_commute, take_take.
  replace (min (s * h + h) (S * h)) with (s * h + h) by nia.
  rewrite <- take_drop_commute, drop_drop. do 2 f_equal. lia.
Qed.

(** Asset-major, horizon-minor: the entry [[n][s][t]] is the value at
    [(n*S + s)*h + t]. *)
Lemma array3_lookup3 {A} (N S h n s t : nat) (vals : list A) :
  n < N → s < S → t < h →
  at3 (array3 N S h vals) n s t = vals !! ((n * S + s) * h + t).
Proof.
  intros Hn Hs Ht. unfold at3. rewrite array3_lookup2 by done.
  by rewrite lookup_take_lt, lookup_drop.
Qed.

Lemma sumZ_app l1 l2 : sumZ (l1 ++ l2) = (sumZ l1 + sumZ l2)%Z.
Proof. induction l1 as [|x l1 IH]; simpl; [done|]. rewrite IH. lia. Qed.

Lemma sumZ_concat (ls : list (list Z)) : sumZ (concat ls) = sumZ (map sumZ ls).
Proof.
  induction ls as [|l ls IH]; simpl; [done|]. by rewrite sumZ_app, IH.
Qed.

Lemma sumZ_map_add {A} (f g : A → Z) (l : list A) :
  sumZ (map (λ x, (f x + g x)%Z) l) = (sumZ (map f l) + sumZ (map g l))%Z.
Proof. induction l as [|x l IH]; simpl; [done|]. rewrite IH. lia. Qed.

(** Two nested finite sums may be exchanged. *)
Lemma sumZ_swap {A B} (g : A → B → Z) (la : list A) (lb : list B) :
  sumZ (map (λ a, sumZ (map (g a) lb)) la)
  = sumZ (map (λ b, sumZ (map (λ a, g a b) la)) lb).
Proof.
  induction lb as [|b lb IH]; simpl.
  - induction la as [|a la IHa]; simpl; [done|]. by rewrite IHa.
  - rewrite <- IH. by rewrite <- sumZ_map_add.
Qed.

Lemma sumZ_rows (row : list (list Z)) :
  sumZ (map (λ s, sumZ (nth s row [])) (seq 0 (length row)))
  = sumZ (concat row).
Proof.
  induction row as [|l row IH]; simpl; [done|].
  rewrite sumZ_app, <- IH. f_equal.
  rewrite <- seq_shift, map_map. done.
Qed.

Lemma meanOver_sum (n : nat) (xs : list Z) :
  (meanOver n xs == inject_Z (sumZ xs) / inject_Z (Z.of_nat n))%Q.
Proof.
  unfold meanOver. induction xs as [|x xs IH]; simpl.
  - unfold Qdiv. ring.
  - rewrite IH, inject_Z_plus. unfold Qdiv. ring.
Qed.

Lemma sumQ_map_div {A} (f : A → Z) (d : Q) (l : list A) :
  (sumQ (map (λ a, inject_Z (f a) / d) l) == inject_Z (sumZ (map f l)) / d)%Q.
Proof.
  induction l as [|a l IH]; simpl.
  - unfold Qdiv. ring.
  - rewrite IH, inject_Z_plus. unfold Qdiv. ring.
Qed.

Lemma sumQ_ext {A} (f g : A → Q) (l : list A) :
  (∀ a, (f a == g a)%Q) → (sumQ (map f l) == sumQ (map g l))%Q.
Proof.
  intros H. induction l as [|a l IH]; simpl; [reflexivity|].
  by rewrite H, IH.
Qed.

(** The per-asset sums of a [[N, S, h]] tensor add up to the sum of all its
    values. *)
Lemma sum_by_asset (N S h : nat) (vals : list Z) :
  length vals = N * S * h →
  sumZ (map (λ s, sumZ (concat (map (λ row, nth s row [])
                                     (array3 N S h vals))))
            (seq 0 S))
  = sumZ vals.
Proof.
  intros Hlen.
  rewrite (List.map_ext _ (λ s, sumZ (map (λ row, sumZ (nth s row []))
                                     (array3 N S h vals)))).
  2:{ intros s. by rewrite sumZ_concat, map_map. }
  rewrite (sumZ_swap (λ s row, sumZ (nth s row []))).
  unfold array3. rewrite map_map.
  rewrite (List.map_ext _ (λ c, sumZ (take (S * h) c))).
  2:{ intros c. rewrite <- (length_chunks h S c) at 1.
      by rewrite sumZ_rows, concat_chunks. }
  rewrite <- (map_map (take (S * h)) sumZ), <- sumZ_concat.
  assert (map (take (S * h)) (chunks (S * h) N vals) = chunks (S * h) N vals)
    as ->.
  { clear Hlen. revert vals. induction N as [|N IH]; intros vals; simpl; [done|].
    rewrite IH, take_take. f_equal. f_equal. lia. }
  rewrite concat_chunks, take_ge; [done|]. lia.
Qed.

(** ** The evaluator *)

Lemma reshape_Ok {A} (sh : list nat) (x y : Tensor A) :
  reshape sh x = Ok y ↔ sizeOf sh = sizeOf (shape x) ∧ y = mkTensor sh (values x).
Proof.
  unfold reshape. destruct (Nat.eqb_spec (sizeOf sh) (sizeOf (shape x))).
  - split; [intros H; injection H as <-; done | intros [_ ->]; done].
  - split; [discriminate | intros [? _]; done].
Qed.

Lemma sizeOf3 (N S h : nat) : sizeOf [N; S; h] = N * S * h.
Proof. unfold sizeOf. simpl. lia. Qed.

Lemma sizeOf2 (N K : nat) : sizeOf [N; K] = N * K.
Proof. unfold sizeOf. simpl. lia. Qed.

Lemma length_correctness y_true y_pred n :
  length (values y_pred) = n → length (values y_true) = n →
  length (correctness y_true y_pred) = n.
Proof.
  intros H1 H2. unfold correctness.
  rewrite length_zip_with, !length_map. lia.
Qed.

Lemma computePerStockAccuracy_Ok y_true y_pred S h acc :
  GRUModel.computePerStockAccuracy y_true y_pred S h = Ok acc ↔
  ∃ N rest, shape y_pred = N :: rest
    ∧ N * S * h = sizeOf (shape y_pred)
    ∧ N * S * h = sizeOf (shape y_true)
    ∧ acc = GRUModel.mkAccuracy
              (meanAxes02 N S h (correctness y_true y_pred))
              (meanAll (correctness y_true y_pred)).
Proof.
  unfold GRUModel.computePerStockAccuracy, GRUModel.shape0.
  cbn [greaterInt tmap shape]. split.
  - destruct (shape y_pred) as [|N rest] eqn:Hsh; [discriminate|].
    cbn [mbind result_bind]. intros H.
    apply bind_Ok in H as (p3 & Hp3 & H).
    apply bind_Ok in H as (t3 & Ht3 & H). injection H as <-.
    apply reshape_Ok in Hp3 as [Hs1 ->]. apply reshape_Ok in Ht3 as [Hs2 ->].
    rewrite sizeOf3 in Hs1, Hs2. cbn [shape] in Hs1, Hs2.
    cbn [greaterInt toInt tmap shape] in Hs1, Hs2. rewrite Hsh in Hs1.
    exists N, rest. done.
  - intros (N & rest & Hsh & Hs1 & Hs2 & ->). rewrite Hsh.
    cbn [mbind result_bind]. unfold reshape. rewrite sizeOf3.
    cbn [shape toInt greaterInt tmap]. rewrite <- Hs1, <- Hs2.
    rewrite !Nat.eqb_refl. done.
Qed.

Lemma inject_nat_mul (a b : nat) :
  (inject_Z (Z.of_nat (a * b)) == inject_Z (Z.of_nat a) * inject_Z (Z.of_nat b))%Q.
Proof. by rewrite Nat2Z.inj_mul, inject_Z_mult. Qed.

Lemma inject_nat_nonzero (a : nat) : 0 < a → ¬ (inject_Z (Z.of_nat a) == 0)%Q.
Proof.
  intros Ha H. change 0%Q with (inject_Z 0) in H.
  apply (proj1 (inject_Z_injective _ _)) in H. lia.
Qed.

(** *** Float32 means of correctness entries *)

Lemma correctness_bits y_true y_pred : Forall isBit (correctness y_true y_pred).
Proof.
  unfold correctness. apply list.Forall_forall. intros x Hx.
  apply elem_of_lookup_zip_with in Hx as (i & a & b & -> & _ & _).
  unfold eq01, isBit. destruct (a =? b)%Z; auto.
Qed.

Lemma sumZ_bits (xs : list Z) :
  Forall isBit xs → (0 ≤ sumZ xs ≤ Z.of_nat (length xs))%Z.
Proof.
  induction 1 as [|x xs [-> | ->] _ IH]; simpl length; simpl sumZ; lia.
Qed.

Lemma sumQ_le {A} (f g : A → Q) (l : list A) :
  (∀ a, a ∈ l → (f a <= g a)%Q) → (sumQ (map f l) <= sumQ (map g l))%Q.
Proof.
  induction l as [|a l IH]; intros H; simpl; [lra|].
  pose proof (H a ltac:(left)). pose proof (IH (λ b Hb, H b (list_elem_of_further _ _ _ Hb))).
  lra.
Qed.

Lemma sumQ_scale {A} (f : A → Q) (c : Q) (l : list A) :
  (sumQ (map (λ a, f a * c) l) == sumQ (map f l) * c)%Q.
Proof. induction l as [|a l IH]; simpl; [ring|]. rewrite IH. ring. Qed.

Lemma inject_nat_pos (a : nat) : 0 < a → (0 < inject_Z (Z.of_nat a))%Q.
Proof.
  intros Ha. change 0%Q with (inject_Z 0). rewrite <- Zlt_Qlt. lia.
Qed.

(** The float32 quotient [1/n] for a count below [2^24]. *)
Lemma round32_inverse (n : nat) :
  0 < n → (Z.of_nat n < 2 ^ 24)%Z →
  let r := round32 (1 / inject_Z (Z.of_nat n)) in
  let t := (1 / inject_Z (Z.of_nat n))%Q in
  (t * (1 - (1 # 16777216)) <= r)%Q ∧ (r <= t * (1 + (1 # 16777216)))%Q.
Proof.
  intros Hn Hlt r t. pose proof (inject_nat_pos n Hn) as Hpos.
  assert (pow2 (-24) <= t)%Q as Ht.
  { unfold t. apply Qle_shift_div_l; [done|].
    assert (inject_Z (Z.of_nat n) <= 16777216 # 1)%Q.
    { change (16777216 # 1)%Q with (inject_Z (2 ^ 24)).
      rewrite <- Zle_Qle. lia. }
    change (pow2 (-24)) with (1 # 16777216)%Q. lra. }
  destruct (round32_error t) as [H1 H2].
  { pose proof (pow2_le (-126) (-24) ltac:(lia)). lra. }
  change (round32 t) with r in H1, H2. clearbody r t. split; lra.
Qed.

(** The mean of [n] entries that are 0 or 1: the count of ones times the
    float32 quotient [1/n], stored as float32. *)
Lemma mean32_bits (n : nat) (xs : list Z) :
  0 < n → (Z.of_nat n < 2 ^ 24)%Z → Forall isBit xs →
  (mean32 n xs
   == round32 (inject_Z (sumZ xs) * round32 (1 / inject_Z (Z.of_nat n))))%Q.
Proof.
  intros Hn Hlt Hb. unfold mean32. apply round32_comp.
  assert (round32 (inject_Z (Z.of_nat n)) == inject_Z (Z.of_nat n))%Q as Hr
    by (apply round32_int; lia).
  pose proof (inject_nat_pos n Hn) as Hpos.
  induction Hb as [|x xs Hx _ IH]; simpl; [ring|].
  rewrite IH, inject_Z_plus. destruct Hx as [-> | ->].
  - rewrite (round32_comp _ 0%Q); [rewrite round32_0; ring|].
    rewrite Hr. field. lra.
  - rewrite (round32_comp _ (1 / inject_Z (Z.of_nat n))%Q); [ring|].
    rewrite Hr. field. lra.
Qed.

(** Two roundings in a row: a count times a rounded quotient, rounded. *)
Lemma round32_scaled (k r i : Q) :
  (1 <= k)%Q → ((1 # 16777216) <= i)%Q →
  (i * (1 - (1 # 16777216)) <= r)%Q → (r <= i * (1 + (1 # 16777216)))%Q →
  (k * i * (1 - (1 # 4194304)) <= round32 (k * r))%Q
  ∧ (round32 (k * r) <= k * i * (1 + (1 # 4194304)))%Q.
Proof.
  intros Hk Hi Hr1 Hr2.
  destruct (round32_error (k * r)%Q) as [H1 H2].
  { change (pow2 (-126)) with (1 # 2 ^ 126)%Q.
    assert ((1 # 2 ^ 126) <= (1 # 33554432))%Q by (by vm_compute).
    nra. }
  set (m := round32 (k * r)) in *. clearbody m. split; nra.
Qed.

(** A float32 mean of 0/1 entries is within the relative error [2^-22] of
    the exact ratio. *)
Lemma mean32_error (n : nat) (xs : list Z) :
  0 < n → (Z.of_nat n < 2 ^ 24)%Z → Forall isBit xs →
  let t := (inject_Z (sumZ xs) / inject_Z (Z.of_nat n))%Q in
  (t * (1 - (1 # 4194304)) <= mean32 n xs)%Q
  ∧ (mean32 n xs <= t * (1 + (1 # 4194304)))%Q.
Proof.
  intros Hn Hlt Hb t. rewrite (mean32_bits n xs Hn Hlt Hb).
  pose proof (inject_nat_pos n Hn) as Hpos.
  pose proof (sumZ_bits xs Hb) as [Hk _].
  destruct (round32_inverse n Hn Hlt) as [Hr1 Hr2].
  assert (t == inject_Z (sumZ xs) * (1 / inject_Z (Z.of_nat n)))%Q as Ht
    by (unfold t; field; lra).
  rewrite Ht. clear Ht t.
  destruct (Z.eq_dec (sumZ xs) 0%Z) as [E|E].
  { rewrite E. rewrite (round32_comp _ 0%Q) by ring. rewrite round32_0.
    split; ring_simplify; lra. }
  apply round32_scaled; [|  |done|done].
  - change 1%Q with (inject_Z 1). rewrite <- Zle_Qle. lia.
  - apply Qle_shift_div_l; [done|].
    assert (inject_Z (Z.of_nat n) <= 16777216 # 1)%Q.
    { change (16777216 # 1)%Q with (inject_Z (2 ^ 24)).
      rewrite <- Zle_Qle. lia. }
    lra.
Qed.

(** The float32 mean of [k] ones among [n] entries is within the relative
    error [2^-22] of [k/n], and between 0 and 1. *)
Lemma ratio32_spec (k n : nat) :
  0 < n → (Z.of_nat n < 2 ^ 24)%Z → k ≤ n →
  let t := (inject_Z (Z.of_nat k) / inject_Z (Z.of_nat n))%Q in
  (Qabs (ratio32 k n - t) <= t * (1 # 4194304))%Q
  ∧ (0 <= ratio32 k n)%Q ∧ (ratio32 k n <= 1)%Q.
Proof.
  intros Hn Hlt Hk t. unfold ratio32.
  pose proof (inject_nat_pos n Hn) as Hpos.
  destruct (round32_inverse n Hn Hlt) as [Hr1 Hr2].
  assert (0 <= inject_Z (Z.of_nat k))%Q as Hk0.
  { change 0%Q with (inject_Z 0). rewrite <- Zle_Qle. lia. }
  assert (inject_Z (Z.of_nat k) <= inject_Z (Z.of_nat n))%Q as Hkn.
  { rewrite <- Zle_Qle. lia. }
  assert (t == inject_Z (Z.of_nat k) * (1 / inject_Z (Z.of_nat n)))%Q as Ht
    by (unfold t; field; lra).
  assert (0 <= t)%Q as Ht0.
  { unfold t. apply Qle_shift_div_l; lra. }
  assert (t <= 1)%Q as Ht1.
  { unfold t. apply Qle_shift_div_r; lra. }
  clearbody t.
  set (i := (1 / inject_Z (Z.of_nat n))%Q) in *.
  set (r := round32 i) in *.
  assert (0 <= i)%Q as Hi0.
  { unfold i. apply Qle_shift_div_l; lra. }
  split; [|split].
  - apply Qabs_Qle_condition.
    destruct k as [|k].
    { change (inject_Z (Z.of_nat 0)) with 0%Q in *.
      rewrite (round32_comp _ 0%Q) by ring. rewrite round32_0.
      split; nra. }
    destruct (round32_scaled (inject_Z (Z.of_nat (S k))) r i)
      as [H1 H2]; [| |done|done|].
    + change 1%Q with (inject_Z 1). rewrite <- Zle_Qle. lia.
    + unfold i. apply Qle_shift_div_l; [done|].
      assert (inject_Z (Z.of_nat n) <= 16777216 # 1)%Q.
      { change (16777216 # 1)%Q with (inject_Z (2 ^ 24)).
        rewrite <- Zle_Qle. lia. }
      lra.
    + rewrite Ht. clearbody r i. split; lra.
  - apply round32_nonneg. clearbody r i. nra.
  - apply round32_le_one; clearbody r i; nra.
Qed.

Lemma Forall_chunks {A} (P : A → Prop) (k n : nat) (l : list A) :
  Forall P l → Forall (Forall P) (chunks k n l).
Proof.
  revert l. induction n as [|n IH]; intros l Hl; simpl; constructor.
  - by apply Forall_take.
  - apply IH. by apply Forall_drop.
Qed.

Lemma Forall_column {A} (P : A → Prop) (N S h s : nat) (vals : list A) :
  Forall P vals →
  Forall P (concat (map (λ row, nth s row []) (array3 N S h vals))).
Proof.
  intros Hv. apply Forall_concat, Forall_map, list.Forall_forall.
  intros row Hrow. unfold array3 in Hrow.
  apply list_elem_of_fmap in Hrow as (c & -> & Hc).
  assert (Forall P c) as HPc.
  { exact (proj1 (list.Forall_forall _ _) (Forall_chunks P _ _ _ Hv) c Hc). }
  pose proof (Forall_chunks P h S c HPc) as Hrows.
  destruct (nth_in_or_default s (chunks h S c) []) as [Hin| ->]; [|done].
  apply (proj1 (list.Forall_forall _ _) Hrows). by apply list_elem_of_In.
Qed.

(** The per-asset float32 means add up to the exact ratio of all ones to
    the [N*h] entries of one asset, within the relative error [2^-22]. *)
Lemma meanAxes02_error (N S h : nat) (vals : list Z) :
  length vals = N * S * h → 0 < N → 0 < h →
  (Z.of_nat (N * h) < 2 ^ 24)%Z → Forall isBit vals →
  let t := (inject_Z (sumZ vals) / inject_Z (Z.of_nat (N * h)))%Q in
  (t * (1 - (1 # 4194304)) <= sumQ (meanAxes02 N S h vals))%Q
  ∧ (sumQ (meanAxes02 N S h vals) <= t * (1 + (1 # 4194304)))%Q.
Proof.
  intros Hlen HN Hh Hlt Hb t.
  set (col := λ s, concat (map (λ row, nth s row []) (array3 N S h vals))).
  set (ratio := λ s, (inject_Z (sumZ (col s))
                      / inject_Z (Z.of_nat (N * h)))%Q).
  assert (sumQ (map ratio (seq 0 S)) == t)%Q as Hsum.
  { unfold ratio. rewrite (sumQ_map_div (λ s, sumZ (col s))).
    unfold col. by rewrite sum_by_asset. }
  assert (∀ s, (ratio s * (1 - (1 # 4194304)) <= mean32 (N * h) (col s))%Q
               ∧ (mean32 (N * h) (col s)
                  <= ratio s * (1 + (1 # 4194304)))%Q) as Hone.
  { intros s. apply mean32_error; [lia|done|]. by apply Forall_column. }
  unfold meanAxes02. fold col. split.
  - rewrite <- Hsum, <- sumQ_scale. apply sumQ_le. intros s _. apply Hone.
  - rewrite <- Hsum, <- sumQ_scale. apply sumQ_le. intros s _. apply Hone.
Qed.

(** C6. For a prediction matrix and a truth matrix of one shape
    [[N, S*h]] with [N > 0] and fewer than [2^24] entries, the overall
    accuracy and the arithmetic mean of the [S] per-asset accuracies, both
    float32 values, differ by at most [2^-21]: every asset contributes
    [N*h] entries, and each mean is within [2^-22] of its exact ratio. *)
Theorem C6_overall_is_mean_of_assets (y_true y_pred : Tensor float)
    (N S h : nat) :
  shape y_pred = [N; S * h] → shape y_true = [N; S * h] →
  wf y_pred → wf y_true → 0 < N → 0 < S → 0 < h →
  (Z.of_nat (N * S * h) < 2 ^ 24)%Z →
  ∃ acc, GRUModel.computePerStockAccuracy y_true y_pred S h = Ok acc
    ∧ length (GRUModel.acc_perStockAcc acc) = S
    ∧ (Qabs (GRUModel.acc_overallAcc acc
             - sumQ (GRUModel.acc_perStockAcc acc) / inject_Z (Z.of_nat S))
       <= 1 # 2097152)%Q.
Proof.
  intros Hp Ht Hwp Hwt HN HS Hh Hsize.
  unfold wf in Hwp, Hwt. rewrite Hp in Hwp. rewrite Ht in Hwt.
  rewrite sizeOf2 in Hwp, Hwt.
  eexists. split.
  { apply computePerStockAccuracy_Ok. exists N, [S * h].
    rewrite Hp, Ht, sizeOf2. repeat split; try done; lia. }
  cbn [GRUModel.acc_perStockAcc GRUModel.acc_overallAcc].
  set (vals := correctness y_true y_pred).
  assert (length vals = N * S * h) as Hlen.
  { apply length_correctness; lia. }
  pose proof (correctness_bits y_true y_pred : Forall isBit vals) as Hb.
  split.
  { unfold meanAxes02. by rewrite length_map, length_seq. }
  destruct (meanAxes02_error N S h vals Hlen HN Hh) as [Hs1 Hs2];
    [nia|done|].
  destruct (mean32_error (N * S * h) vals) as [Ho1 Ho2]; [nia|done|done|].
  unfold meanAll. rewrite Hlen.
  pose proof (sumZ_bits vals Hb) as [Hk1 Hk2]. rewrite Hlen in Hk2.
  rewrite Zle_Qle in Hk1, Hk2. change (inject_Z 0) with 0%Q in Hk1.
  set (a := mean32 (N * S * h) vals) in *.
  set (b := sumQ (meanAxes02 N S h vals)) in *.
  set (K := inject_Z (sumZ vals)) in *.
  assert (inject_Z (Z.of_nat (N * S * h))
          == inject_Z (Z.of_nat (N * h)) * inject_Z (Z.of_nat S))%Q as Hn.
  { rewrite <- inject_Z_mult, <- Nat2Z.inj_mul.
    by replace (N * h * S) with (N * S * h) by lia. }
  pose proof (inject_nat_pos (N * h) ltac:(nia)) as Hnh.
  pose proof (inject_nat_pos S HS) as HSq.
  set (nh := inject_Z (Z.of_nat (N * h))) in *.
  set (sq := inject_Z (Z.of_nat S)) in *.
  set (n := inject_Z (Z.of_nat (N * S * h))) in *.
  clearbody a b K nh sq n.
  assert (0 < n)%Q as Hnpos by nra.
  set (T := (K / n)%Q).
  assert (T == K / nh / sq)%Q as HT by (unfold T; rewrite Hn; field; lra).
  assert (0 <= T)%Q as HT0.
  { unfold T. apply Qle_shift_div_l; lra. }
  assert (T <= 1)%Q as HT1.
  { unfold T. apply Qle_shift_div_r; lra. }
  assert (K / nh == T * sq)%Q as HK by (rewrite HT; field; lra).
  rewrite HK in Hs1, Hs2. fold T in Ho1, Ho2. clearbody T.
  assert (b / sq * sq == b)%Q as Hb' by (field; lra).
  set (avg := (b / sq)%Q) in *. clearbody avg.
  apply Qabs_Qle_condition. split; nra.
Qed.

Lemma evaluateTestSet_Ok this X y syms h r :
  GRUModel.evaluateTestSet this X y syms h = Ok r ↔
  ∃ m N rest, GRUModel.model this = Some m
    ∧ shape (m X) = N :: rest
    ∧ N * length syms * h = sizeOf (shape (m X))
    ∧ N * length syms * h = sizeOf (shape y)
    ∧ r = evaluationOf (m X) y N (length syms) h.
Proof.
  unfold GRUModel.evaluateTestSet, GRUModel.predict, GRUModel.shape0.
  split.
  - intros H. apply bind_Ok in H as (preds & Hpreds & H).
    destruct (GRUModel.model this) as [m|]; [|discriminate].
    injection Hpreds as <-.
    apply bind_Ok in H as (N0 & HN0 & H).
    destruct (shape (m X)) as [|N rest] eqn:Hsh; [discriminate|].
    injection HN0 as <-.
    apply bind_Ok in H as (p3 & Hp3 & H).
    apply bind_Ok in H as (t3 & Ht3 & H).
    apply bind_Ok in H as (acc & Hacc & H). injection H as <-.
    apply reshape_Ok in Hp3 as [Hs1 ->]. apply reshape_Ok in Ht3 as [Hs2 ->].
    rewrite sizeOf3 in Hs1, Hs2.
    cbn [greaterInt toInt tmap shape] in Hs1, Hs2. rewrite Hsh in Hs1.
    apply computePerStockAccuracy_Ok
      in Hacc as (N' & rest' & Hsh' & _ & _ & ->).
    assert (N' = N) as -> by congruence.
    exists m, N, rest. rewrite Hsh. done.
  - intros (m & N & rest & -> & Hsh & Hs1 & Hs2 & ->).
    cbv beta iota. run_binds. rewrite Hsh. run_binds. unfold reshape.
    rewrite sizeOf3. cbn [shape toInt greaterInt tmap].
    rewrite <- Hs1, <- Hs2, !Nat.eqb_refl. run_binds.
    erewrite (proj2 (computePerStockAccuracy_Ok y (m X) (length syms) h _));
      [|by exists N, rest].
    done.
Qed.

Lemma sum_eq01 (ps ts : list Z) :
  sumZ (zip_with eq01 ps ts) = Z.of_nat (correctCount ps ts).
Proof.
  unfold correctCount. revert ts.
  induction ps as [|p ps IH]; intros [|t ts]; simpl; try done.
  unfold eq01 at 1. destruct (Z.eqb_spec p t) as [->|Hne].
  - rewrite filter_cons_True by done. simpl length. rewrite IH. lia.
  - rewrite filter_cons_False by done. rewrite IH. lia.
Qed.

Lemma greaterHalf_spec (q : Q) :
  (greaterHalf q = 1%Z ↔ (1 # 2 < q)%Q)
  ∧ (greaterHalf q = 0%Z ↔ (q <= 1 # 2)%Q).
Proof.
  unfold greaterHalf. destruct (Qle_bool q (1 # 2)) eqn:Hle.
  - apply Qle_bool_iff in Hle. split; split; try done.
    intros Hlt. exfalso. by apply (Qlt_not_le _ _ Hlt).
  - assert (¬ (q <= 1 # 2)%Q) as Hn.
    { intros H. apply Qle_bool_iff in H. congruence. }
    split; split; try done. intros _. by apply Qnot_le_lt.
Qed.

Lemma greaterHalf_proper (q q' : Q) : (q == q')%Q → greaterHalf q = greaterHalf q'.
Proof.
  intros H. unfold greaterHalf.
  destruct (Qle_bool q (1 # 2)) eqn:H1, (Qle_bool q' (1 # 2)) eqn:H2; try done.
  - apply Qle_bool_iff in H1. rewrite H in H1. apply Qle_bool_iff in H1.
    congruence.
  - apply Qle_bool_iff in H2. rewrite <- H in H2. apply Qle_bool_iff in H2.
    congruence.
Qed.

(** The comparison of a horizon mean with one half has the same outcome on
    the float32 mean and on the exact one, for fewer than [2^22]
    horizons: the timeline may be computed from the exact mean. *)
Lemma horizon_mean_comparison (h : nat) (xs : list Z) :
  0 < h → (Z.of_nat h < 2 ^ 22)%Z → length xs = h → Forall isBit xs →
  greaterHalf (mean32 h xs) = greaterHalf (meanOver h xs).
Proof.
  intros Hh Hlt Hlen Hb.
  rewrite (greaterHalf_proper _ _ (mean32_bits h xs Hh ltac:(lia) Hb)).
  rewrite (greaterHalf_proper _ _ (meanOver_sum h xs)).
  pose proof (sumZ_bits xs Hb) as [Hk0 Hk1]. rewrite Hlen in Hk1.
  pose proof (inject_nat_pos h Hh) as Hpos.
  destruct (round32_inverse h Hh ltac:(lia)) as [Hr1 Hr2].
  set (k := sumZ xs) in *. clearbody k.
  set (i := (1 / inject_Z (Z.of_nat h))%Q) in *.
  set (r := round32 i) in *.
  assert (inject_Z (Z.of_nat h) * i == 1)%Q as Hi by (unfold i; field; lra).
  assert (inject_Z k / inject_Z (Z.of_nat h) == inject_Z k * i)%Q as Hdiv
    by (unfold i; field; lra).
  assert (inject_Z (Z.of_nat h) <= 4194304 # 1)%Q as Hh22.
  { change (4194304 # 1)%Q with (inject_Z (2 ^ 22)). rewrite <- Zle_Qle. lia. }
  assert (0 <= inject_Z k)%Q as Hk0q.
  { change 0%Q with (inject_Z 0). by rewrite <- Zle_Qle. }
  assert (0 < i)%Q as Hi0 by (clearbody r; nra).
  clearbody r.
  destruct (Z.le_gt_cases (2 * k) (Z.of_nat h)) as [Hle|Hgt].
  - assert (2 * inject_Z k <= inject_Z (Z.of_nat h))%Q as Hq.
    { change 2%Q with (inject_Z 2). rewrite <- inject_Z_mult.
      by rewrite <- Zle_Qle. }
    assert (inject_Z k * i <= 1 # 2)%Q as Hexact by (clearbody i; nra).
    assert (round32 (inject_Z k * r) <= 1 # 2)%Q as Hfl.
    { change (1 # 2)%Q with (pow2 (-1)). apply round32_le_pow2; [lia| |].
      - clearbody i. nra.
      - change (pow2 (-1)) with (1 # 2)%Q. clearbody i. nra. }
    rewrite (proj2 (proj2 (greaterHalf_spec _)) Hfl).
    symmetry. apply greaterHalf_spec. by rewrite Hdiv.
  - assert (inject_Z (Z.of_nat h) + 1 <= 2 * inject_Z k)%Q as Hq.
    { change 2%Q with (inject_Z 2). change 1%Q with (inject_Z 1).
      rewrite <- inject_Z_mult, <- inject_Z_plus, <- Zle_Qle. lia. }
    assert ((1 # 2) + i * (1 # 2) <= inject_Z k * i)%Q as Hexact
      by (clearbody i; nra).
    assert ((1 # 4194304) <= i)%Q as Hi22 by (clearbody i; nra).
    assert ((1 # 2) + (1 # 16777216) <= inject_Z k * r)%Q as Hkr
      by (clearbody i; nra).
    assert (1 # 2 < round32 (inject_Z k * r))%Q as Hfl.
    { destruct (round32_error (inject_Z k * r)) as [_ H2].
      { change (pow2 (-126)) with (1 # 2 ^ 126)%Q.
        assert ((1 # 2 ^ 126) <= (1 # 2))%Q by (by vm_compute). lra. }
      set (m := round32 (inject_Z k * r)) in *. clearbody m i. nra. }
    rewrite (proj2 (proj1 (greaterHalf_spec _)) Hfl).
    symmetry. apply greaterHalf_spec. rewrite Hdiv. clearbody i. lra.
Qed.

Lemma transposed_at2 {A} (d : A) (N S n s : nat) (vals : list A) :
  n < N → s < S →
  at2 (transposed d N S vals) s n = Some (nth (n * S + s) vals d).
Proof.
  intros Hn Hs. unfold at2, transposed. rewrite list_lookup_fmap.
  rewrite lookup_seq_lt by done. simpl. rewrite list_lookup_fmap.
  rewrite lookup_seq_lt by done. done.
Qed.

(** The timeline bit of sample [n] and asset [s], from the two runs of [h]
    values the evaluation returns for them. *)
Lemma timeline_entry (preds y : Tensor float) (N S h n s : nat) :
  n < N → s < S →
  ∃ ps ts,
    at2 (array3 N S h (map (threshold 0.5) (values preds))) n s = Some ps
    ∧ at2 (array3 N S h (map toInt32 (values y))) n s = Some ts
    ∧ at2 (transposed 0%Z N S
             (map greaterHalf (meanAxis2 N S h (correctness y preds)))) s n
      = Some (greaterHalf (inject_Z (Z.of_nat (correctCount ps ts))
                           / inject_Z (Z.of_nat h))%Q).
Proof.
  intros Hn Hs. rewrite !array3_lookup2 by done.
  eexists _, _. split; [reflexivity|]. split; [reflexivity|].
  rewrite transposed_at2 by done. f_equal.
  assert (n * S + s < N * S) as Hlt by nia.
  rewrite nth_lookup. unfold meanAxis2. rewrite !list_lookup_fmap.
  rewrite chunks_lookup by done. simpl.
  apply greaterHalf_proper. rewrite meanOver_sum.
  unfold correctness. rewrite zip_with_drop, zip_with_take.
  by rewrite sum_eq01.
Qed.

Lemma at3_array3_elem {A} (N S h n s t : nat) (vals : list A) (z : A) :
  at3 (array3 N S h vals) n s t = Some z → z ∈ vals.
Proof.
  unfold at3, at2, array3. rewrite list_lookup_fmap.
  destruct (chunks (S * h) N vals !! n) as [c|] eqn:Hc; [|done]. simpl.
  destruct (chunks h S c !! s) as [l|] eqn:Hl; [|done]. intros Hz.
  assert (∀ k m (u v : list A) i, chunks k m u !! i = Some v → v `sublist_of` u)
    as Hsub.
  { clear. intros k m. induction m as [|m IH]; intros u v i; [done|].
    destruct i as [|i]; simpl.
    - intros H. injection H as <-. apply sublist_take.
    - intros H. etrans; [by eapply IH|]. apply sublist_drop. }
  eapply elem_of_sublist; [|eapply Hsub; exact Hc].
  eapply elem_of_sublist; [|eapply Hsub; exact Hl].
  by eapply list_elem_of_lookup_2.
Qed.

(** C3. The binarised prediction is 1 exactly when the probability is
    strictly above one half, so one half itself gives 0; and the timeline
    bit of a sample and an asset is 1 exactly when the fraction of its [h]
    horizons that are correct is strictly above one half, so a fraction of
    exactly one half gives 0. *)
Theorem C3_strict_thresholds (this : GRUModel.t) (X y : Tensor float)
    (syms : list string) (h : nat) (m : Tensor float → Tensor float)
    (N : nat) (rest : list nat) (r : GRUModel.Evaluation) :
  GRUModel.model this = Some m → shape (m X) = N :: rest →
  GRUModel.evaluateTestSet this X y syms h = Ok r →
  (∀ n s t, n < N → s < length syms → t < h →
     at3 (GRUModel.predArr r) n s t
     = threshold 0.5 <$> values (m X) !! ((n * length syms + s) * h + t))
  ∧ (∀ p, threshold 0.5 p = 1%Z ↔ gt p 0.5 = true)
  ∧ threshold 0.5 0.5 = 0%Z
  ∧ (∀ n s, n < N → s < length syms →
       ∃ ps ts b,
         at2 (GRUModel.predArr r) n s = Some ps
         ∧ at2 (GRUModel.truthArr r) n s = Some ts
         ∧ at2 (GRUModel.perStockTimeline r) s n = Some b
         ∧ (b = 1%Z ↔
            (1 # 2 < inject_Z (Z.of_nat (correctCount ps ts))
                     / inject_Z (Z.of_nat h))%Q)
         ∧ (b = 0%Z ↔
            (inject_Z (Z.of_nat (correctCount ps ts))
             / inject_Z (Z.of_nat h) <= 1 # 2)%Q))
  ∧ greaterHalf (1 # 2) = 0%Z.
Proof.
  intros Hm Hsh Hev.
  apply evaluateTestSet_Ok in Hev as (m' & N' & rest' & Hm' & Hsh' & _ & _ & ->).
  assert (m' = m) as -> by congruence.
  assert (N' = N) as -> by congruence.
  cbn [evaluationOf GRUModel.predArr GRUModel.truthArr
       GRUModel.perStockTimeline].
  split; [|split; [|split; [|split]]].
  - intros n s t Hn Hs Ht. rewrite array3_lookup3 by done.
    by rewrite list_lookup_fmap.
  - intros p. unfold threshold. by destruct (gt p 0.5).
  - by vm_compute.
  - intros n s Hn Hs.
    destruct (timeline_entry (m X) y N (length syms) h n s Hn Hs)
      as (ps & ts & Hps & Hts & Htl).
    eexists ps, ts, _. split; [done|]. split; [done|]. split; [exact Htl|].
    apply greaterHalf_spec.
  - by vm_compute.
Qed.

(** C4, as stated, fails: for the probability 0.75 the returned array
    holds 1. *)
Lemma C4_counterexample :
  ¬ returnsRawProbabilities EvalScenario.gru EvalScenario.X_test
      EvalScenario.truths EvalScenario.symbols 2.
Proof.
  intros H.
  specialize (H (evaluationOf EvalScenario.probabilities EvalScenario.truths
                   2 2 2) (λ _, EvalScenario.probabilities) 2 [4]).
  assert (∀ a b : list (list (list float)), a = b →
            match at3 a 0 0 1 with
            | Some v => PrimFloat.eqb v 0.75
            | None => false
            end
            = match at3 b 0 0 1 with
              | Some v => PrimFloat.eqb v 0.75
              | None => false
              end) as Hf by by intros a b ->.
  apply Hf in H; [|by vm_compute..].
  vm_compute in H. discriminate.
Qed.

(** C4, amended. The [predArr] component holds the thresholded
    predictions, each 0 or 1: the value at [[n][s][t]] is the threshold of
    the probability at [(n*S + s)*h + t] (asset-major, horizon-minor). *)
Theorem C4_predArr_is_thresholded (this : GRUModel.t) (X y : Tensor float)
    (syms : list string) (h : nat) (m : Tensor float → Tensor float)
    (N : nat) (rest : list nat) (r : GRUModel.Evaluation) :
  GRUModel.model this = Some m → shape (m X) = N :: rest →
  GRUModel.evaluateTestSet this X y syms h = Ok r →
  GRUModel.predArr r
  = array3 N (length syms) h (map (threshold 0.5) (values (m X)))
  ∧ (∀ n s t, n < N → s < length syms → t < h →
       at3 (GRUModel.predArr r) n s t
       = threshold 0.5 <$> values (m X) !! ((n * length syms + s) * h + t))
  ∧ (∀ n s t z, at3 (GRUModel.predArr r) n s t = Some z →
       z = 0%Z ∨ z = 1%Z).
Proof.
  intros Hm Hsh Hev.
  apply evaluateTestSet_Ok in Hev as (m' & N' & rest' & Hm' & Hsh' & _ & _ & ->).
  assert (m' = m) as -> by congruence.
  assert (N' = N) as -> by congruence.
  cbn [evaluationOf GRUModel.predArr]. split; [done|]. split.
  - intros n s t Hn Hs Ht. rewrite array3_lookup3 by done.
    by rewrite list_lookup_fmap.
  - intros n s t z Hz. apply at3_array3_elem in Hz.
    apply list_elem_of_fmap in Hz as (p & -> & _).
    unfold threshold. destruct (gt p 0.5); auto.
Qed.

(** C8, as stated, fails in both directions: without a built model the
    evaluation throws although no matrix is mismatched, and with no sample
    it succeeds although the matrices are five columns wide where four are
    declared. *)
Lemma C8_counterexample :
  ¬ failsOnlyOnShapeMismatch EvalScenario.unbuilt EvalScenario.X_test
      EvalScenario.truths EvalScenario.symbols 2
  ∧ ¬ failsOnlyOnShapeMismatch EvalScenario.emptyWide EvalScenario.X_test
        EvalScenario.noTruths EvalScenario.symbols 2.
Proof.
  split; intros [H1 H2].
  - assert (is_ok (GRUModel.evaluateTestSet EvalScenario.unbuilt
              EvalScenario.X_test EvalScenario.truths
              EvalScenario.symbols 2) = true); [|done].
    apply H2. split; [intros m Hm; discriminate|]. by exists 2.
  - destruct H1 as [_ [N HN]]; [by vm_compute|].
    injection HN as _ HN. discriminate.
Qed.

(** C8, amended. The evaluator throws a plain [Error] (there is no typed
    shape error) in exactly two situations: no model has been built, or the
    element count of the predicted or of the truth matrix differs from
    [N*S*h], [N] being the number of predicted rows. In every other case it
    returns a result. *)
Theorem C8_evaluation_failures (this : GRUModel.t) (X y : Tensor float)
    (syms : list string) (h : nat) :
  match GRUModel.evaluateTestSet this X y syms h with
  | Ok r =>
      ∃ m N rest, GRUModel.model this = Some m ∧ shape (m X) = N :: rest
        ∧ N * length syms * h = sizeOf (shape (m X))
        ∧ N * length syms * h = sizeOf (shape y)
  | Throw e =>
      (GRUModel.model this = None ∧ e = GRUModel.not_built)
      ∨ (∃ m, GRUModel.model this = Some m
           ∧ e = Error "Size must match the product of shape"
           ∧ (shape (m X) = []
              ∨ ∃ N rest, shape (m X) = N :: rest
                  ∧ (N * length syms * h ≠ sizeOf (shape (m X))
                     ∨ N * length syms * h ≠ sizeOf (shape y))))
  end.
Proof.
  destruct (GRUModel.evaluateTestSet this X y syms h) as [r|e] eqn:Hev.
  - apply evaluateTestSet_Ok in Hev as (m & N & rest & ? & ? & ? & ? & _).
    by exists m, N, rest.
  - destruct (GRUModel.model this) as [m|] eqn:Hm.
    + right. exists m. split; [done|].
      destruct (shape (m X)) as [|N rest] eqn:Hsh.
      * unfold GRUModel.evaluateTestSet, GRUModel.predict in Hev.
        rewrite Hm in Hev. run_binds_in Hev.
        unfold GRUModel.shape0 in Hev. rewrite Hsh in Hev.
        injection Hev as <-. auto.
      * destruct (decide (N * length syms * h = sizeOf (shape (m X)))) as [E1|E1];
        [destruct (decide (N * length syms * h = sizeOf (shape y))) as [E2|E2]|].
        -- assert (GRUModel.evaluateTestSet this X y syms h
                   = Ok (evaluationOf (m X) y N (length syms) h)) as Hok.
           { apply evaluateTestSet_Ok. by exists m, N, rest. }
           congruence.
        -- unfold GRUModel.evaluateTestSet, GRUModel.predict in Hev.
           rewrite Hm in Hev. run_binds_in Hev.
           unfold GRUModel.shape0 in Hev. rewrite Hsh in Hev.
           run_binds_in Hev. unfold reshape in Hev. rewrite sizeOf3 in Hev.
           cbn [shape toInt greaterInt tmap] in Hev.
           rewrite Hsh in E1. rewrite Hsh, <- E1, Nat.eqb_refl in Hev.
           run_binds_in Hev.
           destruct (Nat.eqb_spec (N * length syms * h) (sizeOf (shape y)));
             [done|].
           injection Hev as <-. split; [done|]. right.
           exists N, rest. split; [done|]. by right.
        -- unfold GRUModel.evaluateTestSet, GRUModel.predict in Hev.
           rewrite Hm in Hev. run_binds_in Hev.
           unfold GRUModel.shape0 in Hev. rewrite Hsh in Hev.
           run_binds_in Hev. unfold reshape in Hev. rewrite sizeOf3 in Hev.
           cbn [shape toInt greaterInt tmap] in Hev.
           rewrite Hsh in E1. rewrite Hsh in Hev.
           destruct (Nat.eqb_spec (N * length syms * h) (sizeOf (N :: rest)));
             [done|].
           injection Hev as <-. split; [done|]. right.
           exists N, rest. split; [done|]. by left.
    + left. split; [done|].
      unfold GRUModel.evaluateTestSet, GRUModel.predict in Hev.
      rewrite Hm in Hev. by injection Hev as <-.
Qed.

(** ** The symbol-count warning *)

Lemma warned_log m this :
  warned (log m this) ↔
  warned this ∨ (logger this = true ∧ ∃ n, m = MsgSymbolWarning n).
Proof.
  unfold warned. rewrite logged_log. destruct (logger this).
  - split.
    + intros [n Hn]. apply elem_of_app in Hn as [Hn|Hn]; [left; eauto|].
      apply list_elem_of_singleton in Hn. right. eauto.
    + intros [[n Hn]|[_ [n ->]]]; exists n; apply elem_of_app; [by left|].
      right. by apply list_elem_of_singleton.
  - split; [by left|]. by intros [?|[? _]].
Qed.

Lemma warned_set_loaded this syms ds pss ns r :
  warned (set_loaded this syms ds pss ns r) ↔ warned this.
Proof. done. Qed.

Lemma logger_set_loaded this syms ds pss ns r :
  logger (set_loaded this syms ds pss ns r) = logger this.
Proof. done. Qed.

Lemma symbols_set_loaded this syms ds pss ns r :
  symbols (set_loaded this syms ds pss ns r) = syms.
Proof. done. Qed.

Lemma logged_set_loaded this syms ds pss ns r :
  logged (set_loaded this syms ds pss ns r) = logged this.
Proof. done. Qed.

Lemma elem_of_warningsOf (n : nat) (l : list LogMsg) :
  MsgSymbolWarning n ∈ l ↔ n ∈ warningsOf l.
Proof.
  unfold warningsOf. rewrite list_elem_of_omap. split.
  - intros H. by exists (MsgSymbolWarning n).
  - intros (m & Hm & Hn). destruct m; try discriminate.
    by injection Hn as ->.
Qed.

Lemma received_app (before after : DataLoader.t) (l : list LogMsg) :
  logged after = logged before ++ l → received before after = l.
Proof. intros H. unfold received. by rewrite H, drop_app_length. Qed.

Section Warning.
Variable Date_parse : string → option Z.
Variable toISOString : Z → string.

(** What a load passes to the logger: the announcement, the parse errors
    if there are any, and after the rows have been read the warning, if the
    symbols are not 10, and the summary. *)
Lemma loadFromCSVText_received this parsed :
  let out := loadFromCSVText Date_parse toISOString this parsed in
  logged (fst out) = logged this ++ received this (fst out)
  ∧ warningsOf (received this (fst out))
    = if logger this && is_ok (snd out)
         && negb (Nat.eqb (length (symbols (fst out))) 10)
      then [length (symbols (fst out))] else [].
Proof.
  intros out.
  assert (∃ l, logged (fst out) = logged this ++ l
               ∧ warningsOf l
                 = if logger this && is_ok (snd out)
                      && negb (Nat.eqb (length (symbols (fst out))) 10)
                   then [length (symbols (fst out))] else []) as (l & Hl & Hw).
  { subst out. unfold loadFromCSVText.
    destruct (filter (λ r, validRow r = true) (data parsed)) as [|r0 rs].
    - cbn [fst snd is_ok]. rewrite andb_false_r. cbn [andb].
      destruct (errors parsed) as [|e es];
        rewrite ?logged_log, ?logger_log; destruct (logger this);
        eexists;
        (split; [first [ reflexivity
                       | exact (eq_sym (app_nil_r _))
                       | rewrite <- !app_assoc; reflexivity ]
                | done]).
    - set (rows := map (normalizeRow Date_parse toISOString) (r0 :: rs)).
      set (syms := sort String.ltb (distinct (map Symbol rows))).
      cbn [fst snd is_ok]. rewrite andb_true_r.
      rewrite symbols_log, symbols_set_loaded.
      destruct (Nat.eqb (length syms) 10); cbn [negb];
        rewrite ?andb_true_r, ?andb_false_r;
        destruct (errors parsed) as [|e es];
        rewrite ?logged_log, ?logger_log, ?logged_set_loaded,
          ?logger_set_loaded, ?logged_log, ?logger_log,
          ?logged_set_loaded, ?logger_set_loaded, ?logged_log, ?logger_log,
          ?logged_log, ?logger_log;
        destruct (logger this);
        eexists;
        (split; [first [ reflexivity
                       | exact (eq_sym (app_nil_r _))
                       | rewrite <- !app_assoc; reflexivity ]
                | done]). }
  rewrite (received_app this (fst out) l Hl). done.
Qed.

(** C9, amended. The expected count is the constant 10 and no option
    changes it: whatever the object has been through, a load passes the
    warning to the logger exactly when a logger is installed, the load
    succeeds and the number of distinct symbols is not 10, and the warning
    carries this number; on a newly constructed object, whatever its
    options, with a logger or without, the history then holds a warning in
    exactly this case. *)
Theorem C9_warning_iff_not_ten (this : DataLoader.t) (parsed : Parsed) :
  let out := loadFromCSVText Date_parse toISOString this parsed in
  let news := received this (fst out) in
  logged (fst out) = logged this ++ news
  ∧ ((∃ n, MsgSymbolWarning n ∈ news) ↔
     logger this = true ∧ is_ok (snd out) = true
     ∧ length (symbols (fst out)) ≠ 10)
  ∧ (∀ n, MsgSymbolWarning n ∈ news → n = length (symbols (fst out)))
  ∧ (∀ opts, this = constructor opts ∨ this = setLogger (constructor opts) →
       (warned (fst out) ↔
        logger this = true ∧ is_ok (snd out) = true
        ∧ length (symbols (fst out)) ≠ 10)).
Proof.
  intros out news.
  destruct (loadFromCSVText_received this parsed) as [Hl Hw].
  fold out in Hl, Hw. fold news in Hl, Hw.
  assert ((∃ n, MsgSymbolWarning n ∈ news) ↔
          logger this = true ∧ is_ok (snd out) = true
          ∧ length (symbols (fst out)) ≠ 10) as Hiff.
  { split.
    - intros [n Hn]. apply elem_of_warningsOf in Hn. rewrite Hw in Hn.
      destruct (logger this); [|by apply elem_of_nil in Hn].
      destruct (is_ok (snd out)); [|by apply elem_of_nil in Hn].
      destruct (Nat.eqb_spec (length (symbols (fst out))) 10);
        [by apply elem_of_nil in Hn|done].
    - intros (Hlg & Hok & Hne). exists (length (symbols (fst out))).
      apply elem_of_warningsOf. rewrite Hw, Hlg, Hok.
      destruct (Nat.eqb_spec (length (symbols (fst out))) 10); [done|].
      by left. }
  split; [exact Hl|]. split; [exact Hiff|]. split.
  - intros n Hn. apply elem_of_warningsOf in Hn. rewrite Hw in Hn.
    destruct (_ && _ && _); [|by apply elem_of_nil in Hn].
    by apply list_elem_of_singleton in Hn.
  - intros opts Hfresh. rewrite <- Hiff. unfold warned. rewrite Hl.
    by destruct Hfresh as [-> | ->].
Qed.

End Warning.

(** C9, as stated, fails: two symbols are what the options announce, and
    the warning is emitted all the same. *)
Lemma C9_counterexample :
  ¬ warnsOnConfiguredMismatch IsoDate.parse IsoDate.toISOString
      (mkOptions (Some 2) (Some 1) (Some 2)) Scenario.parsed.
Proof.
  unfold warnsOnConfiguredMismatch. cbv zeta. intros H.
  specialize (H 2 eq_refl).
  set (this := fst (loadFromCSVText _ _ _ _)) in H.
  assert (logged this = [MsgParsing; MsgSymbolWarning 2; MsgParsed 12 2 6])
    as Hlog by (vm_compute; reflexivity).
  assert (length (symbols this) = 2) as Hlen by (vm_compute; reflexivity).
  clearbody this. destruct H as [H _]. apply H; [|exact Hlen].
  exists 2. rewrite Hlog. set_solver.
Qed.

(** ** Duplicated rows and the lookup map *)

Lemma fold_insert_last {R V} (kf : R → string) (vf : R → V) (rs : list R)
    (m0 : gmap string V) (k : string) :
  fold_left (λ m r, <[kf r := vf r]> m) rs m0 !! k
  = match last (filter (λ r, kf r = k) rs) with
    | Some r => Some (vf r)
    | None => m0 !! k
    end.
Proof.
  induction rs as [|r rs IH] using rev_ind; [done|].
  rewrite fold_left_app, filter_app. simpl.
  destruct (decide (kf r = k)) as [Hk|Hk].
  - rewrite filter_cons_True by done. rewrite filter_nil, last_snoc.
    rewrite Hk. by rewrite lookup_insert_eq.
  - rewrite filter_cons_False by done. rewrite filter_nil, app_nil_r.
    by rewrite lookup_insert_ne.
Qed.

(** The lookup map holds, under a key, the last row that has this key. *)
Lemma buildLookup_last (rs : list Row) (k : string) :
  buildLookup rs !! k
  = (λ r, (Open r, Close r))
      <$> last (filter (λ r, key (Symbol r) (Date r) = k) rs).
Proof.
  unfold buildLookup.
  rewrite (fold_insert_last (λ r, key (Symbol r) (Date r))
             (λ r, (Open r, Close r))).
  by destruct (last _).
Qed.

Lemma seriesOf_lookup lookup ds sym j d :
  ds !! j = Some d →
  seriesOf lookup ds sym !! j
  = Some (match lookup !! key sym d with
          | Some v => mkPoint d (fst v) (snd v)
          | None => mkPoint d PrimFloat.nan PrimFloat.nan
          end).
Proof. intros Hd. unfold seriesOf. by rewrite list_lookup_fmap, Hd. Qed.

Lemma elem_of_distinct_acc (xs acc : list string) (x : string) :
  x ∈ fold_left set_add xs acc ↔ x ∈ acc ∨ x ∈ xs.
Proof.
  revert acc. induction xs as [|a xs IH]; intros acc; simpl.
  - split; [by left|]. intros [?|H]; [done|]. by apply elem_of_nil in H.
  - rewrite IH. unfold set_add. case_bool_decide as Ha.
    + rewrite elem_of_cons. split; [intros [?|?]; auto|].
      intros [?|[->|?]]; auto.
    + rewrite elem_of_app, list_elem_of_singleton, elem_of_cons.
      split; [intros [[?|?]|?]; auto|]. intros [?|[?|?]]; auto.
Qed.

Lemma elem_of_distinct (xs : list string) (x : string) :
  x ∈ distinct xs ↔ x ∈ xs.
Proof.
  unfold distinct. rewrite elem_of_distinct_acc. split; [|by right].
  intros [H|?]; [|done]. by apply elem_of_nil in H.
Qed.

Lemma elem_of_insert_sorted {A} (before : A → A → bool) (x y : A) (l : list A) :
  y ∈ insert_sorted before x l ↔ y = x ∨ y ∈ l.
Proof.
  induction l as [|a l IH]; simpl.
  - rewrite list_elem_of_singleton. split; [by left|].
    intros [?|H]; [done|]. by apply elem_of_nil in H.
  - destruct (before x a).
    + by rewrite elem_of_cons.
    + rewrite !elem_of_cons, IH. split; [intros [?|[?|?]]; auto|].
      intros [?|[?|?]]; auto.
Qed.

Lemma elem_of_sort {A} (before : A → A → bool) (l : list A) (y : A) :
  y ∈ sort before l ↔ y ∈ l.
Proof.
  unfold sort.
  assert (∀ acc, y ∈ fold_left (λ acc x, insert_sorted before x acc) l acc
                 ↔ y ∈ acc ∨ y ∈ l) as H.
  { induction l as [|a l IH]; intros acc; simpl.
    - split; [by left|]. intros [?|H]; [done|]. by apply elem_of_nil in H.
    - rewrite IH, elem_of_insert_sorted, elem_of_cons.
      split; [intros [[?|?]|?]; auto|]. intros [?|[?|?]]; auto. }
  rewrite H. split; [|by right]. intros [H'|?]; [|done].
  by apply elem_of_nil in H'.
Qed.

Lemma filter_ext_elem {A} (P Q : A → Prop) `{!∀ x, Decision (P x)}
    `{!∀ x, Decision (Q x)} (l : list A) :
  (∀ x, x ∈ l → P x ↔ Q x) → filter P l = filter Q l.
Proof.
  induction l as [|a l IH]; intros Hpq; [done|].
  assert (filter P l = filter Q l) as IH'.
  { apply IH. intros x Hx. apply Hpq. by right. }
  destruct (decide (P a)) as [Ha|Ha].
  - rewrite !filter_cons_True; [by rewrite IH'| |done].
    apply Hpq; [by left|done].
  - rewrite !filter_cons_False; [done| |done].
    intros Hq. apply Ha, Hpq; [by left|done].
Qed.

Section Duplicates.
Variable Date_parse : string → option Z.
Variable toISOString : Z → string.

(** A successful load exists as soon as one row passes the filter: rows
    that repeat a symbol and a date never make it throw. *)
Lemma loadFromCSVText_total this parsed :
  filter (λ r, validRow r = true) (data parsed) ≠ [] →
  ∃ this' r, loadFromCSVText Date_parse toISOString this parsed = (this', Ok r).
Proof.
  intros Hne. unfold loadFromCSVText.
  destruct (filter _ (data parsed)); [done|]. eauto.
Qed.

(** When no other (symbol, date) pair of the input shares the key of
    [(sym, d)], the slot of [sym] at date [d] holds the open and close of
    the last row with this symbol and this date. *)
Lemma last_duplicate_wins this parsed this' r sym d j row :
  loadFromCSVText Date_parse toISOString this parsed = (this', Ok r) →
  (∀ r1, r1 ∈ loadedRows Date_parse toISOString parsed →
         key (Symbol r1) (Date r1) = key sym d →
         Symbol r1 = sym ∧ Date r1 = d) →
  last (filter (λ r1, Symbol r1 = sym ∧ Date r1 = d)
               (loadedRows Date_parse toISOString parsed)) = Some row →
  dates this' !! j = Some d →
  ∃ ser, perSymbolSeries this' !! sym = Some ser
         ∧ ser !! j = Some (mkPoint d (Open row) (Close row)).
Proof.
  intros Hload Hinj Hlast Hd.
  apply loadFromCSVText_Ok in Hload as (_ & _ & Hsym & Hds & Hpss & _).
  set (rows := loadedRows Date_parse toISOString parsed) in *.
  assert (row ∈ rows ∧ Symbol row = sym ∧ Date row = d) as (Hrow & Hs & _).
  { apply last_Some in Hlast as [l' Hl'].
    assert (row ∈ filter (λ r1, Symbol r1 = sym ∧ Date r1 = d) rows) as Hin.
    { rewrite Hl'. apply elem_of_app. right. by apply list_elem_of_singleton. }
    apply list_elem_of_filter in Hin as [[? ?] ?]. done. }
  assert (sym ∈ loadedSymbols Date_parse toISOString parsed) as Hin.
  { unfold loadedSymbols. apply elem_of_sort, elem_of_distinct.
    rewrite <- Hs. apply list_elem_of_fmap. by exists row. }
  eexists. rewrite Hpss. split; [by apply buildSeries_lookup|].
  rewrite <- Hds. rewrite (seriesOf_lookup _ _ _ _ d Hd).
  rewrite buildLookup_last.
  assert (filter (λ r1, key (Symbol r1) (Date r1) = key sym d) rows
          = filter (λ r1, Symbol r1 = sym ∧ Date r1 = d) rows) as ->.
  { apply filter_ext_elem. intros r1 Hr1. split.
    - by apply Hinj.
    - by intros [-> ->]. }
  fold rows. rewrite Hlast. done.
Qed.

End Duplicates.

(** *** Keys of parseable dates do not clash *)

Lemma length_append (a b : string) :
  String.length (a +:+ b) = String.length a + String.length b.
Proof. induction a as [|c a IH]; simpl; [done|]. by rewrite IH. Qed.

Lemma length_substring0 (n : nat) (s : string) :
  n ≤ String.length s → String.length (substring 0 n s) = n.
Proof.
  revert s. induction n as [|n IH]; intros s Hn.
  - by destruct s.
  - destruct s as [|c s]; simpl in *; [lia|]. rewrite IH; [done|lia].
Qed.

Lemma key_inj_same_length (s1 s2 d1 d2 : string) :
  String.length d1 = String.length d2 →
  key s1 d1 = key s2 d2 → s1 = s2 ∧ d1 = d2.
Proof.
  intros Hlen. unfold key. revert s2.
  induction s1 as [|a s1 IH]; intros [|b s2] Hk; simpl in Hk.
  - injection Hk as Hk. by subst.
  - apply (f_equal String.length) in Hk. simpl in Hk.
    rewrite !length_append in Hk. simpl in Hk. lia.
  - apply (f_equal String.length) in Hk. simpl in Hk.
    rewrite !length_append in Hk. simpl in Hk. lia.
  - injection Hk as -> Hk. destruct (IH s2 Hk) as [-> ->]. done.
Qed.

Section ParseableDates.
Variable Date_parse : string → option Z.
Variable toISOString : Z → string.

(** [toISOString] prints at least the ten characters of the day. *)
Hypothesis toISOString_long : ∀ z, 10 ≤ String.length (toISOString z).

Lemma length_normalizeDate s :
  parseable Date_parse s →
  String.length (normalizeDate Date_parse toISOString s) = 10.
Proof.
  intros Hp. unfold normalizeDate, isoDay.
  destruct (Date_parse s) as [z|] eqn:E.
  - by apply length_substring0.
  - destruct Hp as [[? ?]|[z Hz]]; [congruence|]. rewrite Hz.
    by apply length_substring0.
Qed.

(** With parseable dates, the slot of a symbol at a date holds the open
    and close of the last row that has this symbol and this date. *)
Lemma last_duplicate_wins_parseable this parsed this' r sym d j row :
  (∀ r1, r1 ∈ data parsed → validRow r1 = true →
         parseable Date_parse (Date r1)) →
  loadFromCSVText Date_parse toISOString this parsed = (this', Ok r) →
  last (filter (λ r1, Symbol r1 = sym ∧ Date r1 = d)
               (loadedRows Date_parse toISOString parsed)) = Some row →
  dates this' !! j = Some d →
  ∃ ser, perSymbolSeries this' !! sym = Some ser
         ∧ ser !! j = Some (mkPoint d (Open row) (Close row)).
Proof.
  intros Hparse Hload Hlast Hd.
  assert (∀ r1, r1 ∈ loadedRows Date_parse toISOString parsed →
                String.length (Date r1) = 10) as Hlen.
  { intros r1 Hr1. unfold loadedRows in Hr1.
    apply list_elem_of_fmap in Hr1 as (r0 & -> & Hr0).
    apply list_elem_of_filter in Hr0 as [Hv Hr0].
    simpl. apply length_normalizeDate. by apply Hparse. }
  assert (String.length d = 10) as Hd10.
  { apply last_Some in Hlast as [l' Hl'].
    assert (row ∈ filter (λ r1, Symbol r1 = sym ∧ Date r1 = d)
                     (loadedRows Date_parse toISOString parsed)) as Hin.
    { rewrite Hl'. apply elem_of_app. right. by apply list_elem_of_singleton. }
    apply list_elem_of_filter in Hin as [[_ <-] Hin]. by apply Hlen. }
  eapply last_duplicate_wins; try done.
  intros r1 Hr1 Hk. apply key_inj_same_length in Hk; [done|].
  rewrite Hd10. by apply Hlen.
Qed.

End ParseableDates.

(** C10. Rows that repeat a symbol and a date never make the load fail, but
    the slot does not always hold the last of them: the key of the lookup
    map joins symbol and date with [||], so the row of symbol [A|] on date
    [x] lands on the key of symbol [A] on date [|x] and replaces its
    values. *)
Theorem C10_key_clash_replaces_last_duplicate :
  is_ok (snd (loadFromCSVText IsoDate.parse IsoDate.toISOString
                (constructor (mkOptions None None None))
                ClashScenario.parsed)) = true
  ∧ key "A" "|x" = key "A|" "x"
  ∧ ClashScenario.lastDuplicate = Some (mkRow "|x" "A" 2 2)
  ∧ ∃ j ser, dates ClashScenario.loaded !! j = Some "|x"
      ∧ perSymbolSeries ClashScenario.loaded !! "A" = Some ser
      ∧ ser !! j = Some (mkPoint "|x" 3 3).
Proof.
  repeat split; try (vm_compute; reflexivity).
  exists 0. eexists. repeat split; vm_compute; reflexivity.
Qed.

(** ** Normalisation *)

(** The normaliser of a symbol of a loaded object is computed from the
    whole series of this symbol. *)
Lemma normalizer_of_series (Date_parse : string → option Z)
    (toISOString : Z → string) this parsed this' r s sym :
  loadFromCSVText Date_parse toISOString this parsed = (this', Ok r) →
  symbols this' !! s = Some sym →
  ∃ ser, perSymbolSeries this' !! sym = Some ser
         ∧ normalizers this' !! sym = Some (normalizerOf ser).
Proof.
  intros Hload Hs.
  apply loadFromCSVText_Ok in Hload as (_ & _ & Hsym & Hds & Hpss & Hns & _).
  assert (sym ∈ loadedSymbols Date_parse toISOString parsed) as Hin.
  { rewrite <- Hsym. by eapply list_elem_of_lookup_2. }
  eexists. split.
  - rewrite Hpss. by apply buildSeries_lookup.
  - rewrite Hns, buildNormalizers_lookup by done.
    rewrite Hpss, buildSeries_lookup by done. done.
Qed.

(** C7. For a series that stays at 2e10 the zero-range guard has no
    effect: [min + 1e-6] rounds back to [min], the range is zero, every
    normalised open is NaN, and so is the value mapped back from it. *)
Theorem C7_zero_range_guard_absorbed :
  openMin FlatScenario.normalizerA = FlatScenario.price
  ∧ strict_eq (FlatScenario.price + eps) FlatScenario.price = true
  ∧ strict_eq (openMax FlatScenario.normalizerA)
              (openMin FlatScenario.normalizerA) = true
  ∧ map (λ v, Number_isNaN (open v)) FlatScenario.seriesA
    = [false; false; false; false]
  ∧ map (λ v, Number_isNaN (FlatScenario.normalizedOpen v)) FlatScenario.seriesA
    = [true; true; true; true]
  ∧ map (λ v, Number_isNaN (FlatScenario.restoredOpen v)) FlatScenario.seriesA
    = [true; true; true; true]
  ∧ map input <$> collectSamples FlatScenario.loaded
    = Ok [[[PrimFloat.nan; PrimFloat.nan]; [PrimFloat.nan; PrimFloat.nan]];
          [[PrimFloat.nan; PrimFloat.nan]; [PrimFloat.nan; PrimFloat.nan]]].
Proof. repeat split; vm_compute; reflexivity. Qed.

(** ** The worked scenarios, run through the theorems *)

Lemma Scenario_load :
  loadFromCSVText IsoDate.parse IsoDate.toISOString Scenario.fresh
    Scenario.parsed
  = (Scenario.loaded,
     Ok (["A"; "B"],
         ["2024-01-01"; "2024-01-02"; "2024-01-03";
          "2024-01-04"; "2024-01-05"; "2024-01-06"])).
Proof. vm_compute. reflexivity. Qed.

Lemma Scenario_Loaded : Loaded Scenario.loaded.
Proof. exact (loadFromCSVText_Loaded _ _ _ _ _ _ Scenario_load). Qed.

Lemma Scenario_samples : collectSamples Scenario.loaded = Ok Scenario.samples.
Proof. vm_compute. reflexivity. Qed.


(** The scenario has the anchors 1 to 4 and no other. *)
Lemma C2_witness :
  ∃ smp, collectSamples Scenario.loaded = Ok smp
         ∧ ∀ i, i ∈ map anchor smp ↔ validAnchor Scenario.loaded i.
Proof.
  apply (C2_anchor_emitted_iff_valid Scenario.loaded). exact Scenario_Loaded.
Defined.

(** At the anchor 1 the close of A falls from 11 to 9: the label is 0. *)
Lemma C1_witness :
  length (output Scenario.sample1)
  = length (symbols Scenario.loaded) * forecastHorizon Scenario.loaded
  ∧ output Scenario.sample1 !! (0 * forecastHorizon Scenario.loaded + (1 - 1))
    = Some (if gt (close (Scenario.pointA 2)) (close (Scenario.pointA 1))
            then 1%float else 0%float)
  ∧ (strict_eq (close (Scenario.pointA 1)) (close (Scenario.pointA 2)) = true →
     output Scenario.sample1 !! (0 * forecastHorizon Scenario.loaded + (1 - 1))
     = Some 0%float).
Proof.
  apply (C1_label_is_strict_rise Scenario.loaded Scenario.samples
           Scenario.sample1 0 1 Scenario.seriesA
           (Scenario.pointA 1) (Scenario.pointA 2)).
  - exact Scenario_samples.
  - vm_compute. constructor.
  - vm_compute. lia.
  - vm_compute. lia.
  - vm_compute. reflexivity.
  - vm_compute. reflexivity.
  - vm_compute. reflexivity.
Defined.


Lemma EvalScenario_result :
  GRUModel.evaluateTestSet EvalScenario.gru EvalScenario.X_test
    EvalScenario.truths EvalScenario.symbols 2
  = Ok (evaluationOf EvalScenario.probabilities EvalScenario.truths 2 2 2).
Proof. vm_compute. reflexivity. Qed.

(** In the worked evaluation the probability one half of sample 0, asset
    A becomes 0, and with one horizon of two correct the timeline bit of this
    sample and asset is 0. *)
Lemma C3_witness :
  at3 (GRUModel.predArr
         (evaluationOf EvalScenario.probabilities EvalScenario.truths 2 2 2))
      0 0 0
  = threshold 0.5 <$> Some 0.5%float
  ∧ ∃ ps ts b,
      at2 (GRUModel.predArr
             (evaluationOf EvalScenario.probabilities EvalScenario.truths
                2 2 2)) 0 0 = Some ps
      ∧ at2 (GRUModel.perStockTimeline
               (evaluationOf EvalScenario.probabilities EvalScenario.truths
                  2 2 2)) 0 0 = Some b
      ∧ (b = 0%Z ↔
         (inject_Z (Z.of_nat (correctCount ps ts)) / inject_Z (Z.of_nat 2)
          <= 1 # 2)%Q).
Proof.
  destruct (C3_strict_thresholds EvalScenario.gru EvalScenario.X_test
              EvalScenario.truths EvalScenario.symbols 2
              (λ _, EvalScenario.probabilities) 2 [4]
              (evaluationOf EvalScenario.probabilities EvalScenario.truths
                 2 2 2) eq_refl eq_refl EvalScenario_result)
    as (Hbin & _ & _ & Htl & _).
  split.
  - exact (Hbin 0 0 0 (le_n_S _ _ (le_S _ _ (le_n 0)))
             (le_n_S _ _ (le_S _ _ (le_n 0)))
             (le_n_S _ _ (le_S _ _ (le_n 0)))).
  - destruct (Htl 0 0 (le_n_S _ _ (le_S _ _ (le_n 0)))
                (le_n_S _ _ (le_S _ _ (le_n 0))))
      as (ps & ts & b & Hps & _ & Hb & _ & H0).
    exists ps, ts, b. split; [exact Hps|]. split; [exact Hb|]. exact H0.
Defined.

(** In the worked evaluation the probability 0.75 is returned as 1. *)
Lemma C4_witness :
  GRUModel.predArr
    (evaluationOf EvalScenario.probabilities EvalScenario.truths 2 2 2)
  = array3 2 (length EvalScenario.symbols) 2
      (map (threshold 0.5) (values EvalScenario.probabilities))
  ∧ (∀ n s t, n < 2 → s < length EvalScenario.symbols → t < 2 →
       at3 (GRUModel.predArr
              (evaluationOf EvalScenario.probabilities EvalScenario.truths
                 2 2 2)) n s t
       = threshold 0.5
           <$> values EvalScenario.probabilities
               !! ((n * length EvalScenario.symbols + s) * 2 + t))
  ∧ (∀ n s t z,
       at3 (GRUModel.predArr
              (evaluationOf EvalScenario.probabilities EvalScenario.truths
                 2 2 2)) n s t = Some z →
       z = 0%Z ∨ z = 1%Z).
Proof.
  apply (C4_predArr_is_thresholded EvalScenario.gru EvalScenario.X_test
           EvalScenario.truths EvalScenario.symbols 2
           (λ _, EvalScenario.probabilities) 2 [4]).
  - reflexivity.
  - reflexivity.
  - exact EvalScenario_result.
Defined.

(** In the worked evaluation the per-asset accuracies are 3/4 and 1/2 and
    the overall accuracy is 5/8, their mean. *)
Lemma C6_witness :
  ∃ acc,
    GRUModel.computePerStockAccuracy EvalScenario.truths
      EvalScenario.probabilities 2 2 = Ok acc
    ∧ length (GRUModel.acc_perStockAcc acc) = 2
    ∧ (Qabs (GRUModel.acc_overallAcc acc
             - sumQ (GRUModel.acc_perStockAcc acc) / inject_Z (Z.of_nat 2))
       <= 1 # 2097152)%Q.
Proof.
  apply (C6_overall_is_mean_of_assets EvalScenario.truths
           EvalScenario.probabilities 2 2 2).
  - reflexivity.
  - reflexivity.
  - reflexivity.
  - reflexivity.
  - lia.
  - lia.
  - lia.
  - vm_compute. reflexivity.
Defined.

(** ** The date axis of a loaded object is in chronological order *)

Section SortSorted.
Context {A : Type} (before : A → A → bool) (le : relation A) (D : A → Prop).
Context `{!Transitive le}.
Hypothesis before_le : ∀ a b, before a b = true → le a b.
Hypothesis not_before_le : ∀ a b, D a → D b → before a b = false → le b a.

Lemma insert_sorted_StronglySorted (x : A) (l : list A) :
  D x → Forall D l → StronglySorted le l →
  StronglySorted le (insert_sorted before x l).
Proof.
  intros Hx Hl Hs. induction Hs as [|y r Hr IH Hy]; simpl.
  - repeat constructor.
  - apply Forall_cons in Hl as [HDy HDr].
    destruct (before x y) eqn:Hb.
    + apply SSorted_cons; [by apply SSorted_cons|].
      apply List.Forall_cons; [by apply before_le|].
      eapply Forall_impl; [exact Hy|]. intros z Hz.
      etrans; [by apply before_le|done].
    + apply SSorted_cons; [by apply IH|].
      apply list.Forall_forall. intros z Hz.
      apply elem_of_insert_sorted in Hz as [->|Hz].
      * by apply not_before_le.
      * eapply list.Forall_forall; [exact Hy|done].
Qed.

Lemma sort_StronglySorted (l : list A) :
  Forall D l → StronglySorted le (sort before l).
Proof.
  intros Hl. unfold sort.
  assert (∀ acc, Forall D acc → StronglySorted le acc →
                 StronglySorted le
                   (fold_left (λ acc x, insert_sorted before x acc) l acc))
    as H.
  { induction Hl as [|x l Hx Hl IH]; intros acc Hacc Hs; simpl; [done|].
    apply IH.
    - apply list.Forall_forall. intros z Hz.
      apply elem_of_insert_sorted in Hz as [->|Hz]; [done|].
      eapply list.Forall_forall; [exact Hacc|done].
    - by apply insert_sorted_StronglySorted. }
  apply H; constructor.
Qed.

End SortSorted.

Section Chronology.
Variable Date_parse : string → option Z.
Variable toISOString : Z → string.

#[local] Instance chronological_trans :
  Transitive (chronological Date_parse).
Proof.
  intros a b c. unfold chronological.
  destruct (Date_parse a), (Date_parse b), (Date_parse c); try done. lia.
Qed.

(** When the engine reads back every normalised date, the date axis of a
    loaded object is sorted chronologically. *)
Lemma loadedDates_sorted (parsed : Parsed) :
  Forall (λ r, is_Some (Date_parse (Date r)))
         (loadedRows Date_parse toISOString parsed) →
  StronglySorted (chronological Date_parse)
    (loadedDates Date_parse toISOString parsed).
Proof.
  intros Hall. unfold loadedDates.
  apply (sort_StronglySorted _ _ (λ d, is_Some (Date_parse d))).
  - intros a b. unfold dateBefore, dateCompare, chronological.
    destruct (Date_parse a), (Date_parse b); try done.
    intros H. apply Z.ltb_lt in H. lia.
  - intros a b [x Hx] [y Hy]. unfold dateBefore, dateCompare, chronological.
    rewrite Hx, Hy. intros H. apply Z.ltb_ge in H. lia.
  - apply list.Forall_forall. intros d Hd.
    apply (proj1 (elem_of_distinct _ _)) in Hd.
    apply list_elem_of_fmap in Hd as (r & -> & Hr).
    eapply list.Forall_forall in Hall; [exact Hall|done].
Qed.

End Chronology.

(** The scenario of the specification, computed: the anchors are 1 to 4,
    the label vector of anchor 1 is [0, 1], and at 75 percent the first
    three samples train and the last one tests. *)
Example Scenario_computed :
  map anchor Scenario.samples = [1; 2; 3; 4]
  ∧ output Scenario.sample1 = [0%float; 1%float]
  ∧ trainSamples <$> snd Scenario.prepared = Ok 3%Z
  ∧ testSamples <$> snd Scenario.prepared = Ok 1%Z
  ∧ sampleDatesTrain <$> dataset (fst Scenario.prepared)
    = Some ["2024-01-02"; "2024-01-03"; "2024-01-04"]
  ∧ sampleDatesTest <$> dataset (fst Scenario.prepared)
    = Some ["2024-01-05"].
Proof. repeat split; vm_compute; reflexivity. Qed.

(** The worked evaluation, computed: asset A is right on 3 of its 4
    entries and asset B on 2 of 4, 5 of 8 overall; the timelines are
    [0, 1] for A and [1, 0] for B. *)
Example EvalScenario_computed :
  let r := evaluationOf EvalScenario.probabilities EvalScenario.truths 2 2 2 in
  map Qred (GRUModel.perStockAcc r) = [3 # 4; 1 # 2]%Q
  ∧ Qred (GRUModel.overallAcc r) = (5 # 8)%Q
  ∧ GRUModel.perStockTimeline r = [[0; 1]; [1; 0]]%Z
  ∧ GRUModel.predArr r = [[[0; 1]; [1; 0]]; [[1; 1]; [0; 0]]]%Z
  ∧ GRUModel.truthArr r = [[[1; 1]; [1; 0]]; [[1; 1]; [1; 1]]]%Z.
Proof. repeat split; vm_compute; reflexivity. Qed.

(** * Further properties of the loader *)

(** ** Sorting and the distinct elements *)

Lemma insert_sorted_Permutation {A} (before : A → A → bool) (x : A)
    (l : list A) :
  insert_sorted before x l ≡ₚ x :: l.
Proof.
  induction l as [|y l IH]; simpl; [done|].
  destruct (before x y); [done|]. rewrite IH. apply Permutation_swap.
Qed.

Lemma sort_Permutation {A} (before : A → A → bool) (l : list A) :
  sort before l ≡ₚ l.
Proof.
  unfold sort.
  enough (H : ∀ acc, fold_left (λ acc x, insert_sorted before x acc) l acc
                     ≡ₚ l ++ acc) by (rewrite H; by rewrite app_nil_r).
  induction l as [|x l IH]; intros acc; simpl; [done|].
  rewrite IH, insert_sorted_Permutation. symmetry. apply Permutation_middle.
Qed.

Lemma NoDup_distinct_acc (xs acc : list string) :
  NoDup acc → NoDup (fold_left set_add xs acc).
Proof.
  revert acc. induction xs as [|x xs IH]; intros acc Hacc; simpl; [done|].
  apply IH. unfold set_add. case_bool_decide; [done|].
  apply NoDup_app. split; [done|]. split; [|apply NoDup_singleton].
  intros y Hy Hy'. apply list_elem_of_singleton in Hy'. by subst.
Qed.

Lemma NoDup_distinct (xs : list string) : NoDup (distinct xs).
Proof. apply NoDup_distinct_acc. constructor. Qed.

Lemma NoDup_sort_distinct (before : string → string → bool)
    (xs : list string) :
  NoDup (sort before (distinct xs)).
Proof. rewrite sort_Permutation. apply NoDup_distinct. Qed.

(** The order on strings *)

Lemma ltb_compare (a b : string) :
  String.ltb a b = true ↔ String.compare a b = Lt.
Proof. unfold String.ltb. destruct (String.compare a b); split; congruence. Qed.

Lemma leb_compare (a b : string) :
  String.leb a b = true ↔ a = b ∨ String.compare a b = Lt.
Proof.
  unfold String.leb. destruct (String.compare a b) eqn:E.
  - apply String.compare_eq_iff in E. split; auto.
  - split; auto.
  - split; [discriminate|]. intros [->|?]; [|discriminate].
    assert (String.compare b b = Eq)
      by (by apply (proj2 (OrderedTypeEx.String_as_OT.cmp_eq b b))).
    congruence.
Qed.

Lemma compare_Lt_trans (a b c : string) :
  String.compare a b = Lt → String.compare b c = Lt → String.compare a c = Lt.
Proof.
  intros H1 H2.
  apply OrderedTypeEx.String_as_OT.cmp_lt in H1.
  apply OrderedTypeEx.String_as_OT.cmp_lt in H2.
  apply OrderedTypeEx.String_as_OT.cmp_lt.
  eapply OrderedTypeEx.String_as_OT.lt_trans; eassumption.
Qed.

#[local] Instance leb_trans : Transitive (λ a b, String.leb a b = true).
Proof.
  intros a b c Hab Hbc. apply leb_compare in Hab, Hbc. apply leb_compare.
  destruct Hab as [->|Hab]; [done|]. destruct Hbc as [<-|Hbc]; [by right|].
  right. by apply (compare_Lt_trans a b c).
Qed.

Lemma sort_strings_sorted (l : list string) :
  StronglySorted (λ a b, String.leb a b = true) (sort String.ltb l).
Proof.
  apply (sort_StronglySorted String.ltb _ (λ _, True)).
  - intros a b H. apply leb_compare. right. by apply ltb_compare.
  - intros a b _ _ H. apply leb_compare.
    destruct (String.compare b a) eqn:E.
    + left. by apply String.compare_eq_iff.
    + by right.
    + rewrite String.compare_antisym in E.
      assert (String.compare a b = Lt) by (by destruct (String.compare a b)).
      apply ltb_compare in H0. congruence.
  - by apply Forall_forall.
Qed.

Lemma sorted_NoDup_ascending (l : list string) :
  StronglySorted (λ a b, String.leb a b = true) l → NoDup l →
  StronglySorted ascending l.
Proof.
  induction 1 as [|x l Hs IH Hx]; intros Hnd; [constructor|].
  apply NoDup_cons in Hnd as [Hx' Hnd]. constructor; [by apply IH|].
  apply Forall_forall. intros y Hy.
  rewrite Forall_forall in Hx. specialize (Hx y Hy).
  apply leb_compare in Hx as [->|Hx]; [done|]. by apply ltb_compare.
Qed.

(** ** The outcome of a load *)

Lemma log_sameData m this : sameData (log m this) this.
Proof.
  unfold sameData, log. destruct (logger this) eqn:E; simpl; rewrite ?E; done.
Qed.

Lemma sameData_trans a b c : sameData a b → sameData b c → sameData a c.
Proof. unfold sameData. intros H1 H2. intuition congruence. Qed.

Section LoadOutcome.
Variable Date_parse : string → option Z.
Variable toISOString : Z → string.

Lemma loadFromCSVText_no_rows this parsed :
  filter (λ r, validRow r = true) (data parsed) = [] →
  snd (loadFromCSVText Date_parse toISOString this parsed)
  = Throw (Error "No valid rows in CSV")
  ∧ sameData (fst (loadFromCSVText Date_parse toISOString this parsed)) this.
Proof.
  intros H. unfold loadFromCSVText. cbv zeta. rewrite H. simpl.
  split; [done|]. destruct (errors parsed).
  - apply log_sameData.
  - eapply sameData_trans; apply log_sameData.
Qed.

Lemma loadFromFile_failure this file :
  is_ok (snd (loadFromFile Date_parse toISOString this file)) = false →
  sameData (fst (loadFromFile Date_parse toISOString this file)) this.
Proof.
  destruct file as [parsed|]; simpl; [|by intros _].
  destruct (filter (λ r, validRow r = true) (data parsed)) as [|r0 rs] eqn:E.
  - intros _. by apply loadFromCSVText_no_rows.
  - destruct (loadFromCSVText_total Date_parse toISOString this parsed)
      as (this' & r & Hl); [by rewrite E|].
    rewrite Hl. discriminate.
Qed.

(** X1.  A load succeeds exactly when a file is given and one of its rows
    passes the filter (a date, a symbol, and numeric open and close).  A
    failed load says which of the two was missing and leaves every field of
    the object as it was; without a file not even the logger is called. *)
Theorem load_succeeds_iff_valid_row (this : DataLoader.t)
    (file : option Parsed) :
  let out := loadFromFile Date_parse toISOString this file in
  (is_ok (snd out) = true ↔
   ∃ parsed r, file = Some parsed ∧ r ∈ data parsed ∧ validRow r = true)
  ∧ (∀ e, snd out = Throw e →
       sameData (fst out) this
       ∧ match file with
         | None => e = Error "No file provided" ∧ fst out = this
         | Some _ => e = Error "No valid rows in CSV"
         end).
Proof.
  destruct file as [parsed|]; simpl.
  - destruct (filter (λ r, validRow r = true) (data parsed)) as [|r0 rs] eqn:E.
    + destruct (loadFromCSVText_no_rows this parsed E) as [Hs Hd].
      split.
      * rewrite Hs. simpl. split; [discriminate|].
        intros (p & r & Hp & Hr & Hv). injection Hp as <-.
        assert (r ∈ filter (λ r, validRow r = true) (data parsed))
          by (by apply list_elem_of_filter).
        rewrite E in H. by apply elem_of_nil in H.
      * intros e He. rewrite Hs in He. injection He as <-. by split.
    + destruct (loadFromCSVText_total Date_parse toISOString this parsed)
        as (this' & r & Hl); [by rewrite E|].
      rewrite Hl. simpl. split.
      * split; [|done]. intros _. exists parsed, r0. split; [done|].
        assert (r0 ∈ filter (λ r, validRow r = true) (data parsed))
          by (rewrite E; by left).
        apply list_elem_of_filter in H as [? ?]. by split.
      * discriminate.
  - split.
    + split; [discriminate|]. by intros (p & r & Hp & _).
    + intros e He. injection He as <-. split; [|done].
      unfold sameData. done.
Qed.

(** X2.  After a successful load the symbol list and the date axis hold no
    entry twice; the symbols are exactly those of the rows that pass the
    filter and the dates exactly the normalised dates of these rows; the
    value returned is the pair of the two fields. *)
Theorem loaded_axes_are_the_distinct_values (this : DataLoader.t)
    (parsed : Parsed) (this' : DataLoader.t)
    (r : list string * list string) :
  loadFromCSVText Date_parse toISOString this parsed = (this', Ok r) →
  r = (symbols this', dates this')
  ∧ NoDup (symbols this') ∧ NoDup (dates this')
  ∧ (∀ sym, sym ∈ symbols this' ↔
       ∃ row, row ∈ data parsed ∧ validRow row = true ∧ Symbol row = sym)
  ∧ (∀ d, d ∈ dates this' ↔
       ∃ row, row ∈ data parsed ∧ validRow row = true
              ∧ normalizeDate Date_parse toISOString (Date row) = d).
Proof.
  intros Hl. apply loadFromCSVText_Ok in Hl
    as (_ & -> & Hs & Hd & _). rewrite Hs, Hd.
  split; [done|]. split; [apply NoDup_sort_distinct|].
  split; [apply NoDup_sort_distinct|].
  split.
  - intros sym. unfold loadedSymbols, loadedRows.
    rewrite elem_of_sort, elem_of_distinct. split.
    + intros H. apply list_elem_of_fmap in H as (row' & -> & H).
      apply list_elem_of_fmap in H as (row & -> & H).
      apply list_elem_of_filter in H as [Hv H]. by exists row.
    + intros (row & H & Hv & <-).
      apply list_elem_of_fmap.
      exists (normalizeRow Date_parse toISOString row). split; [done|].
      apply list_elem_of_fmap. exists row. split; [done|].
      by apply list_elem_of_filter.
  - intros d. unfold loadedDates, loadedRows.
    rewrite elem_of_sort, elem_of_distinct. split.
    + intros H. apply list_elem_of_fmap in H as (row' & -> & H).
      apply list_elem_of_fmap in H as (row & -> & H).
      apply list_elem_of_filter in H as [Hv H]. by exists row.
    + intros (row & H & Hv & <-).
      apply list_elem_of_fmap.
      exists (normalizeRow Date_parse toISOString row). split; [done|].
      apply list_elem_of_fmap. exists row. split; [done|].
      by apply list_elem_of_filter.
Qed.

(** X3.  After a successful load the symbols stand in strictly ascending
    order of their code units. *)
Theorem loaded_symbols_ascending (this : DataLoader.t) (parsed : Parsed)
    (this' : DataLoader.t) (r : list string * list string) :
  loadFromCSVText Date_parse toISOString this parsed = (this', Ok r) →
  StronglySorted ascending (symbols this').
Proof.
  intros Hl. apply loadFromCSVText_Ok in Hl as (_ & _ & Hs & _).
  rewrite Hs. unfold loadedSymbols. apply sorted_NoDup_ascending.
  - apply sort_strings_sorted.
  - apply NoDup_sort_distinct.
Qed.

End LoadOutcome.

(** ** The slots of the series *)

Lemma validRow_numbers (r0 : Row) :
  validRow r0 = true →
  Number_isNaN (Open r0) = false ∧ Number_isNaN (Close r0) = false.
Proof.
  unfold validRow. intros H. apply andb_prop in H as [H H2].
  apply andb_prop in H as [_ H1]. split; by apply negb_true_iff.
Qed.

Section Slots.
Variable Date_parse : string → option Z.
Variable toISOString : Z → string.

Lemma loadedRows_elem (parsed : Parsed) (r1 : Row) :
  r1 ∈ loadedRows Date_parse toISOString parsed ↔
  ∃ r0, r0 ∈ data parsed ∧ validRow r0 = true
        ∧ r1 = normalizeRow Date_parse toISOString r0.
Proof.
  unfold loadedRows. split.
  - intros H. apply list_elem_of_fmap in H as (r0 & -> & H).
    apply list_elem_of_filter in H as [? ?]. by exists r0.
  - intros (r0 & ? & ? & ->). apply list_elem_of_fmap. exists r0.
    split; [done|]. by apply list_elem_of_filter.
Qed.

(** The slot of a symbol at a date, read off the rows. *)
Lemma slot_of_rows this parsed this' r s sym j d :
  loadFromCSVText Date_parse toISOString this parsed = (this', Ok r) →
  symbols this' !! s = Some sym → dates this' !! j = Some d →
  ∃ ser, perSymbolSeries this' !! sym = Some ser
    ∧ length ser = length (dates this')
    ∧ ser !! j
      = Some (match last (filter (λ r1, key (Symbol r1) (Date r1) = key sym d)
                            (loadedRows Date_parse toISOString parsed)) with
              | Some row => mkPoint d (Open row) (Close row)
              | None => mkPoint d PrimFloat.nan PrimFloat.nan
              end).
Proof.
  intros Hl Hs Hd.
  apply loadFromCSVText_Ok in Hl as (_ & _ & Hsym & Hds & Hpss & _).
  assert (sym ∈ loadedSymbols Date_parse toISOString parsed) as Hin.
  { rewrite <- Hsym. by eapply list_elem_of_lookup_2. }
  eexists. rewrite Hpss. split; [by apply buildSeries_lookup|].
  split; [by rewrite length_seriesOf, Hds|].
  rewrite <- Hds. rewrite (seriesOf_lookup _ _ _ _ d Hd).
  rewrite buildLookup_last. by destruct (last _).
Qed.

(** X4.  After a successful load every symbol has a series aligned with
    the date axis: as long as the axis, its [j]-th point carrying the
    [j]-th date, and holding either a pair of numbers or the pair of NaN,
    never one price without the other. *)
Theorem loaded_series_aligned_with_dates (this : DataLoader.t)
    (parsed : Parsed) (this' : DataLoader.t) (r : list string * list string)
    (s : nat) (sym : string) :
  loadFromCSVText Date_parse toISOString this parsed = (this', Ok r) →
  symbols this' !! s = Some sym →
  ∃ ser, perSymbolSeries this' !! sym = Some ser
    ∧ length ser = length (dates this')
    ∧ ∀ j d, dates this' !! j = Some d →
        ∃ v, ser !! j = Some v ∧ date v = d
             ∧ (slotPresent v ∨ slotMissing v).
Proof.
  intros Hl Hs.
  destruct (Loaded_seriesAt this' s) as (ser & Hser & Hlen).
  { by eapply loadFromCSVText_Loaded. }
  { by eapply lookup_lt_Some. }
  unfold seriesAt in Hser. rewrite Hs in Hser.
  destruct (perSymbolSeries this' !! sym) as [ser'|] eqn:E; [|done].
  injection Hser as ->. exists ser. split; [done|]. split; [done|].
  intros j d Hd.
  destruct (slot_of_rows this parsed this' r s sym j d Hl Hs Hd)
    as (ser2 & E2 & _ & Hj).
  rewrite E in E2. injection E2 as <-. rewrite Hj.
  destruct (last _) as [row|] eqn:El.
  - eexists. split; [done|]. split; [done|]. left.
    apply last_Some in El as [l' Hl'].
    assert (row ∈ filter (λ r1, key (Symbol r1) (Date r1) = key sym d)
                     (loadedRows Date_parse toISOString parsed)) as Hin.
    { rewrite Hl'. apply elem_of_app. right. by apply list_elem_of_singleton. }
    apply list_elem_of_filter in Hin as [_ Hin].
    apply loadedRows_elem in Hin as (r0 & _ & Hv & ->).
    by apply validRow_numbers in Hv.
  - eexists. split; [done|]. split; [done|]. right. by split.
Qed.

(** X5.  When the engine reads the date of every row that passes the
    filter, the slot of a symbol at a date of the axis holds numbers
    exactly when some such row has this symbol and, once normalised, this
    date; otherwise it is the pair of NaN. *)
Theorem slot_present_iff_row_exists (this : DataLoader.t) (parsed : Parsed)
    (this' : DataLoader.t) (r : list string * list string)
    (s j : nat) (sym d : string) (ser : list Point) (v : Point) :
  (∀ z, 10 ≤ String.length (toISOString z)) →
  (∀ r1, r1 ∈ data parsed → validRow r1 = true →
         parseable Date_parse (Date r1)) →
  loadFromCSVText Date_parse toISOString this parsed = (this', Ok r) →
  symbols this' !! s = Some sym → dates this' !! j = Some d →
  perSymbolSeries this' !! sym = Some ser → ser !! j = Some v →
  (slotPresent v ↔
   ∃ row, row ∈ data parsed ∧ validRow row = true ∧ Symbol row = sym
          ∧ normalizeDate Date_parse toISOString (Date row) = d)
  ∧ (¬ slotPresent v → slotMissing v).
Proof.
  intros Hlong Hparse Hl Hs Hd Hser Hv.
  destruct (slot_of_rows this parsed this' r s sym j d Hl Hs Hd)
    as (ser2 & E2 & _ & Hj).
  rewrite Hser in E2. injection E2 as <-. rewrite Hv in Hj.
  injection Hj as ->.
  assert (∀ r1, r1 ∈ loadedRows Date_parse toISOString parsed →
                String.length (Date r1) = 10) as Hlen.
  { intros r1 Hr1. apply loadedRows_elem in Hr1 as (r0 & Hr0 & Hv0 & ->).
    simpl. apply length_normalizeDate; [done|]. by apply Hparse. }
  assert (String.length d = 10) as Hd10.
  { apply loadFromCSVText_Ok in Hl as (_ & _ & _ & Hds & _).
    rewrite Hds in Hd. apply list_elem_of_lookup_2 in Hd.
    unfold loadedDates in Hd. apply (proj1 (elem_of_sort _ _ _)) in Hd.
    apply (proj1 (elem_of_distinct _ _)) in Hd.
    apply list_elem_of_fmap in Hd as (r1 & -> & Hr1). by apply Hlen. }
  assert (filter (λ r1, key (Symbol r1) (Date r1) = key sym d)
                 (loadedRows Date_parse toISOString parsed)
          = filter (λ r1, Symbol r1 = sym ∧ Date r1 = d)
                   (loadedRows Date_parse toISOString parsed)) as ->.
  { apply filter_ext_elem. intros r1 Hr1. split.
    - intros Hk. apply key_inj_same_length in Hk; [done|].
      rewrite Hd10. by apply Hlen.
    - by intros [-> ->]. }
  clear Hv. destruct (last _) as [row|] eqn:El.
  - apply last_Some in El as [l' Hl'].
    assert (row ∈ filter (λ r1, Symbol r1 = sym ∧ Date r1 = d)
                     (loadedRows Date_parse toISOString parsed)) as Hin.
    { rewrite Hl'. apply elem_of_app. right. by apply list_elem_of_singleton. }
    apply list_elem_of_filter in Hin as [[Hsy Hda] Hin].
    apply loadedRows_elem in Hin as (r0 & Hr0 & Hv0 & ->).
    assert (slotPresent
              (mkPoint d (Open (normalizeRow Date_parse toISOString r0))
                 (Close (normalizeRow Date_parse toISOString r0)))) as Hp.
    { by apply validRow_numbers in Hv0. }
    split; [|done]. split; [|done]. intros _. by exists r0.
  - split.
    + split.
      * intros [Hn _]. done.
      * intros (row & Hr & Hv0 & Hsy & Hda).
        apply last_None in El.
        assert (normalizeRow Date_parse toISOString row
                ∈ filter (λ r1, Symbol r1 = sym ∧ Date r1 = d)
                    (loadedRows Date_parse toISOString parsed)) as Hin.
        { apply list_elem_of_filter. split; [done|].
          apply loadedRows_elem. by exists row. }
        rewrite El in Hin. by apply elem_of_nil in Hin.
    + intros _. by split.
Qed.

Lemma StronglySorted_lookup {A} (R : relation A) (l : list A) (i j : nat)
    (a b : A) :
  StronglySorted R l → i < j → l !! i = Some a → l !! j = Some b → R a b.
Proof.
  intros Hs Hij Ha Hb. rewrite <- (take_drop j l) in Hs.
  eapply StronglySorted_app_1_elem_of; [exact Hs| |].
  - apply elem_of_take. eauto.
  - apply (list_elem_of_lookup_2 _ 0). by rewrite lookup_drop, Nat.add_0_r.
Qed.

(** X21.  When the engine reads the normalised date of every row that
    passes the filter, the date axis of a loaded object is in chronological
    order, earliest first. *)
Theorem loaded_dates_chronological (this : DataLoader.t) (parsed : Parsed)
    (this' : DataLoader.t) (r : list string * list string) :
  loadFromCSVText Date_parse toISOString this parsed = (this', Ok r) →
  (∀ row, row ∈ data parsed → validRow row = true →
     is_Some (Date_parse
                (normalizeDate Date_parse toISOString (Date row)))) →
  StronglySorted (chronological Date_parse) (dates this')
  ∧ ∀ i j a b, i < j → dates this' !! i = Some a → dates this' !! j = Some b →
      chronological Date_parse a b ∧ a ≠ b.
Proof.
  intros Hl Hread. pose proof Hl as Hl0.
  apply loadFromCSVText_Ok in Hl0 as (_ & _ & _ & Hds & _).
  assert (StronglySorted (chronological Date_parse) (dates this')) as Hs.
  { rewrite Hds. apply loadedDates_sorted. apply Forall_forall.
    intros r1 Hr1. apply loadedRows_elem in Hr1 as (r0 & Hr0 & Hv & ->).
    simpl. by apply Hread. }
  split; [done|]. intros i j a b Hij Ha Hb. split.
  - by eapply (StronglySorted_lookup _ _ i j).
  - intros ->.
    assert (NoDup (dates this')) as Hnd.
    { rewrite Hds. apply NoDup_sort_distinct. }
    pose proof (NoDup_lookup _ _ _ _ Hnd Ha Hb). lia.
Qed.

End Slots.

(** ** What the logger receives *)

Lemma logExtends_refl this : logExtends this this.
Proof. by split. Qed.

Lemma logExtends_trans a b c : logExtends a b → logExtends b c → logExtends a c.
Proof.
  intros (Ha1 & Ha2 & Ha3) (Hb1 & Hb2 & Hb3). split; [congruence|].
  split; [by etrans|]. intros H. rewrite Hb3, Ha3; congruence.
Qed.

Lemma logExtends_log m this : logExtends this (log m this).
Proof.
  unfold logExtends. rewrite logger_log, logged_log.
  destruct (logger this); split; try done; split; try done.
  by apply prefix_app_r.
Qed.

Lemma logExtends_set_loaded this syms ds pss ns r :
  logExtends this (set_loaded this syms ds pss ns r).
Proof. by split. Qed.

Lemma logExtends_set_dataset this d : logExtends this (set_dataset this d).
Proof. by split. Qed.

Lemma tf_slice_Throw {A} (c : Z) (xs : list A) :
  ¬ (0 ≤ c ≤ Z.of_nat (length xs))%Z →
  tf_slice 0 c xs
  = Throw (Error "slice: begin + size must not exceed the shape").
Proof.
  intros H. unfold tf_slice.
  destruct (Z.leb_spec 0 c); destruct (Z.leb_spec (0 + c) (Z.of_nat (length xs)));
    simpl; try done. lia.
Qed.

(** The two ways [prepareDataset] ends: a throw with the object as it was,
    or the split of the collected samples stored and announced. *)
Lemma prepareDataset_cases this p :
  (∃ e, prepareDataset this p = (this, Throw e))
  ∨ (∃ smp c, is_Some (raw this) ∧ collectSamples this = Ok smp ∧ smp ≠ []
       ∧ trainCountOf p (length smp) = Some c
       ∧ (0 ≤ c ≤ Z.of_nat (length smp))%Z
       ∧ prepareDataset this p
         = (log (MsgPrepared (length smp) c (Z.of_nat (length smp) - c))
              (set_dataset this (splitDataset smp c)),
            Ok (splitMeta this smp c))).
Proof.
  destruct (raw this) as [rw|] eqn:Hraw.
  2:{ left. unfold prepareDataset. rewrite Hraw. eauto. }
  destruct (collectSamples this) as [smp|e] eqn:Hc.
  2:{ left. unfold prepareDataset. rewrite Hraw, Hc. eauto. }
  destruct smp as [|x0 smp'].
  { left. unfold prepareDataset. rewrite Hraw, Hc. eauto. }
  set (smp := x0 :: smp') in *.
  assert (smp ≠ []) as Hne by done.
  destruct (decide (1 ≤ sequenceLength this)) as [HL|HL].
  2:{ left.
      destruct (tensor3d_no_window this smp Hc Hne ltac:(lia)) as [e He].
      unfold prepareDataset. rewrite Hraw, Hc. fold smp. rewrite He.
      eauto. }
  pose proof (tensor3d_samples this smp Hc Hne HL) as HX.
  pose proof (tensor2d_samples this smp Hc Hne) as Hy.
  destruct (trainCountOf p (length smp)) as [c|] eqn:Hn.
  2:{ left. unfold prepareDataset. rewrite Hraw, Hc. fold smp.
      rewrite HX, Hy. cbn [mbind result_bind].
      rewrite length_map, Hn. eauto. }
  destruct (decide (0 ≤ c ≤ Z.of_nat (length smp))%Z) as [Hr|Hr].
  - right. exists smp, c. split; [by eexists|].
    split; [done|]. split; [done|]. split; [done|].
    split; [done|]. apply prepareDataset_Ok; try done.
  - left. unfold prepareDataset. rewrite Hraw, Hc. fold smp.
    rewrite HX, Hy. cbn [mbind result_bind].
    rewrite length_map, Hn.
    rewrite (tf_slice_Throw c (map (map (map fround)) (map input smp)))
      by (by rewrite !length_map).
    simpl. eauto.
Qed.

Section Logging.
Variable Date_parse : string → option Z.
Variable toISOString : Z → string.

Lemma logExtends_loadFromCSVText this parsed :
  logExtends this (fst (loadFromCSVText Date_parse toISOString this parsed)).
Proof.
  unfold loadFromCSVText.
  destruct (filter _ (data parsed)); destruct (errors parsed);
    try destruct (negb _); cbn [fst];
    repeat first
      [ apply logExtends_refl
      | apply logExtends_log
      | apply logExtends_set_loaded
      | (eapply logExtends_trans; [|apply logExtends_log])
      | (eapply logExtends_trans; [|apply logExtends_set_loaded]) ].
Qed.

(** X6.  Neither a load nor [prepareDataset] replaces the logger or drops
    a message it has received, and as long as no logger is installed
    nothing is recorded. *)
Theorem logger_history_only_grows (this : DataLoader.t)
    (file : option Parsed) (p : float) :
  logExtends this (fst (loadFromFile Date_parse toISOString this file))
  ∧ logExtends this (fst (prepareDataset this p)).
Proof.
  split.
  - destruct file; simpl; [apply logExtends_loadFromCSVText|].
    apply logExtends_refl.
  - destruct (prepareDataset_cases this p) as [[e ->]|(smp & c & _ & _ & _ & _ & _ & ->)];
      simpl; [apply logExtends_refl|].
    eapply logExtends_trans; [apply logExtends_set_dataset|].
    apply logExtends_log.
Qed.

Lemma dataset_loadFromCSVText this parsed :
  dataset (fst (loadFromCSVText Date_parse toISOString this parsed))
  = dataset this.
Proof.
  unfold loadFromCSVText.
  destruct (filter _ (data parsed)); destruct (errors parsed);
    try destruct (negb _); cbn [fst];
    repeat first [rewrite dataset_log | progress cbn [dataset set_loaded]];
    done.
Qed.

(** X7.  What a successful load leaves in the loaded fields depends on
    the rows alone: any other object given the same rows ends with the same
    symbols, dates, series, normalisers and raw rows.  The load keeps the
    window length and the horizon, and it does not touch the tensors and
    sample dates of a dataset prepared earlier: [getTensors] goes on
    returning them, now beside the new symbols. *)
Theorem reload_replaces_loaded_fields_only (this other : DataLoader.t)
    (parsed : Parsed) (this' : DataLoader.t)
    (r : list string * list string) :
  loadFromCSVText Date_parse toISOString this parsed = (this', Ok r) →
  (∃ other',
      loadFromCSVText Date_parse toISOString other parsed = (other', Ok r)
      ∧ symbols other' = symbols this' ∧ dates other' = dates this'
      ∧ perSymbolSeries other' = perSymbolSeries this'
      ∧ normalizers other' = normalizers this'
      ∧ raw other' = raw this')
  ∧ sequenceLength this' = sequenceLength this
  ∧ forecastHorizon this' = forecastHorizon this
  ∧ dataset this' = dataset this
  ∧ getTensors this'
    = (λ g, mkTensors (t_X_train g) (t_y_train g) (t_X_test g) (t_y_test g)
              (symbols this') (t_sampleDatesTest g)) <$> getTensors this.
Proof.
  intros Hl.
  assert (dataset this' = dataset this) as Hd.
  { pose proof (dataset_loadFromCSVText this parsed) as H.
    by rewrite Hl in H. }
  pose proof Hl as Hl0.
  apply loadFromCSVText_Ok in Hl
    as (Hne & -> & Hsym & Hds & Hpss & Hns & Hraw & HL & Hh).
  split.
  - destruct (loadFromCSVText_total Date_parse toISOString other parsed)
      as (other' & r' & Ho).
    { intros E. apply Hne. unfold loadedRows. by rewrite E. }
    exists other'. pose proof Ho as Ho0.
    apply loadFromCSVText_Ok in Ho
      as (_ & -> & Hsym' & Hds' & Hpss' & Hns' & Hraw' & _).
    split; [done|].
    rewrite Hns, Hns', Hpss, Hpss', Hsym, Hsym', Hds, Hds', Hraw, Hraw'.
    done.
  - unfold getTensors. rewrite Hd. by destruct (dataset this).
Qed.

End Logging.

(** * Further properties of [prepareDataset] *)

(** ** Its failures *)

Lemma prepareDataset_nonempty this p x0 smp' :
  is_Some (raw this) → collectSamples this = Ok (x0 :: smp') →
  snd (prepareDataset this p) ≠ Throw no_samples.
Proof.
  intros [rw Hraw] Hc. unfold prepareDataset. rewrite Hraw, Hc.
  rewrite !map_cons. destruct (input x0) as [|r rs]; [simpl; discriminate|].
  cbn [tensor3d tensor2d mbind result_bind].
  destruct (trainCountOf _ _) as [c|]; [|simpl; discriminate].
  unfold tf_slice.
  repeat match goal with
         | |- context [if ?b then _ else _] => destruct b
         end; simpl; discriminate.
Qed.

Lemma validAnchor_bounds this i :
  validAnchor this i →
  sequenceLength this ≤ i + 1 ∧ i + forecastHorizon this < length (dates this).
Proof. unfold validAnchor, seqStart. intros (H1 & H2 & _). lia. Qed.

Section PrepareFailures.
Variable Date_parse : string → option Z.
Variable toISOString : Z → string.

(** X8.  A [prepareDataset] that throws leaves the object exactly as it
    was, logger history and any earlier dataset included.  It throws [No
    data loaded] on an object without raw rows, and so after a load that
    failed on such an object; a newly constructed object, with or without
    a logger, is such an object, and its [getTensors] throws as well. *)
Theorem prepareDataset_throw_keeps_object (this : DataLoader.t) (p : float) :
  (∀ e, snd (prepareDataset this p) = Throw e →
        fst (prepareDataset this p) = this)
  ∧ (raw this = None → snd (prepareDataset this p) = Throw not_loaded)
  ∧ (∀ file,
       let l := loadFromFile Date_parse toISOString this file in
       raw this = None → is_ok (snd l) = false →
       snd (prepareDataset (fst l) p) = Throw not_loaded)
  ∧ (∀ o, snd (prepareDataset (constructor o) p) = Throw not_loaded
          ∧ snd (prepareDataset (setLogger (constructor o)) p)
            = Throw not_loaded
          ∧ is_ok (getTensors (constructor o)) = false
          ∧ is_ok (getTensors (setLogger (constructor o))) = false).
Proof.
  assert (∀ this, raw this = None →
                  snd (prepareDataset this p) = Throw not_loaded) as Hnone.
  { intros t0 H. unfold prepareDataset. by rewrite H. }
  split; [|split; [apply Hnone|split; [|by intros o]]].
  - intros e He.
    destruct (prepareDataset_cases this p)
      as [[e' ->]|(smp & c & _ & _ & _ & _ & _ & Hp)]; [done|].
    rewrite Hp in He. discriminate.
  - intros file l Hraw Hfail. apply Hnone.
    apply loadFromFile_failure in Hfail as (_ & _ & Hr & _).
    subst l. by rewrite Hr.
Qed.

End PrepareFailures.

Lemma map_anchor_nil (smp : list Sample) : map anchor smp = [] → smp = [].
Proof. by destruct smp. Qed.

(** X9.  On a loaded object [prepareDataset] throws [No valid
    sliding-window samples] exactly when no index of the date axis is a
    valid anchor; this is so whenever the axis is shorter than a window
    plus the horizon. *)
Theorem no_samples_iff_no_valid_anchor (this : DataLoader.t) (p : float) :
  Loaded this → is_Some (raw this) →
  (snd (prepareDataset this p) = Throw no_samples
   ↔ ∀ i, ¬ validAnchor this i)
  ∧ (length (dates this) < sequenceLength this + forecastHorizon this →
     snd (prepareDataset this p) = Throw no_samples).
Proof.
  intros HL Hraw.
  destruct (collectSamples_total this HL) as [smp Hc].
  pose proof (collectSamples_anchors this smp Hc) as Ha.
  assert (snd (prepareDataset this p) = Throw no_samples
          ↔ ∀ i, ¬ validAnchor this i) as Hiff.
  { split.
    - intros Hp i Hi. destruct smp as [|x0 smp'].
      + apply (isAnchor_spec this i HL) in Hi.
        assert (i ∈ filter (λ i, isAnchor this i = true)
                      (seq 0 (length (dates this)))) as Hin.
        { apply list_elem_of_filter. split; [done|].
          apply elem_of_seq.
          apply (isAnchor_spec this i HL), validAnchor_bounds in Hi. lia. }
        rewrite <- Ha in Hin. by apply elem_of_nil in Hin.
      + by apply (prepareDataset_nonempty this p x0 smp').
    - intros Hno. destruct smp as [|x0 smp'].
      + destruct Hraw as [rw Hraw]. unfold prepareDataset.
        by rewrite Hraw, Hc.
      + exfalso. apply (Hno (anchor x0)). apply (isAnchor_spec this _ HL).
        assert (anchor x0 ∈ filter (λ i, isAnchor this i = true)
                               (seq 0 (length (dates this)))) as Hin.
        { rewrite <- Ha. by left. }
        by apply list_elem_of_filter in Hin as [? _]. }
  split; [done|]. intros Hshort. apply Hiff. intros i Hi.
  apply validAnchor_bounds in Hi. lia.
Qed.

(** ** Complete data *)

Lemma filter_all {A} (P : A → Prop) `{!∀ x, Decision (P x)} (l : list A) :
  (∀ x, x ∈ l → P x) → filter P l = l.
Proof.
  induction l as [|x l IH]; intros Hall; [done|].
  rewrite filter_cons_True by (apply Hall; by left).
  f_equal. apply IH. intros y Hy. apply Hall. by right.
Qed.

Lemma filter_none {A} (P : A → Prop) `{!∀ x, Decision (P x)} (l : list A) :
  (∀ x, x ∈ l → ¬ P x) → filter P l = [].
Proof.
  induction l as [|x l IH]; intros Hall; [done|].
  rewrite filter_cons_False by (apply Hall; by left).
  apply IH. intros y Hy. apply Hall. by right.
Qed.

Lemma filter_seq_interval (a b n : nat) :
  a ≤ b → b ≤ n →
  filter (λ i, a ≤ i ∧ i < b) (seq 0 n) = seq a (b - a).
Proof.
  intros Hab Hbn.
  replace n with (a + ((b - a) + (n - b))) by lia.
  rewrite !seq_app, !filter_app. simpl.
  rewrite filter_none, filter_all, filter_none.
  - by rewrite app_nil_r.
  - intros x Hx. apply elem_of_seq in Hx. lia.
  - intros x Hx. apply elem_of_seq in Hx. lia.
  - intros x Hx. apply elem_of_seq in Hx. lia.
Qed.

Lemma complete_validAnchor this i :
  complete this →
  validAnchor this i ↔
  sequenceLength this ≤ i + 1 ∧ i + forecastHorizon this < length (dates this).
Proof.
  intros Hc. split; [apply validAnchor_bounds|].
  intros [H1 H2]. unfold validAnchor, seqStart. split; [lia|]. split; [done|].
  intros s Hs. split.
  - intros k _ Hk. apply Hc; [done|lia].
  - intros o Ho. destruct (Hc s (i + o)) as (ser & v & ? & ? & _ & ?);
      [done|lia|]. by exists ser, v.
Qed.

(** X10.  When no slot is missing, a window of length [L ≥ 1] and a
    horizon [h] that fit on an axis of [D] dates give the anchors [L-1] to
    [D-h-1], each once and in this order: [D-L-h+1] samples. *)
Theorem complete_data_gives_every_window (this : DataLoader.t) :
  Loaded this → complete this →
  1 ≤ sequenceLength this →
  sequenceLength this + forecastHorizon this ≤ length (dates this) →
  ∃ smp, collectSamples this = Ok smp
    ∧ map anchor smp
      = seq (sequenceLength this - 1)
            (length (dates this) + 1 - sequenceLength this
             - forecastHorizon this)
    ∧ length smp
      = length (dates this) + 1 - sequenceLength this - forecastHorizon this.
Proof.
  intros HL Hcomp H1 Hfit.
  destruct (collectSamples_total this HL) as [smp Hc]. exists smp.
  split; [done|].
  pose proof (collectSamples_anchors this smp Hc) as Ha.
  assert (map anchor smp
          = seq (sequenceLength this - 1)
              (length (dates this) + 1 - sequenceLength this
               - forecastHorizon this)) as Hm.
  { rewrite Ha.
    rewrite (filter_ext_elem _
               (λ i, sequenceLength this - 1 ≤ i
                     ∧ i < length (dates this) - forecastHorizon this)).
    - rewrite filter_seq_interval by lia. f_equal. lia.
    - intros i _. rewrite (isAnchor_spec this i HL).
      rewrite (complete_validAnchor this i Hcomp). lia. }
  split; [done|].
  apply (f_equal length) in Hm. by rewrite length_map, length_seq in Hm.
Qed.

(** ** The input of a sample *)

Lemma featurePair_spec this k s p :
  featurePair this k s = Ok p →
  ∃ ser v norm, seriesAt this s = Ok ser ∧ ser !! k = Some v
    ∧ normalizerAt this s = Ok norm
    ∧ p = [((open v - openMin norm) / (openMax norm - openMin norm))%float;
           ((close v - closeMin norm)
            / (closeMax norm - closeMin norm))%float].
Proof.
  unfold featurePair. intros H.
  apply bind_Ok in H as (ser & Hser & H).
  apply bind_Ok in H as (v & Hv & H). apply pointAt_Ok in Hv.
  apply bind_Ok in H as (norm & Hn & H). injection H as <-.
  by exists ser, v, norm.
Qed.

Lemma featureRow_spec this k row :
  featureRow this k = Ok row →
  length row = length (symbols this) * 2
  ∧ ∀ s, s < length (symbols this) →
      ∃ ser v norm, seriesAt this s = Ok ser ∧ ser !! k = Some v
        ∧ normalizerAt this s = Ok norm
        ∧ row !! (s * 2)
          = Some ((open v - openMin norm)
                  / (openMax norm - openMin norm))%float
        ∧ row !! (s * 2 + 1)
          = Some ((close v - closeMin norm)
                  / (closeMax norm - closeMin norm))%float.
Proof.
  unfold featureRow. intros H.
  apply bind_Ok in H as (ps & Hps & H). injection H as <-.
  apply mapM_Ok_Forall2 in Hps.
  assert (Forall (λ l, length l = 2) ps) as Hall.
  { apply list.Forall_forall. intros l Hl.
    apply list_elem_of_lookup in Hl as [j Hj].
    destruct (Forall2_lookup_r _ _ _ _ _ Hps Hj) as (s & _ & Hs).
    by apply featurePair_spec in Hs as (? & ? & ? & _ & _ & _ & ->). }
  split.
  - rewrite (length_concat_uniform _ _ Hall).
    apply Forall2_length in Hps. rewrite length_seq in Hps. by rewrite <- Hps.
  - intros s Hs.
    assert (seq 0 (length (symbols this)) !! s = Some s) as Hlk.
    { rewrite lookup_seq. lia. }
    destruct (Forall2_lookup_l _ _ _ _ _ Hps Hlk) as (l & Hl & Hf).
    apply featurePair_spec in Hf as (ser & v & norm & Hser & Hv & Hn & ->).
    exists ser, v, norm. repeat split; try done.
    + replace (s * 2) with (s * 2 + 0) by lia.
      by rewrite (concat_lookup_uniform _ _ _ _ _ Hall Hl) by lia.
    + by rewrite (concat_lookup_uniform _ _ _ _ _ Hall Hl) by lia.
Qed.

(** X11.  The input of a sample anchored at [i] has one row per position
    of the window [i-L+1 .. i], oldest first, and each row has two entries
    per symbol, in symbol order: the open and then the close of that
    position, each minus the minimum of the symbol and divided by the range
    its normaliser holds. *)
Theorem input_is_the_normalised_window (this : DataLoader.t)
    (smp : list Sample) (x : Sample) :
  collectSamples this = Ok smp → x ∈ smp →
  sequenceLength this ≤ anchor x + 1
  ∧ length (input x) = sequenceLength this
  ∧ ∀ r, r < sequenceLength this →
      ∃ row, input x !! r = Some row
        ∧ length row = length (symbols this) * 2
        ∧ ∀ s, s < length (symbols this) →
            ∃ ser v norm,
              seriesAt this s = Ok ser
              ∧ ser !! (anchor x + 1 - sequenceLength this + r) = Some v
              ∧ normalizerAt this s = Ok norm
              ∧ row !! (s * 2)
                = Some ((open v - openMin norm)
                        / (openMax norm - openMin norm))%float
              ∧ row !! (s * 2 + 1)
                = Some ((close v - closeMin norm)
                        / (closeMax norm - closeMin norm))%float.
Proof.
  intros Hc Hx.
  destruct (collectSamples_elem this smp x Hc Hx) as [Hat _].
  apply sampleAt_Some in Hat as (Hanchor & _ & Hin & _).
  pose proof (isAnchor_seqStart this _ Hanchor) as HL.
  unfold sampleInput in Hin. apply mapM_Ok_Forall2 in Hin.
  assert (windowRange this (anchor x)
          = seq (anchor x + 1 - sequenceLength this) (sequenceLength this))
    as Hw.
  { unfold windowRange, seqStart. f_equal; lia. }
  rewrite Hw in Hin. split; [done|]. split.
  - apply Forall2_length in Hin. by rewrite length_seq in Hin.
  - intros r Hr.
    assert (seq (anchor x + 1 - sequenceLength this) (sequenceLength this)
              !! r = Some (anchor x + 1 - sequenceLength this + r)) as Hlk.
    { by apply lookup_seq_lt. }
    destruct (Forall2_lookup_l _ _ _ _ _ Hin Hlk) as (row & Hrow & Hf).
    apply featureRow_spec in Hf as [Hlen Hf]. by exists row.
Qed.

(** ** The order of the samples *)

Lemma seq_StronglySorted (a n : nat) : StronglySorted lt (seq a n).
Proof.
  revert a. induction n as [|n IH]; intros a; simpl; constructor; [apply IH|].
  apply Forall_forall. intros x Hx. apply elem_of_seq in Hx. lia.
Qed.

Lemma isAnchor_bounds this i :
  isAnchor this i = true →
  sequenceLength this - 1 ≤ i
  ∧ i < length (dates this) - forecastHorizon this.
Proof.
  intros H. pose proof (isAnchor_seqStart this i H) as H1.
  split; [lia|]. revert H. unfold isAnchor, anchorOk, futureEnd.
  destruct (_ <? _)%Z; [done|].
  destruct (Nat.leb_spec (length (dates this)) (i + forecastHorizon this));
    [done|]. intros _. lia.
Qed.

Lemma length_filter_mono {A} (P Q : A → Prop) `{!∀ x, Decision (P x)}
    `{!∀ x, Decision (Q x)} (l : list A) :
  (∀ x, P x → Q x) → length (filter P l) ≤ length (filter Q l).
Proof.
  intros HPQ. induction l as [|x l IH]; [done|].
  rewrite !filter_cons. destruct (decide (P x)) as [HP|HP].
  - rewrite decide_True by by apply HPQ. simpl. lia.
  - destruct (decide (Q x)); simpl; lia.
Qed.

(** X12.  The samples come in strictly increasing order of their anchor
    index, each with the date the axis holds at its anchor; on an axis
    without repeated dates no two samples share a date; and there are at
    most [D+1-L-h] of them. *)
Theorem samples_in_anchor_order (this : DataLoader.t) (smp : list Sample) :
  collectSamples this = Ok smp →
  StronglySorted lt (map anchor smp)
  ∧ (∀ x, x ∈ smp → dates this !! anchor x = Some (anchorDate x))
  ∧ (NoDup (dates this) → NoDup (map anchorDate smp))
  ∧ length smp
    ≤ length (dates this) + 1 - sequenceLength this - forecastHorizon this.
Proof.
  intros Hc. split; [|split; [|split]]; cycle 3.
  { rewrite <- (length_map anchor), (collectSamples_anchors this smp Hc).
    etrans.
    - apply (length_filter_mono _
               (λ i, sequenceLength this - 1 ≤ i
                     ∧ i < length (dates this) - forecastHorizon this)).
      apply isAnchor_bounds.
    - destruct (decide (sequenceLength this - 1
                        ≤ length (dates this) - forecastHorizon this)).
      + rewrite filter_seq_interval by lia. rewrite length_seq. lia.
      + rewrite filter_none; [simpl; lia|]. intros x _. lia. }
  - rewrite (collectSamples_anchors this smp Hc).
    eapply sublist_StronglySorted; [apply sublist_filter|].
    apply seq_StronglySorted.
  - intros x Hx.
    destruct (collectSamples_elem this smp x Hc Hx) as [Hat Hlt].
    apply sampleAt_Some in Hat as (_ & _ & _ & _ & ->).
    destruct (lookup_lt_is_Some_2 (dates this) (anchor x) Hlt) as [d Hd].
    by rewrite Hd.
  - intros Hnd. eapply sublist_NoDup; [exact Hnd|].
    by apply sampleDates_sublist.
Qed.

(** ** The split *)

Lemma prepareDataset_no_window this p smp :
  is_Some (raw this) → collectSamples this = Ok smp → smp ≠ [] →
  sequenceLength this = 0 →
  ∃ e, prepareDataset this p = (this, Throw e).
Proof.
  intros [rw Hraw] Hc Hne HL.
  destruct (tensor3d_no_window this smp Hc Hne HL) as [e He].
  unfold prepareDataset. rewrite Hraw, Hc, He.
  destruct smp; [done|]. eauto.
Qed.

(** X13.  A [prepareDataset] that returns has stored a dataset, whose
    tensors and test dates [getTensors] hands out beside the symbols: train
    and test parts, put end to end, give back the inputs, each value stored
    as float32, the outputs and the dates of all samples in order; inputs,
    outputs and dates are cut at the same place; and the counts returned
    are the sizes of the parts and add up to the number of samples, of
    which there is at least one.  The window has at least one position, and
    the loaded fields are as before. *)
Theorem prepared_split_is_a_partition (this : DataLoader.t) (p : float)
    (this' : DataLoader.t) (meta : Meta) :
  prepareDataset this p = (this', Ok meta) →
  ∃ smp d,
    collectSamples this = Ok smp ∧ dataset this' = Some d
    ∧ 1 ≤ sequenceLength this
    ∧ getTensors this'
      = Ok (mkTensors (X_train d) (y_train d) (X_test d) (y_test d)
              (symbols this) (sampleDatesTest d))
    ∧ X_train d ++ X_test d = map (map (map fround)) (map input smp)
    ∧ y_train d ++ y_test d = map output smp
    ∧ sampleDatesTrain d ++ sampleDatesTest d = map anchorDate smp
    ∧ sampleDates d = map anchorDate smp
    ∧ length (X_train d) = Z.to_nat (trainSamples meta)
    ∧ length (y_train d) = Z.to_nat (trainSamples meta)
    ∧ length (sampleDatesTrain d) = Z.to_nat (trainSamples meta)
    ∧ length (X_test d) = Z.to_nat (testSamples meta)
    ∧ length (y_test d) = Z.to_nat (testSamples meta)
    ∧ length (sampleDatesTest d) = Z.to_nat (testSamples meta)
    ∧ (0 ≤ trainSamples meta)%Z ∧ (0 ≤ testSamples meta)%Z
    ∧ (trainSamples meta + testSamples meta = Z.of_nat (samples meta))%Z
    ∧ samples meta = length smp ∧ 0 < samples meta
    ∧ trainIndices d = (0%Z, trainSamples meta)
    ∧ testIndices d = (trainSamples meta, testSamples meta)
    ∧ featuresPerStep meta = length (symbols this) * 2
    ∧ outputDim meta = length (symbols this) * forecastHorizon this
    ∧ meta_sequenceLength meta = sequenceLength this
    ∧ meta_symbols meta = symbols this
    ∧ symbols this' = symbols this ∧ dates this' = dates this
    ∧ perSymbolSeries this' = perSymbolSeries this
    ∧ normalizers this' = normalizers this.
Proof.
  intros Hp.
  destruct (prepareDataset_cases this p)
    as [[e He]|(smp & c & Hraw & Hc & Hne & _ & Hr & Hp')].
  { rewrite He in Hp. discriminate. }
  assert (1 ≤ sequenceLength this) as HL.
  { destruct (sequenceLength this) as [|L] eqn:E; [|lia].
    destruct (prepareDataset_no_window this p smp Hraw Hc Hne E) as [e He].
    rewrite He in Hp. discriminate. }
  rewrite Hp' in Hp. injection Hp as <- <-.
  exists smp, (splitDataset smp c). split; [done|].
  split. { by rewrite dataset_log. }
  split; [done|].
  split. { unfold getTensors. by rewrite dataset_log, symbols_log. }
  unfold splitDataset, splitMeta. cbn [X_train X_test y_train y_test
    sampleDates sampleDatesTrain sampleDatesTest trainIndices testIndices
    samples trainSamples testSamples featuresPerStep outputDim
    meta_sequenceLength meta_symbols].
  rewrite !take_drop, !length_take, !length_drop, !length_map.
  autorewrite with loader_fields. cbn [symbols dates perSymbolSeries
    normalizers set_dataset].
  assert (0 < length smp) by (destruct smp; [done|simpl; lia]).
  repeat split; try done; try lia.
Qed.

(** ** Preparing again *)

Lemma mapM_ext {A B} (f g : A → result B) (l : list A) :
  (∀ x, f x = g x) → mapM f l = mapM g l.
Proof.
  intros H. induction l as [|x l IH]; simpl; [done|]. by rewrite H, IH.
Qed.

(** The sample loop reads the window length, the horizon and the loaded
    fields, and nothing else. *)
Section SameLoaded.
Variables a b : DataLoader.t.
Hypothesis same_sequenceLength : sequenceLength a = sequenceLength b.
Hypothesis same_forecastHorizon : forecastHorizon a = forecastHorizon b.
Hypothesis same_symbols : symbols a = symbols b.
Hypothesis same_dates : dates a = dates b.
Hypothesis same_series : perSymbolSeries a = perSymbolSeries b.
Hypothesis same_normalizers : normalizers a = normalizers b.

Lemma seriesAt_ext s : seriesAt a s = seriesAt b s.
Proof. unfold seriesAt. by rewrite same_symbols, same_series. Qed.

Lemma normalizerAt_ext s : normalizerAt a s = normalizerAt b s.
Proof. unfold normalizerAt. by rewrite same_symbols, same_normalizers. Qed.

Lemma symbolsBad_ext i ts os ss :
  symbolsBad a i ts os ss = symbolsBad b i ts os ss.
Proof.
  induction ss as [|s ss IH]; simpl; [done|].
  rewrite seriesAt_ext. destruct (seriesAt b s) as [ser|]; simpl; [|done].
  destruct (windowBad ser ts) as [b1|]; simpl; [|done]. by rewrite IH.
Qed.

Lemma anchorOk_ext i : anchorOk a i = anchorOk b i.
Proof.
  unfold anchorOk, seqStart, futureEnd, windowRange, offsetRange, seqStart.
  rewrite same_sequenceLength, same_forecastHorizon, same_dates, same_symbols.
  by rewrite symbolsBad_ext.
Qed.

Lemma featureRow_ext k : featureRow a k = featureRow b k.
Proof.
  unfold featureRow. rewrite same_symbols.
  rewrite (mapM_ext (featurePair a k) (featurePair b k)); [done|].
  intros s. unfold featurePair. by rewrite seriesAt_ext, normalizerAt_ext.
Qed.

Lemma sampleInput_ext i : sampleInput a i = sampleInput b i.
Proof.
  unfold sampleInput, windowRange, seqStart. rewrite same_sequenceLength.
  apply mapM_ext, featureRow_ext.
Qed.

Lemma sampleOutput_ext i : sampleOutput a i = sampleOutput b i.
Proof.
  unfold sampleOutput. rewrite same_symbols.
  rewrite (mapM_ext (symbolLabels a i) (symbolLabels b i)); [done|].
  intros s. unfold symbolLabels, offsetRange.
  by rewrite seriesAt_ext, same_forecastHorizon.
Qed.

Lemma collectSamples_ext : collectSamples a = collectSamples b.
Proof.
  unfold collectSamples. rewrite same_dates.
  rewrite (mapM_ext (sampleAt a) (sampleAt b)); [done|].
  intros i. unfold sampleAt.
  by rewrite anchorOk_ext, sampleInput_ext, sampleOutput_ext, same_dates.
Qed.

End SameLoaded.

Lemma collectSamples_set_dataset this d :
  collectSamples (set_dataset this d) = collectSamples this.
Proof. by apply collectSamples_ext. Qed.

Lemma collectSamples_log m this :
  collectSamples (log m this) = collectSamples this.
Proof.
  apply collectSamples_ext; by autorewrite with loader_fields.
Qed.

(** What [prepareDataset] returns and stores is read off the loaded
    fields, the window length and the horizon. *)
Lemma prepareDataset_ext (a b : DataLoader.t) (q : float) :
  raw a = raw b → symbols a = symbols b →
  sequenceLength a = sequenceLength b →
  forecastHorizon a = forecastHorizon b →
  collectSamples a = collectSamples b →
  snd (prepareDataset a q) = snd (prepareDataset b q)
  ∧ (is_ok (snd (prepareDataset b q)) = true →
     dataset (fst (prepareDataset a q)) = dataset (fst (prepareDataset b q))).
Proof.
  intros Hraw Hsym HL Hh Hc. unfold prepareDataset.
  rewrite Hraw, Hsym, Hh, Hc.
  destruct (raw b); [|by split].
  destruct (collectSamples b) as [[|x0 smp']|e]; [by split| |by split].
  cbv zeta. set (res := mbind _ (tensor3d _)).
  destruct res as [[d c]|e]; [|by split].
  cbn [fst snd]. rewrite !sequenceLength_log, !symbols_log, !dataset_log.
  cbn [sequenceLength symbols set_dataset dataset]. rewrite HL, Hsym.
  by split.
Qed.

(** X22.  After a [prepareDataset] that returned, calling it again, with
    the same or another percentage, returns and stores what it would have
    returned and stored had the first call not been made: a call leaves no
    trace in the next one, and repeating it with the same percentage gives
    the same metadata and the same dataset. *)
Theorem prepareDataset_can_be_repeated (this : DataLoader.t) (p q : float)
    (this1 : DataLoader.t) (m1 : Meta) :
  prepareDataset this p = (this1, Ok m1) →
  snd (prepareDataset this1 q) = snd (prepareDataset this q)
  ∧ (is_ok (snd (prepareDataset this q)) = true →
     dataset (fst (prepareDataset this1 q))
     = dataset (fst (prepareDataset this q)))
  ∧ snd (prepareDataset this1 p) = Ok m1
  ∧ dataset (fst (prepareDataset this1 p)) = dataset this1.
Proof.
  intros Hp.
  destruct (prepareDataset_cases this p)
    as [[e He]|(smp & c & _ & _ & _ & _ & _ & Hp')].
  { rewrite He in Hp. discriminate. }
  rewrite Hp' in Hp. injection Hp as Hthis1 Hm1.
  assert (∀ q', snd (prepareDataset this1 q') = snd (prepareDataset this q')
                ∧ (is_ok (snd (prepareDataset this q')) = true →
                   dataset (fst (prepareDataset this1 q'))
                   = dataset (fst (prepareDataset this q')))) as Hext.
  { intros q'. apply prepareDataset_ext; rewrite <- Hthis1.
    - by rewrite raw_log.
    - by rewrite symbols_log.
    - by rewrite sequenceLength_log.
    - by rewrite forecastHorizon_log.
    - by rewrite collectSamples_log, collectSamples_set_dataset. }
  split; [apply Hext|]. split; [apply Hext|].
  destruct (Hext p) as [H1 H2]. rewrite H1, H2.
  - rewrite Hp'. cbn [fst snd]. rewrite <- Hthis1, <- Hm1. done.
  - rewrite Hp'. done.
Qed.

(** * Further properties of the evaluator *)

(** ** Nested arrays of element-wise results *)

Lemma chunks_zip_with {A B C} (f : A → B → C) (k n : nat) (l1 : list A)
    (l2 : list B) :
  chunks k n (zip_with f l1 l2)
  = zip_with (zip_with f) (chunks k n l1) (chunks k n l2).
Proof.
  revert l1 l2. induction n as [|n IH]; intros l1 l2; simpl; [done|].
  by rewrite zip_with_take, zip_with_drop, IH.
Qed.

Lemma array3_zip_with {A B C} (f : A → B → C) (N S h : nat) (l1 : list A)
    (l2 : list B) :
  array3 N S h (zip_with f l1 l2)
  = zip_with (zip_with (zip_with f)) (array3 N S h l1) (array3 N S h l2).
Proof.
  unfold array3. rewrite chunks_zip_with.
  generalize (chunks (S * h) N l1) (chunks (S * h) N l2).
  intros a. induction a as [|x a IH]; intros [|y b]; simpl; [done..|].
  by rewrite chunks_zip_with, IH.
Qed.

Lemma nth_zip_with_rows {A B C} (f : A → B → C) (s : nat)
    (a : list (list A)) (b : list (list B)) :
  length a = length b →
  nth s (zip_with (zip_with f) a b) [] = zip_with f (nth s a []) (nth s b []).
Proof.
  revert s b. induction a as [|x a IH]; intros s [|y b] Hlen;
    simpl in Hlen; try lia.
  - by destruct s.
  - destruct s as [|s]; simpl; [done|]. apply IH. lia.
Qed.

Lemma array3_rows {A} (N S h : nat) (vals : list A) (row : list (list A)) :
  row ∈ array3 N S h vals →
  length row = S ∧ ∀ s, length (nth s row []) ≤ h.
Proof.
  unfold array3. intros H. apply list_elem_of_fmap in H as (l & -> & _).
  split; [apply length_chunks|]. intros s.
  destruct (decide (s < S)) as [Hs|Hs].
  - rewrite (nth_lookup_Some _ _ _ _ (chunks_lookup h S s l Hs)).
    rewrite length_take. lia.
  - rewrite nth_overflow; [simpl; lia|]. rewrite length_chunks. lia.
Qed.

Lemma length_array3 {A} (N S h : nat) (vals : list A) :
  length (array3 N S h vals) = N.
Proof. unfold array3. by rewrite length_map, length_chunks. Qed.

Lemma correctCount_le (ps ts : list Z) : correctCount ps ts ≤ length ps.
Proof.
  unfold correctCount. etrans; [apply length_filter|].
  rewrite length_zip. lia.
Qed.

Lemma correctCount_same (ps : list Z) : correctCount ps ps = length ps.
Proof.
  unfold correctCount. induction ps as [|p ps IH]; [done|]. simpl.
  rewrite filter_cons_True by done. simpl. by rewrite IH.
Qed.

(** The correct entries of one asset, counted on the nested arrays. *)
Lemma asset_sum_is_hits (N S h s : nat) (P T : list Z) :
  sumZ (concat (map (λ row, nth s row [])
                    (array3 N S h (zip_with eq01 P T))))
  = Z.of_nat (assetHits (array3 N S h P) (array3 N S h T) s).
Proof.
  rewrite array3_zip_with. unfold assetHits.
  assert (Forall2 (λ a b, length a = length b)
            (array3 N S h P) (array3 N S h T)) as Hrows.
  { apply Forall2_same_length_lookup_2.
    - by rewrite !length_array3.
    - intros i a b Ha Hb.
      apply list_elem_of_lookup_2, array3_rows in Ha as [-> _].
      by apply list_elem_of_lookup_2, array3_rows in Hb as [-> _]. }
  induction Hrows as [|a b PA TA Hab _ IH]; simpl; [done|].
  rewrite sumZ_app, IH, (nth_zip_with_rows _ _ _ _ Hab), sum_eq01. lia.
Qed.

Lemma assetHits_le_rows (PA TA : list (list (list Z))) (s h : nat) :
  Forall (λ a, length (nth s a []) ≤ h) PA →
  assetHits PA TA s ≤ length PA * h.
Proof.
  unfold assetHits. revert TA.
  induction PA as [|a PA IH]; intros [|b TA] HP; simpl; try lia.
  apply Forall_cons in HP as [Ha HP]. specialize (IH TA HP).
  pose proof (correctCount_le (nth s a []) (nth s b [])). lia.
Qed.

Lemma assetHits_le (N S h s : nat) (P T : list Z) :
  assetHits (array3 N S h P) (array3 N S h T) s ≤ N * h.
Proof.
  etrans; [apply (assetHits_le_rows _ _ s h)|by rewrite length_array3].
  apply Forall_forall. intros a Ha. by apply array3_rows in Ha as [_ ?].
Qed.

Lemma fraction_bounds (a b : nat) :
  a ≤ b →
  (0 <= inject_Z (Z.of_nat a) / inject_Z (Z.of_nat b))%Q
  ∧ (inject_Z (Z.of_nat a) / inject_Z (Z.of_nat b) <= 1)%Q.
Proof.
  intros Hab. destruct b as [|b].
  - assert (a = 0) as -> by lia. split; by vm_compute.
  - assert (0 < inject_Z (Z.of_nat (S b)))%Q as Hpos.
    { unfold Qlt. simpl. lia. }
    split.
    + apply Qle_shift_div_l; [done|]. rewrite Qmult_0_l.
      unfold Qle. simpl. lia.
    + apply Qle_shift_div_r; [done|]. rewrite Qmult_1_l.
      rewrite <- Zle_Qle. lia.
Qed.

Lemma sum_list_map_le {A} (f : A → nat) (l : list A) (b : nat) :
  (∀ x, f x ≤ b) → sum_list (map f l) ≤ length l * b.
Proof.
  intros Hb. induction l as [|x l IH]; simpl; [lia|].
  pose proof (Hb x). lia.
Qed.

Lemma sumZ_of_nat (l : list nat) :
  sumZ (map Z.of_nat l) = Z.of_nat (sum_list l).
Proof. induction l as [|x l IH]; simpl; [done|]. rewrite IH. lia. Qed.

(** ** The shape of the result *)

(** X14.  A successful evaluation returns one accuracy and one timeline
    per symbol, each timeline with one 0/1 entry per test sample, and the
    two nested arrays with one row per test sample and one entry per
    symbol; for well-formed tensors each of these entries holds [h]
    values.  There is at least one test sample, one symbol and one
    horizon: a tensor without elements gives an empty nested array. *)
Theorem evaluation_result_shapes (this : GRUModel.t) (X y : Tensor float)
    (syms : list string) (h : nat) (m : Tensor float → Tensor float)
    (N : nat) (rest : list nat) (r : GRUModel.Evaluation) :
  GRUModel.model this = Some m → shape (m X) = N :: rest →
  0 < N → 0 < length syms → 0 < h →
  GRUModel.evaluateTestSet this X y syms h = Ok r →
  length (GRUModel.perStockAcc r) = length syms
  ∧ length (GRUModel.perStockTimeline r) = length syms
  ∧ (∀ row, row ∈ GRUModel.perStockTimeline r →
       length row = N ∧ ∀ b, b ∈ row → b = 0%Z ∨ b = 1%Z)
  ∧ length (GRUModel.predArr r) = N
  ∧ length (GRUModel.truthArr r) = N
  ∧ (∀ row, row ∈ GRUModel.predArr r → length row = length syms)
  ∧ (∀ row, row ∈ GRUModel.truthArr r → length row = length syms)
  ∧ (wf (m X) → wf y →
     ∀ n s, n < N → s < length syms →
       ∃ ps ts, at2 (GRUModel.predArr r) n s = Some ps
         ∧ at2 (GRUModel.truthArr r) n s = Some ts
         ∧ length ps = h ∧ length ts = h).
Proof.
  intros Hm Hsh _ _ _ He.
  apply evaluateTestSet_Ok in He
    as (m' & N' & rest' & Hm' & Hsh' & Hp & Hy & ->).
  rewrite Hm in Hm'. injection Hm' as <-.
  rewrite Hsh in Hsh'. injection Hsh' as <- <-.
  unfold evaluationOf. cbn [GRUModel.perStockAcc GRUModel.perStockTimeline
    GRUModel.predArr GRUModel.truthArr].
  split. { unfold meanAxes02. by rewrite length_map, length_seq. }
  split. { unfold transposed. by rewrite length_map, length_seq. }
  split.
  { intros row Hrow. unfold transposed in Hrow.
    apply list_elem_of_fmap in Hrow as (s & -> & Hs). split.
    - by rewrite length_map, length_seq.
    - intros b Hb. apply list_elem_of_fmap in Hb as (n & -> & Hn).
      rewrite nth_lookup.
      destruct (_ !! _) as [z|] eqn:E; simpl; [|by left].
      apply list_elem_of_lookup_2, list_elem_of_fmap in E as (q & -> & _).
      unfold greaterHalf. destruct (Qle_bool _ _); auto. }
  split; [apply length_array3|]. split; [apply length_array3|].
  split. { intros row Hrow. by apply array3_rows in Hrow as [? _]. }
  split. { intros row Hrow. by apply array3_rows in Hrow as [? _]. }
  intros Hwp Hwy n s Hn Hs. rewrite !array3_lookup2 by done.
  eexists _, _. split; [done|]. split; [done|].
  unfold wf in Hwp, Hwy. rewrite <- Hp in Hwp. rewrite <- Hy in Hwy.
  rewrite !length_take, !length_drop, !length_map, Hwp, Hwy.
  assert (n * length syms + s + 1 ≤ N * length syms) as H1 by nia.
  pose proof (Nat.mul_le_mono_r _ _ h H1). split; lia.
Qed.

(** ** What the accuracies count *)

(** X15.  For well-formed tensors with at least one sample, one symbol
    and one horizon and fewer than [2^24] entries, the accuracy of asset
    [s] is the float32 mean of [N*h] entries of which as many are 1 as
    there are (sample, horizon) entries of this asset on which the
    thresholded prediction and the truth agree: it differs from that number
    divided by [N*h] by at most the fraction [2^-22] of it.  In the same
    way the overall accuracy is the float32 mean for all agreeing entries
    among the [N*S*h].  Both lie between 0 and 1. *)
Theorem accuracies_are_hit_ratios (this : GRUModel.t) (X y : Tensor float)
    (syms : list string) (h : nat) (m : Tensor float → Tensor float)
    (N : nat) (rest : list nat) (r : GRUModel.Evaluation) :
  GRUModel.model this = Some m → shape (m X) = N :: rest →
  wf (m X) → wf y → 0 < N → 0 < length syms → 0 < h →
  (Z.of_nat (N * length syms * h) < 2 ^ 24)%Z →
  GRUModel.evaluateTestSet this X y syms h = Ok r →
  let hits := assetHits (GRUModel.predArr r) (GRUModel.truthArr r) in
  let total := sum_list (map hits (seq 0 (length syms))) in
  let ratio (k n : nat) := (inject_Z (Z.of_nat k) / inject_Z (Z.of_nat n))%Q in
  (∀ s a, GRUModel.perStockAcc r !! s = Some a →
     (a == ratio32 (hits s) (N * h))%Q
     ∧ hits s ≤ N * h
     ∧ (Qabs (a - ratio (hits s) (N * h)%nat)
        <= ratio (hits s) (N * h)%nat * (1 # 4194304))%Q
     ∧ (0 <= a)%Q ∧ (a <= 1)%Q)
  ∧ (GRUModel.overallAcc r == ratio32 total (N * length syms * h))%Q
  ∧ total ≤ N * length syms * h
  ∧ (Qabs (GRUModel.overallAcc r - ratio total (N * length syms * h)%nat)
     <= ratio total (N * length syms * h)%nat * (1 # 4194304))%Q
  ∧ (0 <= GRUModel.overallAcc r)%Q ∧ (GRUModel.overallAcc r <= 1)%Q.
Proof.
  intros Hm Hsh Hwp Hwy HN HS Hh Hsize He.
  apply evaluateTestSet_Ok in He
    as (m' & N' & rest' & Hm' & Hsh' & Hp & Hy & ->).
  rewrite Hm in Hm'. injection Hm' as <-.
  rewrite Hsh in Hsh'. injection Hsh' as <- <-.
  cbv zeta. unfold evaluationOf. cbn [GRUModel.perStockAcc
    GRUModel.overallAcc GRUModel.predArr GRUModel.truthArr].
  set (hits := assetHits _ _).
  unfold wf in Hwp, Hwy. rewrite <- Hp in Hwp. rewrite <- Hy in Hwy.
  pose proof (correctness_bits y (m X)) as Hbits.
  assert (Hone : ∀ s, (mean32 (N * h)
                         (concat (map (λ row, nth s row [])
                            (array3 N (length syms) h
                               (correctness y (m X)))))
                       == ratio32 (hits s) (N * h))%Q).
  { intros s. rewrite mean32_bits; [|nia|nia|by apply Forall_column].
    unfold correctness. rewrite asset_sum_is_hits. reflexivity. }
  assert (Hle : ∀ s, hits s ≤ N * h) by (intros s; apply assetHits_le).
  split.
  { intros s a Ha. unfold meanAxes02 in Ha.
    rewrite list_lookup_fmap in Ha.
    destruct (seq 0 (length syms) !! s) as [s'|] eqn:Es; [|done].
    apply lookup_seq in Es as [-> _]. injection Ha as <-.
    cbn [Nat.add]. split; [apply Hone|]. split; [apply Hle|].
    destruct (ratio32_spec (hits s) (N * h)) as (H1 & H2 & H3);
      [nia|nia|apply Hle|].
    rewrite (Hone s). done. }
  assert (length (correctness y (m X)) = N * length syms * h) as Hlen.
  { by apply length_correctness. }
  assert (sumZ (correctness y (m X))
          = Z.of_nat (sum_list (map hits (seq 0 (length syms))))) as Hsum.
  { rewrite <- (sum_by_asset N (length syms) h) by done.
    rewrite <- sumZ_of_nat, map_map. f_equal. apply List.map_ext.
    intros s. unfold correctness. by rewrite asset_sum_is_hits. }
  assert (sum_list (map hits (seq 0 (length syms))) ≤ N * length syms * h)
    as Hall.
  { etrans; [apply (sum_list_map_le hits _ (N * h) Hle)|].
    rewrite length_seq. lia. }
  assert (Hov : (meanAll (correctness y (m X))
                 == ratio32 (sum_list (map hits (seq 0 (length syms))))
                      (N * length syms * h))%Q).
  { unfold meanAll. rewrite Hlen.
    rewrite mean32_bits; [|nia|done|done].
    rewrite Hsum. reflexivity. }
  split; [exact Hov|]. split; [exact Hall|].
  destruct (ratio32_spec (sum_list (map hits (seq 0 (length syms))))
              (N * length syms * h)) as (H1 & H2 & H3); [nia|done|done|].
  rewrite Hov. done.
Qed.

(** ** The evaluator and the routines it calls *)

(** X16.  [evaluateTestSet] returns exactly when [predict] and
    [computePerStockAccuracy] on its prediction both return, and its two
    accuracies are then those of [computePerStockAccuracy]. *)
Theorem evaluateTestSet_runs_predict_then_accuracy (this : GRUModel.t)
    (X y : Tensor float) (syms : list string) (h : nat) :
  (∀ r, GRUModel.evaluateTestSet this X y syms h = Ok r →
     ∃ preds acc,
       GRUModel.predict this X = Ok preds
       ∧ GRUModel.computePerStockAccuracy y preds (length syms) h = Ok acc
       ∧ GRUModel.perStockAcc r = GRUModel.acc_perStockAcc acc
       ∧ GRUModel.overallAcc r = GRUModel.acc_overallAcc acc)
  ∧ (∀ preds acc,
       GRUModel.predict this X = Ok preds →
       GRUModel.computePerStockAccuracy y preds (length syms) h = Ok acc →
       ∃ r, GRUModel.evaluateTestSet this X y syms h = Ok r).
Proof.
  split.
  - intros r Hr. apply evaluateTestSet_Ok in Hr
      as (m & N & rest & Hm & Hsh & Hp & Hy & ->).
    exists (m X), (GRUModel.mkAccuracy
                     (meanAxes02 N (length syms) h (correctness y (m X)))
                     (meanAll (correctness y (m X)))).
    split. { unfold GRUModel.predict. by rewrite Hm. }
    split; [|done]. apply computePerStockAccuracy_Ok. by exists N, rest.
  - intros preds acc Hpred Hacc. unfold GRUModel.predict in Hpred.
    destruct (GRUModel.model this) as [m|] eqn:Hm; [|discriminate].
    injection Hpred as <-.
    apply computePerStockAccuracy_Ok in Hacc
      as (N & rest & Hsh & Hp & Hy & _).
    eexists. apply evaluateTestSet_Ok. by exists m, N, rest.
Qed.

(** X17.  The evaluation reads the predictions only through their shape
    and their comparison with one half: two predictors whose outputs have
    one shape and the same thresholded entries get the same result, or the
    same error. *)
Theorem evaluation_depends_on_thresholded_predictions
    (this1 this2 : GRUModel.t) (X1 X2 y : Tensor float)
    (syms : list string) (h : nat) (m1 m2 : Tensor float → Tensor float) :
  GRUModel.model this1 = Some m1 → GRUModel.model this2 = Some m2 →
  shape (m1 X1) = shape (m2 X2) →
  map (threshold 0.5) (values (m1 X1)) = map (threshold 0.5) (values (m2 X2)) →
  GRUModel.evaluateTestSet this1 X1 y syms h
  = GRUModel.evaluateTestSet this2 X2 y syms h.
Proof.
  intros Hm1 Hm2 Hsh Hv.
  assert (greaterInt 0.5 (m1 X1) = greaterInt 0.5 (m2 X2)) as Hg.
  { unfold greaterInt, tmap. by rewrite Hsh, Hv. }
  assert (GRUModel.shape0 (m1 X1) = GRUModel.shape0 (m2 X2)) as H0.
  { unfold GRUModel.shape0. by rewrite Hsh. }
  assert (GRUModel.computePerStockAccuracy y (m1 X1) (length syms) h
          = GRUModel.computePerStockAccuracy y (m2 X2) (length syms) h) as Ha.
  { unfold GRUModel.computePerStockAccuracy. by rewrite Hg. }
  unfold GRUModel.evaluateTestSet, GRUModel.predict. rewrite Hm1, Hm2.
  run_binds. by rewrite Hg, H0, Ha.
Qed.

(** ** Predictions that are all right *)

Lemma assetHits_same (A : list (list (list Z))) (s h : nat) :
  Forall (λ a, length (nth s a []) = h) A →
  assetHits A A s = length A * h.
Proof.
  unfold assetHits. induction 1 as [|a A Ha _ IH]; simpl; [done|].
  rewrite IH, correctCount_same. lia.
Qed.

Lemma array3_full_rows {A} (N S h s : nat) (vals : list A) :
  length vals = N * S * h → s < S →
  Forall (λ a, length (nth s a []) = h) (array3 N S h vals).
Proof.
  intros Hlen Hs. apply Forall_forall. intros row Hrow.
  apply list_elem_of_lookup in Hrow as [n Hn].
  assert (n < N) as HnN.
  { apply lookup_lt_Some in Hn. by rewrite length_array3 in Hn. }
  pose proof (array3_lookup2 N S h n s vals HnN Hs) as H2.
  unfold at2 in H2. rewrite Hn in H2.
  rewrite (nth_lookup_Some _ _ _ _ H2).
  rewrite length_take, length_drop, Hlen.
  assert (n * S + s + 1 ≤ N * S) as H1 by nia.
  pose proof (Nat.mul_le_mono_r _ _ h H1). lia.
Qed.

Lemma sumZ_const {A} (c : Z) (l : list A) :
  sumZ (map (λ _, c) l) = (Z.of_nat (length l) * c)%Z.
Proof. induction l as [|x l IH]; simpl; [done|]. rewrite IH. lia. Qed.

Lemma Qdiv_same_nat (a : nat) :
  0 < a → (inject_Z (Z.of_nat a) / inject_Z (Z.of_nat a) == 1)%Q.
Proof.
  intros Ha. apply Qmult_inv_r. by apply inject_nat_nonzero.
Qed.

Lemma ratio32_full (n : nat) :
  0 < n → (Z.of_nat n < 2 ^ 24)%Z →
  (1 - (1 # 4194304) <= ratio32 n n)%Q ∧ (ratio32 n n <= 1)%Q.
Proof.
  intros Hn Hlt. destruct (ratio32_spec n n Hn Hlt (le_n n)) as (H1 & _ & H3).
  split; [|done]. cbv zeta in H1.
  rewrite (Qdiv_same_nat n Hn) in H1.
  apply Qabs_Qle_condition in H1 as [H1 _]. lra.
Qed.

(** The float32 mean of ones only is 1 for four entries and one step below
    1 for forty-one. *)
Example ratio32_of_ones :
  (ratio32 4 4 == 1)%Q ∧ (ratio32 41 41 == 16777215 # 16777216)%Q.
Proof. split; by vm_compute. Qed.

(** X18.  When every thresholded prediction equals its truth, on
    well-formed tensors with at least one sample, one symbol and one
    horizon and fewer than [2^24] entries, the prediction array is the
    truth array, every entry of every timeline is 1, and every per-asset
    accuracy and the overall accuracy are the float32 means of ones only:
    at most 1 and at least [1 - 2^-22]. *)
Theorem perfect_predictions_score_one (this : GRUModel.t)
    (X y : Tensor float) (syms : list string) (h : nat)
    (m : Tensor float → Tensor float) (N : nat) (rest : list nat)
    (r : GRUModel.Evaluation) :
  GRUModel.model this = Some m → shape (m X) = N :: rest →
  wf (m X) → wf y → 0 < N → 0 < length syms → 0 < h →
  (Z.of_nat (N * length syms * h) < 2 ^ 24)%Z →
  map (threshold 0.5) (values (m X)) = map toInt32 (values y) →
  GRUModel.evaluateTestSet this X y syms h = Ok r →
  GRUModel.predArr r = GRUModel.truthArr r
  ∧ (∀ s a, GRUModel.perStockAcc r !! s = Some a →
       (a == ratio32 (N * h) (N * h))%Q
       ∧ (1 - (1 # 4194304) <= a)%Q ∧ (a <= 1)%Q)
  ∧ (GRUModel.overallAcc r
     == ratio32 (N * length syms * h) (N * length syms * h))%Q
  ∧ (1 - (1 # 4194304) <= GRUModel.overallAcc r)%Q
  ∧ (GRUModel.overallAcc r <= 1)%Q
  ∧ (∀ s n, s < length syms → n < N →
       at2 (GRUModel.perStockTimeline r) s n = Some 1%Z).
Proof.
  intros Hm Hsh Hwp Hwy HN HS Hh Hsize Heq He.
  apply evaluateTestSet_Ok in He
    as (m' & N' & rest' & Hm' & Hsh' & Hp & Hy & ->).
  rewrite Hm in Hm'. injection Hm' as <-.
  rewrite Hsh in Hsh'. injection Hsh' as <- <-.
  unfold evaluationOf. cbn [GRUModel.perStockAcc GRUModel.overallAcc
    GRUModel.predArr GRUModel.truthArr GRUModel.perStockTimeline].
  unfold wf in Hwp, Hwy. rewrite <- Hp in Hwp. rewrite <- Hy in Hwy.
  assert (length (map toInt32 (values y)) = N * length syms * h) as Hlen
    by (by rewrite length_map).
  pose proof (correctness_bits y (m X)) as Hbits.
  split; [by rewrite Heq|]. split.
  { intros s a Ha. unfold meanAxes02 in Ha.
    rewrite list_lookup_fmap in Ha.
    destruct (seq 0 (length syms) !! s) as [s'|] eqn:Es; [|done].
    apply lookup_seq in Es as [-> Hs]. injection Ha as <-. cbn [Nat.add].
    assert (mean32 (N * h)
              (concat (map (λ row, nth s row [])
                         (array3 N (length syms) h (correctness y (m X)))))
            == ratio32 (N * h) (N * h))%Q as Hone.
    { rewrite mean32_bits; [|nia|nia|by apply Forall_column].
      unfold correctness. rewrite asset_sum_is_hits, Heq.
      rewrite (assetHits_same _ s h) by (by apply array3_full_rows).
      rewrite length_array3. reflexivity. }
    split; [exact Hone|]. rewrite Hone. apply ratio32_full; nia. }
  assert (meanAll (correctness y (m X))
          == ratio32 (N * length syms * h) (N * length syms * h))%Q as Hov.
  { unfold meanAll.
    assert (length (correctness y (m X)) = N * length syms * h) as Hl
      by (by apply length_correctness).
    rewrite Hl. rewrite mean32_bits; [|nia|done|done].
    assert (sumZ (correctness y (m X))
            = Z.of_nat (N * length syms * h)) as ->.
    { rewrite <- (sum_by_asset N (length syms) h) by done.
      unfold correctness. rewrite Heq.
      rewrite (List.map_ext_in _ (λ _, Z.of_nat (N * h))).
      - rewrite sumZ_const, length_seq. lia.
      - intros s Hs. apply list_elem_of_In, elem_of_seq in Hs.
        rewrite asset_sum_is_hits.
        rewrite (assetHits_same _ s h)
          by (apply array3_full_rows; [done|lia]).
        by rewrite length_array3. }
    reflexivity. }
  split; [exact Hov|].
  split; [rewrite Hov; apply ratio32_full; [nia|done]|].
  split; [rewrite Hov; apply ratio32_full; [nia|done]|].
  intros s n Hs Hn.
  destruct (timeline_entry (m X) y N (length syms) h n s Hn Hs)
    as (ps & ts & Hps & Hts & ->).
  f_equal. rewrite Heq in Hps. rewrite Hps in Hts. injection Hts as <-.
  rewrite correctCount_same.
  assert (length ps = h) as ->.
  { rewrite array3_lookup2 in Hps by done. injection Hps as <-.
    rewrite length_take, length_drop, Hlen.
    assert (n * length syms + s + 1 ≤ N * length syms) as H1 by nia.
    pose proof (Nat.mul_le_mono_r _ _ h H1). lia. }
  apply greaterHalf_spec. rewrite Qdiv_same_nat by done. done.
Qed.

(** ** From the loader to the evaluator *)

Lemma toInt32_label (b : bool) :
  toInt32 (if b then 1%float else 0%float) = if b then 1%Z else 0%Z.
Proof. by destruct b; vm_compute. Qed.

(** X19.  The labels a prepared dataset holds for its test part reach the
    evaluator in the order it assumes: with the symbols and the horizon of
    the loader and a predictor that returns one row of [S*h] values per
    test sample, the evaluation returns, and its truth array holds at
    [n][s][o-1] the label of the [n]-th test sample for asset [s] at offset
    [o], 1 when the close rises from the anchor to the offset and 0
    otherwise. *)
Theorem test_truths_are_the_loader_labels (this : DataLoader.t) (p : float)
    (this' : DataLoader.t) (meta : Meta) (g : Tensors) (smp : list Sample)
    (gru : GRUModel.t) (m : Tensor float → Tensor float) (X : Tensor float) :
  prepareDataset this p = (this', Ok meta) →
  getTensors this' = Ok g →
  collectSamples this = Ok smp →
  GRUModel.model gru = Some m →
  shape (m X) = [length (t_y_test g); outputDim meta] →
  ∃ r,
    GRUModel.evaluateTestSet gru X (matrixOf (outputDim meta) (t_y_test g))
      (meta_symbols meta) (forecastHorizon this) = Ok r
    ∧ length (GRUModel.truthArr r) = Z.to_nat (testSamples meta)
    ∧ ∀ n x s o,
        smp !! (Z.to_nat (trainSamples meta) + n) = Some x →
        s < length (symbols this) → 1 ≤ o ≤ forecastHorizon this →
        ∃ ser vD vF,
          seriesAt this s = Ok ser ∧ ser !! anchor x = Some vD
          ∧ ser !! (anchor x + o) = Some vF
          ∧ at3 (GRUModel.truthArr r) n s (o - 1)
            = Some (if gt (close vF) (close vD) then 1%Z else 0%Z).
Proof.
  intros Hp Hg Hc Hm Hsh.
  destruct (prepareDataset_cases this p)
    as [[e He]|(smp' & c & _ & Hc' & Hne & _ & Hr & Hp')].
  { rewrite He in Hp. discriminate. }
  rewrite Hc in Hc'. injection Hc' as <-.
  rewrite Hp' in Hp. injection Hp as <- <-.
  unfold getTensors in Hg. rewrite dataset_log in Hg. simpl in Hg.
  injection Hg as <-.
  cbn [splitDataset splitMeta y_test t_y_test outputDim meta_symbols
       trainSamples testSamples] in *.
  set (S := length (symbols this)) in *.
  set (h := forecastHorizon this) in *.
  set (k := Z.to_nat c) in *.
  set (rows := drop k (map output smp)) in *.
  assert (∀ x, x ∈ smp → sampleOutput this (anchor x) = Ok (output x))
    as Hout.
  { intros x Hx. destruct (collectSamples_elem this smp x Hc Hx) as [Hat _].
    by apply sampleAt_Some in Hat as (_ & _ & _ & ? & _). }
  assert (Forall (λ l, length l = S * h) rows) as Hall.
  { apply Forall_forall. intros l Hl. unfold rows in Hl.
    apply subseteq_drop in Hl.
    apply list_elem_of_fmap in Hl as (x & -> & Hx).
    by apply Hout, sampleOutput_spec in Hx as [? _]. }
  assert (length rows = Z.to_nat (Z.of_nat (length smp) - c)) as Hrows.
  { unfold rows, k. rewrite length_drop, length_map. lia. }
  eexists. split.
  { apply evaluateTestSet_Ok. exists m, (length rows), [S * h].
    split; [done|]. split; [done|]. rewrite Hsh.
    unfold matrixOf. cbn [shape]. rewrite sizeOf2.
    split; [lia|]. split; [lia|]. reflexivity. }
  unfold evaluationOf. cbn [GRUModel.truthArr].
  split. { by rewrite length_array3. }
  intros n x s o Hx Hs Ho.
  assert (x ∈ smp) as Hin by by eapply list_elem_of_lookup_2.
  assert (rows !! n = Some (output x)) as Hrow.
  { unfold rows. rewrite lookup_drop, list_lookup_fmap. fold k.
    by rewrite Hx. }
  pose proof (Hout x Hin) as Hox.
  apply sampleOutput_spec in Hox as [_ Hlab].
  destruct (Hlab s o Hs Ho) as (ser & vD & vF & Hser & HvD & HvF & Hy).
  exists ser, vD, vF. split; [done|]. split; [done|]. split; [done|].
  rewrite array3_lookup3; [|by eapply lookup_lt_Some|done|lia].
  unfold matrixOf. cbn [values]. rewrite list_lookup_fmap.
  fold S h in Hy. fold S h.
  replace ((n * S + s) * h + (o - 1)) with (n * (S * h) + (s * h + (o - 1)))
    by lia.
  rewrite (concat_lookup_uniform _ _ _ _ _ Hall Hrow).
  - rewrite Hy. simpl. f_equal. apply toInt32_label.
  - assert (s * h + h ≤ S * h) by nia. lia.
Qed.

(** * Further properties of the normalisers *)

(** ** The order of the Numbers *)

Lemma SFcompare_antisym (x y : spec_float) :
  SFcompare y x = CompOpp <$> SFcompare x y.
Proof.
  destruct x as [sx|sx| |sx mx ex], y as [sy|sy| |sy my ey]; simpl;
    try reflexivity;
    try (destruct sx; reflexivity); try (destruct sy; reflexivity);
    try (destruct sx, sy; reflexivity).
  destruct sx, sy; simpl; try reflexivity;
    rewrite (Z.compare_antisym ex ey); destruct (ex ?= ey)%Z; simpl;
    try reflexivity; rewrite (Pos.compare_cont_antisym mx my Eq);
    simpl; by rewrite ?CompOpp_involutive.
Qed.

Lemma SFleb_refl (x : spec_float) : x ≠ S754_nan → SFleb x x = true.
Proof.
  unfold SFleb. destruct x as [sx|sx| |sx mx ex]; simpl; try done.
  - by destruct sx.
  - intros _. rewrite Z.compare_refl, Pos.compare_cont_refl. by destruct sx.
Qed.

Lemma SFleb_trans (x y z : spec_float) :
  SFleb x y = true → SFleb y z = true → SFleb x z = true.
Proof.
  unfold SFleb.
  destruct x as [sx|sx| |sx mx ex], y as [sy|sy| |sy my ey],
           z as [sz|sz| |sz mz ez]; simpl;
    try done;
    try (destruct sx; done); try (destruct sy; done); try (destruct sz; done);
    try (destruct sx, sy; done); try (destruct sx, sz; done);
    try (destruct sy, sz; done); try (destruct sx, sy, sz; done).
  destruct sx, sy, sz; simpl; try done;
    change (Pos.compare_cont Eq ?a ?b) with (Pos.compare a b);
    destruct (Z.compare_spec ex ey), (Z.compare_spec ey ez),
             (Z.compare_spec ex ez); try lia; try done; subst;
    destruct (Pos.compare_spec mx my), (Pos.compare_spec my mz),
             (Pos.compare_spec mx mz); simpl; try done; try lia.
Qed.

Lemma is_nan_Prim2SF (x : float) :
  PrimFloat.is_nan x = false ↔ Prim2SF x ≠ S754_nan.
Proof.
  unfold PrimFloat.is_nan. rewrite FloatAxioms.eqb_spec. unfold SFeqb.
  destruct (Prim2SF x) as [sx|sx| |sx mx ex]; simpl.
  - split; [discriminate|done].
  - destruct sx; (split; [discriminate|done]).
  - split; [discriminate|done].
  - rewrite Z.compare_refl, Pos.compare_cont_refl.
    destruct sx; (split; [discriminate|done]).
Qed.

Lemma float_leb_refl (x : float) :
  PrimFloat.is_nan x = false → PrimFloat.leb x x = true.
Proof.
  intros H. rewrite FloatAxioms.leb_spec. apply SFleb_refl.
  by apply is_nan_Prim2SF.
Qed.

Lemma float_leb_trans (x y z : float) :
  PrimFloat.leb x y = true → PrimFloat.leb y z = true →
  PrimFloat.leb x z = true.
Proof. rewrite !FloatAxioms.leb_spec. apply SFleb_trans. Qed.

Lemma float_ltb_leb (x y : float) :
  PrimFloat.ltb x y = true → PrimFloat.leb x y = true.
Proof.
  rewrite FloatAxioms.ltb_spec, FloatAxioms.leb_spec.
  unfold SFltb, SFleb. by destruct (SFcompare _ _) as [[]|].
Qed.

Lemma float_not_ltb_leb (x y : float) :
  PrimFloat.is_nan x = false → PrimFloat.is_nan y = false →
  PrimFloat.ltb x y = false → PrimFloat.leb y x = true.
Proof.
  intros Hx Hy. apply is_nan_Prim2SF in Hx, Hy.
  rewrite FloatAxioms.ltb_spec, FloatAxioms.leb_spec.
  unfold SFltb, SFleb. rewrite (SFcompare_antisym (Prim2SF x) (Prim2SF y)).
  destruct (SFcompare (Prim2SF x) (Prim2SF y)) as [[]|] eqn:E; simpl; try done.
  intros _. destruct (Prim2SF x), (Prim2SF y); simpl in E; done.
Qed.

Lemma float_leb_antisym_eqb (x y : float) :
  PrimFloat.leb x y = true → PrimFloat.leb y x = true →
  PrimFloat.eqb x y = true.
Proof.
  rewrite !FloatAxioms.leb_spec, FloatAxioms.eqb_spec.
  unfold SFleb, SFeqb. rewrite (SFcompare_antisym (Prim2SF x) (Prim2SF y)).
  by destruct (SFcompare (Prim2SF x) (Prim2SF y)) as [[]|].
Qed.

Lemma float_eqb_leb (x y : float) :
  PrimFloat.eqb x y = true → PrimFloat.leb x y = true.
Proof.
  rewrite FloatAxioms.leb_spec, FloatAxioms.eqb_spec.
  unfold SFleb, SFeqb. by destruct (SFcompare _ _) as [[]|].
Qed.

Lemma float_leb_infinity_inv (x : float) :
  PrimFloat.leb PrimFloat.infinity x = true → x = PrimFloat.infinity.
Proof.
  rewrite FloatAxioms.leb_spec. intros H. apply FloatAxioms.Prim2SF_inj.
  change (Prim2SF PrimFloat.infinity) with (S754_infinity false) in *.
  unfold SFleb in H.
  destruct (Prim2SF x) as [sx|sx| |sx mx ex]; simpl in H; try done.
  by destruct sx.
Qed.

Lemma float_leb_neg_infinity_inv (x : float) :
  PrimFloat.leb x PrimFloat.neg_infinity = true → x = PrimFloat.neg_infinity.
Proof.
  rewrite FloatAxioms.leb_spec. intros H. apply FloatAxioms.Prim2SF_inj.
  change (Prim2SF PrimFloat.neg_infinity) with (S754_infinity true) in *.
  unfold SFleb in H.
  destruct (Prim2SF x) as [sx|sx| |sx mx ex]; simpl in H; try done;
    by destruct sx.
Qed.

Lemma min2_spec (a b : float) :
  PrimFloat.is_nan a = false → PrimFloat.is_nan b = false →
  (min2 a b = a ∨ min2 a b = b)
  ∧ PrimFloat.leb (min2 a b) a = true ∧ PrimFloat.leb (min2 a b) b = true.
Proof.
  intros Ha Hb. unfold min2. rewrite Ha, Hb. simpl.
  destruct (PrimFloat.ltb b a) eqn:E1.
  { split; [by right|]. split; [by apply float_ltb_leb|by apply float_leb_refl]. }
  destruct (PrimFloat.ltb a b) eqn:E2.
  { split; [by left|]. split; [by apply float_leb_refl|by apply float_ltb_leb]. }
  pose proof (float_not_ltb_leb b a Hb Ha E1).
  pose proof (float_not_ltb_leb a b Ha Hb E2).
  destruct (is_neg_zero b).
  - split; [by right|]. split; [done|by apply float_leb_refl].
  - split; [by left|]. split; [by apply float_leb_refl|done].
Qed.

Lemma max2_spec (a b : float) :
  PrimFloat.is_nan a = false → PrimFloat.is_nan b = false →
  (max2 a b = a ∨ max2 a b = b)
  ∧ PrimFloat.leb a (max2 a b) = true ∧ PrimFloat.leb b (max2 a b) = true.
Proof.
  intros Ha Hb. unfold max2. rewrite Ha, Hb. simpl.
  destruct (PrimFloat.ltb a b) eqn:E1.
  { split; [by right|]. split; [by apply float_ltb_leb|by apply float_leb_refl]. }
  destruct (PrimFloat.ltb b a) eqn:E2.
  { split; [by left|]. split; [by apply float_leb_refl|by apply float_ltb_leb]. }
  pose proof (float_not_ltb_leb b a Hb Ha E2).
  pose proof (float_not_ltb_leb a b Ha Hb E1).
  destruct (is_neg_zero a).
  - split; [by right|]. split; [done|by apply float_leb_refl].
  - split; [by left|]. split; [by apply float_leb_refl|done].
Qed.

Lemma fold_min2_spec (xs : list float) (acc : float) :
  PrimFloat.is_nan acc = false →
  Forall (λ x, PrimFloat.is_nan x = false) xs →
  let r := fold_left min2 xs acc in
  PrimFloat.is_nan r = false
  ∧ PrimFloat.leb r acc = true
  ∧ (∀ x, x ∈ xs → PrimFloat.leb r x = true)
  ∧ (r = acc ∨ r ∈ xs).
Proof.
  revert acc. induction xs as [|x xs IH]; intros acc Hacc Hxs; simpl.
  - split; [done|]. split; [by apply float_leb_refl|]. split; [|by left].
    intros x Hx. by apply elem_of_nil in Hx.
  - apply Forall_cons in Hxs as [Hx Hxs].
    destruct (min2_spec acc x Hacc Hx) as (Hsel & Hle1 & Hle2).
    assert (PrimFloat.is_nan (min2 acc x) = false) as Hm.
    { by destruct Hsel as [-> | ->]. }
    destruct (IH (min2 acc x) Hm Hxs) as (Hr & Hle & Hall & Hin).
    split; [done|]. split; [by eapply float_leb_trans|]. split.
    + intros y Hy. apply elem_of_cons in Hy as [->|Hy]; [|by apply Hall].
      by eapply float_leb_trans.
    + destruct Hin as [Hin|Hin]; [|right; by right].
      rewrite Hin. destruct Hsel as [-> | ->]; [by left|right; by left].
Qed.

Lemma fold_max2_spec (xs : list float) (acc : float) :
  PrimFloat.is_nan acc = false →
  Forall (λ x, PrimFloat.is_nan x = false) xs →
  let r := fold_left max2 xs acc in
  PrimFloat.is_nan r = false
  ∧ PrimFloat.leb acc r = true
  ∧ (∀ x, x ∈ xs → PrimFloat.leb x r = true)
  ∧ (r = acc ∨ r ∈ xs).
Proof.
  revert acc. induction xs as [|x xs IH]; intros acc Hacc Hxs; simpl.
  - split; [done|]. split; [by apply float_leb_refl|]. split; [|by left].
    intros x Hx. by apply elem_of_nil in Hx.
  - apply Forall_cons in Hxs as [Hx Hxs].
    destruct (max2_spec acc x Hacc Hx) as (Hsel & Hle1 & Hle2).
    assert (PrimFloat.is_nan (max2 acc x) = false) as Hm.
    { by destruct Hsel as [-> | ->]. }
    destruct (IH (max2 acc x) Hm Hxs) as (Hr & Hle & Hall & Hin).
    split; [done|]. split; [by eapply float_leb_trans|]. split.
    + intros y Hy. apply elem_of_cons in Hy as [->|Hy]; [|by apply Hall].
      by eapply float_leb_trans.
    + destruct Hin as [Hin|Hin]; [|right; by right].
      rewrite Hin. destruct Hsel as [-> | ->]; [by left|right; by left].
Qed.

Lemma Math_min_spec (xs : list float) :
  Forall (λ x, PrimFloat.is_nan x = false) xs → xs ≠ [] →
  Math_min xs ∈ xs ∧ ∀ x, x ∈ xs → PrimFloat.leb (Math_min xs) x = true.
Proof.
  intros Hxs Hne.
  destruct (fold_min2_spec xs PrimFloat.infinity eq_refl Hxs)
    as (_ & _ & Hall & Hin).
  split; [|done]. destruct Hin as [Hin|Hin]; [|done].
  destruct xs as [|x xs]; [done|].
  assert (x = PrimFloat.infinity) as Hx.
  { apply float_leb_infinity_inv. unfold Math_min in *. rewrite <- Hin.
    apply Hall. by left. }
  unfold Math_min. rewrite Hin, <- Hx. by left.
Qed.

Lemma Math_max_spec (xs : list float) :
  Forall (λ x, PrimFloat.is_nan x = false) xs → xs ≠ [] →
  Math_max xs ∈ xs ∧ ∀ x, x ∈ xs → PrimFloat.leb x (Math_max xs) = true.
Proof.
  intros Hxs Hne.
  destruct (fold_max2_spec xs PrimFloat.neg_infinity eq_refl Hxs)
    as (_ & _ & Hall & Hin).
  split; [|done]. destruct Hin as [Hin|Hin]; [|done].
  destruct xs as [|x xs]; [done|].
  assert (x = PrimFloat.neg_infinity) as Hx.
  { apply float_leb_neg_infinity_inv. unfold Math_max in *. rewrite <- Hin.
    apply Hall. by left. }
  unfold Math_max. rewrite Hin, <- Hx. by left.
Qed.

(** ** The statistics of a loaded series *)

Section NormaliserBounds.
Variable Date_parse : string → option Z.
Variable toISOString : Z → string.

Lemma loaded_slot_cases this parsed this' r s sym ser v :
  loadFromCSVText Date_parse toISOString this parsed = (this', Ok r) →
  symbols this' !! s = Some sym →
  perSymbolSeries this' !! sym = Some ser → v ∈ ser →
  slotPresent v ∨ slotMissing v.
Proof.
  intros Hl Hs Hser Hv. apply list_elem_of_lookup in Hv as [j Hj].
  destruct (lookup_lt_is_Some_2 (dates this') j) as [d Hd].
  { destruct (Loaded_seriesAt this' s) as (ser' & Hser' & Hlen).
    - by eapply loadFromCSVText_Loaded.
    - by eapply lookup_lt_Some.
    - unfold seriesAt in Hser'. rewrite Hs, Hser in Hser'.
      injection Hser' as <-. rewrite <- Hlen. by eapply lookup_lt_Some. }
  destruct (slot_of_rows Date_parse toISOString this parsed this' r s sym j d
              Hl Hs Hd) as (ser2 & E2 & _ & Hj2).
  rewrite Hser in E2. injection E2 as <-. rewrite Hj in Hj2.
  injection Hj2 as ->.
  destruct (last _) as [row|] eqn:El.
  - left. apply last_Some in El as [l' Hl'].
    assert (row ∈ filter (λ r1, key (Symbol r1) (Date r1) = key sym d)
                     (loadedRows Date_parse toISOString parsed)) as Hin.
    { rewrite Hl'. apply elem_of_app. right. by apply list_elem_of_singleton. }
    apply list_elem_of_filter in Hin as [_ Hin].
    apply loadedRows_elem in Hin as (r0 & _ & Hv & ->).
    by apply validRow_numbers in Hv.
  - right. by split.
Qed.

(** Every symbol of a loaded object has a slot that is present. *)
Lemma loaded_series_has_present_slot this parsed this' r s sym ser :
  loadFromCSVText Date_parse toISOString this parsed = (this', Ok r) →
  symbols this' !! s = Some sym →
  perSymbolSeries this' !! sym = Some ser →
  ∃ v, v ∈ ser ∧ slotPresent v.
Proof.
  intros Hl Hs Hser. pose proof Hl as Hl0.
  apply loadFromCSVText_Ok in Hl0 as (_ & _ & Hsym & Hds & _).
  assert (sym ∈ loadedSymbols Date_parse toISOString parsed) as Hin.
  { rewrite <- Hsym. by eapply list_elem_of_lookup_2. }
  unfold loadedSymbols in Hin. apply (proj1 (elem_of_sort _ _ _)) in Hin.
  apply (proj1 (elem_of_distinct _ _)) in Hin.
  apply list_elem_of_fmap in Hin as (r1 & -> & Hr1).
  assert (Date r1 ∈ dates this') as Hd.
  { rewrite Hds. unfold loadedDates. apply elem_of_sort, elem_of_distinct.
    apply list_elem_of_fmap. by exists r1. }
  apply list_elem_of_lookup in Hd as [j Hj].
  destruct (slot_of_rows Date_parse toISOString this parsed this' r s
              (Symbol r1) j (Date r1) Hl Hs Hj) as (ser2 & E2 & _ & Hj2).
  rewrite Hser in E2. injection E2 as <-.
  destruct (last _) as [row|] eqn:El.
  - eexists. split; [by eapply list_elem_of_lookup_2|].
    apply last_Some in El as [l' Hl'].
    assert (row ∈ filter (λ r2, key (Symbol r2) (Date r2)
                                = key (Symbol r1) (Date r1))
                     (loadedRows Date_parse toISOString parsed)) as Hin.
    { rewrite Hl'. apply elem_of_app. right. by apply list_elem_of_singleton. }
    apply list_elem_of_filter in Hin as [_ Hin].
    apply loadedRows_elem in Hin as (r0 & _ & Hv & ->).
    by apply validRow_numbers in Hv.
  - apply last_None in El.
    assert (r1 ∈ filter (λ r2, key (Symbol r2) (Date r2)
                               = key (Symbol r1) (Date r1))
                    (loadedRows Date_parse toISOString parsed)) as Hin.
    { by apply list_elem_of_filter. }
    rewrite El in Hin. by apply elem_of_nil in Hin.
Qed.

(** The minimum and the maximum of the present values of one column. *)
Lemma column_statistics (f : Point → float) (ser : list Point) :
  (∃ v, v ∈ ser ∧ Number_isNaN (f v) = false) →
  let xs := filter (λ x, Number_isNaN x = false) (map f ser) in
  (∃ v, v ∈ ser ∧ Number_isNaN (f v) = false ∧ f v = Math_min xs)
  ∧ (∃ v, v ∈ ser ∧ Number_isNaN (f v) = false ∧ f v = Math_max xs)
  ∧ (∀ v, v ∈ ser → Number_isNaN (f v) = false →
       PrimFloat.leb (Math_min xs) (f v) = true
       ∧ PrimFloat.leb (f v) (Math_max xs) = true).
Proof.
  intros (v0 & Hv0 & Hn0) xs.
  assert (Forall (λ x, PrimFloat.is_nan x = false) xs) as Hall.
  { apply Forall_forall. intros x Hx. by apply list_elem_of_filter in Hx as [? _]. }
  assert (∀ v, v ∈ ser → Number_isNaN (f v) = false → f v ∈ xs) as Hin.
  { intros v Hv Hn. apply list_elem_of_filter. split; [done|].
    apply list_elem_of_fmap. by exists v. }
  assert (∀ x, x ∈ xs → ∃ v, v ∈ ser ∧ Number_isNaN (f v) = false ∧ f v = x)
    as Hback.
  { intros x Hx. apply list_elem_of_filter in Hx as [Hn Hx].
    apply list_elem_of_fmap in Hx as (v & -> & Hv). by exists v. }
  assert (xs ≠ []) as Hne.
  { intros E. pose proof (Hin v0 Hv0 Hn0) as H0. rewrite E in H0.
    by apply elem_of_nil in H0. }
  destruct (Math_min_spec xs Hall Hne) as [Hmin Hle].
  destruct (Math_max_spec xs Hall Hne) as [Hmax Hge].
  split; [by apply Hback|]. split; [by apply Hback|].
  intros v Hv Hn. split; [apply Hle|apply Hge]; by apply Hin.
Qed.

(** X20.  For every symbol of a loaded object the minima of the
    normaliser are attained: [openMin] is the open of a present slot of the
    series and is at most the open of every present slot, and so is
    [closeMin] for the closes.  [openMax] is the greatest present open,
    unless that equals the minimum: then every present open equals the
    minimum and [openMax] is the minimum plus [1e-6]; and alike for
    [closeMax]. *)
Theorem normaliser_holds_least_and_greatest (this : DataLoader.t)
    (parsed : Parsed) (this' : DataLoader.t) (r : list string * list string)
    (s : nat) (sym : string) (ser : list Point) (norm : Normalizer) :
  loadFromCSVText Date_parse toISOString this parsed = (this', Ok r) →
  symbols this' !! s = Some sym →
  perSymbolSeries this' !! sym = Some ser →
  normalizers this' !! sym = Some norm →
  (∃ v, v ∈ ser ∧ slotPresent v ∧ open v = openMin norm)
  ∧ (∃ v, v ∈ ser ∧ slotPresent v ∧ close v = closeMin norm)
  ∧ (∀ v, v ∈ ser → slotPresent v →
       PrimFloat.leb (openMin norm) (open v) = true
       ∧ PrimFloat.leb (closeMin norm) (close v) = true)
  ∧ ((openMax norm = (openMin norm + eps)%float
      ∧ ∀ v, v ∈ ser → slotPresent v →
             strict_eq (open v) (openMin norm) = true)
     ∨ ((∃ v, v ∈ ser ∧ slotPresent v ∧ open v = openMax norm)
        ∧ ∀ v, v ∈ ser → slotPresent v →
               PrimFloat.leb (open v) (openMax norm) = true))
  ∧ ((closeMax norm = (closeMin norm + eps)%float
      ∧ ∀ v, v ∈ ser → slotPresent v →
             strict_eq (close v) (closeMin norm) = true)
     ∨ ((∃ v, v ∈ ser ∧ slotPresent v ∧ close v = closeMax norm)
        ∧ ∀ v, v ∈ ser → slotPresent v →
               PrimFloat.leb (close v) (closeMax norm) = true)).
Proof.
  intros Hl Hs Hser Hnorm.
  destruct (normalizer_of_series Date_parse toISOString this parsed this' r
              s sym Hl Hs) as (ser' & Hser' & Hnorm').
  rewrite Hser in Hser'. injection Hser' as <-.
  rewrite Hnorm in Hnorm'. injection Hnorm' as ->.
  destruct (loaded_series_has_present_slot this parsed this' r s sym ser
              Hl Hs Hser) as (v0 & Hv0 & Hp0 & Hp0').
  assert (∀ v, v ∈ ser → Number_isNaN (open v) = false → slotPresent v)
    as Hopen.
  { intros v Hv Hn.
    destruct (loaded_slot_cases this parsed this' r s sym ser v Hl Hs Hser Hv)
      as [?|[Hm _]]; [done|congruence]. }
  assert (∀ v, v ∈ ser → Number_isNaN (close v) = false → slotPresent v)
    as Hclose.
  { intros v Hv Hn.
    destruct (loaded_slot_cases this parsed this' r s sym ser v Hl Hs Hser Hv)
      as [?|[_ Hm]]; [done|congruence]. }
  destruct (column_statistics open ser) as (Homin & Homax & Hob).
  { by exists v0. }
  destruct (column_statistics close ser) as (Hcmin & Hcmax & Hcb).
  { by exists v0. }
  unfold normalizerOf. cbn [openMin openMax closeMin closeMax].
  set (opens := filter (λ x, Number_isNaN x = false) (map open ser)) in *.
  set (closes := filter (λ x, Number_isNaN x = false) (map close ser)) in *.
  split.
  { destruct Homin as (v & Hv & Hn & E). exists v. eauto. }
  split.
  { destruct Hcmin as (v & Hv & Hn & E). exists v. eauto. }
  split.
  { intros v Hv [Hn1 Hn2]. split; [by apply Hob|by apply Hcb]. }
  split.
  - destruct (strict_eq (Math_max opens) (Math_min opens)) eqn:E.
    + left. split; [done|]. intros v Hv [Hn _].
      destruct (Hob v Hv Hn) as [H1 H2]. apply float_leb_antisym_eqb; [|done].
      eapply float_leb_trans; [exact H2|]. by apply float_eqb_leb.
    + right. split.
      * destruct Homax as (v & Hv & Hn & E'). exists v. eauto.
      * intros v Hv [Hn _]. by apply Hob.
  - destruct (strict_eq (Math_max closes) (Math_min closes)) eqn:E.
    + left. split; [done|]. intros v Hv [_ Hn].
      destruct (Hcb v Hv Hn) as [H1 H2]. apply float_leb_antisym_eqb; [|done].
      eapply float_leb_trans; [exact H2|]. by apply float_eqb_leb.
    + right. split.
      * destruct Hcmax as (v & Hv & Hn & E'). exists v. eauto.
      * intros v Hv [_ Hn]. by apply Hcb.
Qed.

End NormaliserBounds.

(** * The worked scenarios, run through the further properties *)

Lemma length_pad (w : nat) (n : Z) (acc : string) :
  String.length (IsoDate.pad w n acc) = w + String.length acc.
Proof.
  revert n acc. induction w as [|w IH]; intros n acc; simpl; [done|].
  rewrite IH. simpl. lia.
Qed.

Lemma IsoDate_toISOString_long (z : Z) :
  10 ≤ String.length (IsoDate.toISOString z).
Proof.
  unfold IsoDate.toISOString.
  destruct (IsoDate.civilFromDays _) as [[y m] d].
  rewrite length_pad, length_append, length_pad, length_append, length_pad.
  cbn [String.length]. lia.
Qed.

Lemma Scenario_parseable (r1 : Row) :
  r1 ∈ data Scenario.parsed → validRow r1 = true →
  parseable IsoDate.parse (Date r1).
Proof.
  assert (forallb (λ r, match IsoDate.parse (Date r) with
                        | Some _ => true
                        | None => false
                        end) (data Scenario.parsed) = true) as H
    by (vm_compute; reflexivity).
  intros Hr _. left. apply list_elem_of_In in Hr.
  rewrite forallb_forall in H. specialize (H r1 Hr).
  destruct (IsoDate.parse (Date r1)); [by eexists|discriminate].
Qed.

Lemma Scenario_dates_readable (row : Row) :
  row ∈ data Scenario.parsed → validRow row = true →
  is_Some (IsoDate.parse
             (normalizeDate IsoDate.parse IsoDate.toISOString (Date row))).
Proof.
  assert (forallb (λ r, match IsoDate.parse
                                (normalizeDate IsoDate.parse
                                   IsoDate.toISOString (Date r)) with
                        | Some _ => true
                        | None => false
                        end) (data Scenario.parsed) = true) as H
    by (vm_compute; reflexivity).
  intros Hr _. apply list_elem_of_In in Hr.
  rewrite forallb_forall in H. specialize (H row Hr).
  destruct (IsoDate.parse _); [by eexists|discriminate].
Qed.

Lemma Scenario_complete : complete Scenario.loaded.
Proof.
  intros s k Hs Hk.
  assert (length (symbols Scenario.loaded) = 2) as E1
    by (vm_compute; reflexivity).
  assert (length (dates Scenario.loaded) = 6) as E2
    by (vm_compute; reflexivity).
  rewrite E1 in Hs. rewrite E2 in Hk.
  destruct s as [|[|s]]; [| |lia];
    (destruct k as [|[|[|[|[|[|k]]]]]]; [| | | | | |lia]);
    eexists _, _; (split; [vm_compute; reflexivity|]);
    (split; [vm_compute; reflexivity|]);
    split; vm_compute; reflexivity.
Qed.

Lemma Scenario_raw : is_Some (raw Scenario.loaded).
Proof. vm_compute. eexists. reflexivity. Qed.

Lemma Scenario_prepare :
  prepareDataset Scenario.loaded 75
  = (fst Scenario.prepared, Ok PipelineScenario.meta).
Proof. vm_compute. reflexivity. Qed.

Lemma Scenario_tensors :
  getTensors (fst Scenario.prepared) = Ok PipelineScenario.tensors.
Proof. vm_compute. reflexivity. Qed.

(** In the worked scenario the symbols are A and B and the axis has the
    six days, each once. *)
Lemma X2_witness :
  (["A"; "B"],
   ["2024-01-01"; "2024-01-02"; "2024-01-03";
    "2024-01-04"; "2024-01-05"; "2024-01-06"])
  = (symbols Scenario.loaded, dates Scenario.loaded)
  ∧ NoDup (symbols Scenario.loaded) ∧ NoDup (dates Scenario.loaded)
  ∧ (∀ sym, sym ∈ symbols Scenario.loaded ↔
       ∃ row, row ∈ data Scenario.parsed ∧ validRow row = true
              ∧ Symbol row = sym)
  ∧ (∀ d, d ∈ dates Scenario.loaded ↔
       ∃ row, row ∈ data Scenario.parsed ∧ validRow row = true
              ∧ normalizeDate IsoDate.parse IsoDate.toISOString (Date row)
                = d).
Proof.
  apply (loaded_axes_are_the_distinct_values IsoDate.parse
           IsoDate.toISOString Scenario.fresh Scenario.parsed).
  exact Scenario_load.
Defined.

(** In the worked scenario A stands before B. *)
Lemma X3_witness : StronglySorted ascending (symbols Scenario.loaded).
Proof.
  exact (loaded_symbols_ascending IsoDate.parse IsoDate.toISOString
           Scenario.fresh Scenario.parsed Scenario.loaded _ Scenario_load).
Defined.

(** In the worked scenario the series of A is aligned with the six days. *)
Lemma X4_witness :
  ∃ ser, perSymbolSeries Scenario.loaded !! "A" = Some ser
    ∧ length ser = length (dates Scenario.loaded)
    ∧ ∀ j d, dates Scenario.loaded !! j = Some d →
        ∃ v, ser !! j = Some v ∧ date v = d
             ∧ (slotPresent v ∨ slotMissing v).
Proof.
  apply (loaded_series_aligned_with_dates IsoDate.parse IsoDate.toISOString
           Scenario.fresh Scenario.parsed Scenario.loaded _ 0 "A"
           Scenario_load).
  vm_compute. reflexivity.
Defined.

(** In the worked scenario the slot of A on January 1 is present, and a
    row of A has this date. *)
Lemma X5_witness :
  (slotPresent (Scenario.pointA 0) ↔
   ∃ row, row ∈ data Scenario.parsed ∧ validRow row = true
          ∧ Symbol row = "A"
          ∧ normalizeDate IsoDate.parse IsoDate.toISOString (Date row)
            = "2024-01-01")
  ∧ (¬ slotPresent (Scenario.pointA 0) → slotMissing (Scenario.pointA 0)).
Proof.
  apply (slot_present_iff_row_exists IsoDate.parse IsoDate.toISOString
           Scenario.fresh Scenario.parsed Scenario.loaded _ 0 0
           "A" "2024-01-01" Scenario.seriesA (Scenario.pointA 0)
           IsoDate_toISOString_long Scenario_parseable Scenario_load).
  - vm_compute. reflexivity.
  - vm_compute. reflexivity.
  - vm_compute. reflexivity.
  - vm_compute. reflexivity.
Defined.

(** Loading the rows of the worked scenario into an object built with the
    default options gives the same symbols, dates, series and
    normalisers. *)
Lemma X7_witness :
  (∃ other',
      loadFromCSVText IsoDate.parse IsoDate.toISOString
        (constructor (mkOptions None None None)) Scenario.parsed
      = (other',
         Ok (["A"; "B"],
             ["2024-01-01"; "2024-01-02"; "2024-01-03";
              "2024-01-04"; "2024-01-05"; "2024-01-06"]))
      ∧ symbols other' = symbols Scenario.loaded
      ∧ dates other' = dates Scenario.loaded
      ∧ perSymbolSeries other' = perSymbolSeries Scenario.loaded
      ∧ normalizers other' = normalizers Scenario.loaded
      ∧ raw other' = raw Scenario.loaded)
  ∧ sequenceLength Scenario.loaded = sequenceLength Scenario.fresh
  ∧ forecastHorizon Scenario.loaded = forecastHorizon Scenario.fresh
  ∧ dataset Scenario.loaded = dataset Scenario.fresh
  ∧ getTensors Scenario.loaded
    = (λ g, mkTensors (t_X_train g) (t_y_train g) (t_X_test g) (t_y_test g)
              (symbols Scenario.loaded) (t_sampleDatesTest g))
      <$> getTensors Scenario.fresh.
Proof.
  apply (reload_replaces_loaded_fields_only IsoDate.parse
           IsoDate.toISOString Scenario.fresh
           (constructor (mkOptions None None None)) Scenario.parsed).
  exact Scenario_load.
Defined.

(** The worked scenario has valid anchors, and [prepareDataset] does not
    throw for want of samples. *)
Lemma X9_witness :
  (snd (prepareDataset Scenario.loaded 75) = Throw no_samples
   ↔ ∀ i, ¬ validAnchor Scenario.loaded i)
  ∧ (length (dates Scenario.loaded)
     < sequenceLength Scenario.loaded + forecastHorizon Scenario.loaded →
     snd (prepareDataset Scenario.loaded 75) = Throw no_samples).
Proof.
  apply (no_samples_iff_no_valid_anchor Scenario.loaded 75).
  - exact Scenario_Loaded.
  - exact Scenario_raw.
Defined.

(** The worked scenario is complete: six days, a window of two and a
    horizon of one give the anchors 1 to 4. *)
Lemma X10_witness :
  ∃ smp, collectSamples Scenario.loaded = Ok smp
    ∧ map anchor smp
      = seq (sequenceLength Scenario.loaded - 1)
            (length (dates Scenario.loaded) + 1
             - sequenceLength Scenario.loaded
             - forecastHorizon Scenario.loaded)
    ∧ length smp
      = length (dates Scenario.loaded) + 1
        - sequenceLength Scenario.loaded - forecastHorizon Scenario.loaded.
Proof.
  apply (complete_data_gives_every_window Scenario.loaded).
  - exact Scenario_Loaded.
  - exact Scenario_complete.
  - vm_compute. lia.
  - vm_compute. lia.
Defined.

(** The first sample of the worked scenario has two rows of four
    features. *)
Lemma X11_witness :
  sequenceLength Scenario.loaded ≤ anchor Scenario.sample1 + 1
  ∧ length (input Scenario.sample1) = sequenceLength Scenario.loaded
  ∧ ∀ r, r < sequenceLength Scenario.loaded →
      ∃ row, input Scenario.sample1 !! r = Some row
        ∧ length row = length (symbols Scenario.loaded) * 2
        ∧ ∀ s, s < length (symbols Scenario.loaded) →
            ∃ ser v norm,
              seriesAt Scenario.loaded s = Ok ser
              ∧ ser !! (anchor Scenario.sample1 + 1
                        - sequenceLength Scenario.loaded + r) = Some v
              ∧ normalizerAt Scenario.loaded s = Ok norm
              ∧ row !! (s * 2)
                = Some ((open v - openMin norm)
                        / (openMax norm - openMin norm))%float
              ∧ row !! (s * 2 + 1)
                = Some ((close v - closeMin norm)
                        / (closeMax norm - closeMin norm))%float.
Proof.
  apply (input_is_the_normalised_window Scenario.loaded Scenario.samples
           Scenario.sample1).
  - exact Scenario_samples.
  - vm_compute. constructor.
Defined.

(** The samples of the worked scenario come in the order of the anchors 1
    to 4, on four different days. *)
Lemma X12_witness :
  StronglySorted lt (map anchor Scenario.samples)
  ∧ (∀ x, x ∈ Scenario.samples →
          dates Scenario.loaded !! anchor x = Some (anchorDate x))
  ∧ (NoDup (dates Scenario.loaded) →
     NoDup (map anchorDate Scenario.samples))
  ∧ length Scenario.samples
    ≤ length (dates Scenario.loaded) + 1 - sequenceLength Scenario.loaded
      - forecastHorizon Scenario.loaded.
Proof.
  apply (samples_in_anchor_order Scenario.loaded Scenario.samples).
  exact Scenario_samples.
Defined.

(** At 75 percent the four samples of the worked scenario split into
    three and one. *)
Lemma X13_witness :
  ∃ smp d,
    collectSamples Scenario.loaded = Ok smp
    ∧ dataset (fst Scenario.prepared) = Some d
    ∧ 1 ≤ sequenceLength Scenario.loaded
    ∧ getTensors (fst Scenario.prepared)
      = Ok (mkTensors (X_train d) (y_train d) (X_test d) (y_test d)
              (symbols Scenario.loaded) (sampleDatesTest d))
    ∧ X_train d ++ X_test d = map (map (map fround)) (map input smp)
    ∧ y_train d ++ y_test d = map output smp
    ∧ sampleDatesTrain d ++ sampleDatesTest d = map anchorDate smp
    ∧ sampleDates d = map anchorDate smp
    ∧ length (X_train d) = Z.to_nat (trainSamples PipelineScenario.meta)
    ∧ length (y_train d) = Z.to_nat (trainSamples PipelineScenario.meta)
    ∧ length (sampleDatesTrain d)
      = Z.to_nat (trainSamples PipelineScenario.meta)
    ∧ length (X_test d) = Z.to_nat (testSamples PipelineScenario.meta)
    ∧ length (y_test d) = Z.to_nat (testSamples PipelineScenario.meta)
    ∧ length (sampleDatesTest d)
      = Z.to_nat (testSamples PipelineScenario.meta)
    ∧ (0 ≤ trainSamples PipelineScenario.meta)%Z
    ∧ (0 ≤ testSamples PipelineScenario.meta)%Z
    ∧ (trainSamples PipelineScenario.meta
       + testSamples PipelineScenario.meta
       = Z.of_nat (samples PipelineScenario.meta))%Z
    ∧ samples PipelineScenario.meta = length smp
    ∧ 0 < samples PipelineScenario.meta
    ∧ trainIndices d = (0%Z, trainSamples PipelineScenario.meta)
    ∧ testIndices d
      = (trainSamples PipelineScenario.meta,
         testSamples PipelineScenario.meta)
    ∧ featuresPerStep PipelineScenario.meta
      = length (symbols Scenario.loaded) * 2
    ∧ outputDim PipelineScenario.meta
      = length (symbols Scenario.loaded) * forecastHorizon Scenario.loaded
    ∧ meta_sequenceLength PipelineScenario.meta
      = sequenceLength Scenario.loaded
    ∧ meta_symbols PipelineScenario.meta = symbols Scenario.loaded
    ∧ symbols (fst Scenario.prepared) = symbols Scenario.loaded
    ∧ dates (fst Scenario.prepared) = dates Scenario.loaded
    ∧ perSymbolSeries (fst Scenario.prepared)
      = perSymbolSeries Scenario.loaded
    ∧ normalizers (fst Scenario.prepared) = normalizers Scenario.loaded.
Proof.
  apply (prepared_split_is_a_partition Scenario.loaded 75
           (fst Scenario.prepared) PipelineScenario.meta).
  exact Scenario_prepare.
Defined.

(** The worked evaluation returns two accuracies, two timelines of two
    entries and two arrays of two rows of two entries of two values. *)
Lemma X14_witness :
  let r := evaluationOf EvalScenario.probabilities EvalScenario.truths 2 2 2 in
  length (GRUModel.perStockAcc r) = length EvalScenario.symbols
  ∧ length (GRUModel.perStockTimeline r) = length EvalScenario.symbols
  ∧ (∀ row, row ∈ GRUModel.perStockTimeline r →
       length row = 2 ∧ ∀ b, b ∈ row → b = 0%Z ∨ b = 1%Z)
  ∧ length (GRUModel.predArr r) = 2
  ∧ length (GRUModel.truthArr r) = 2
  ∧ (∀ row, row ∈ GRUModel.predArr r →
       length row = length EvalScenario.symbols)
  ∧ (∀ row, row ∈ GRUModel.truthArr r →
       length row = length EvalScenario.symbols)
  ∧ (wf EvalScenario.probabilities → wf EvalScenario.truths →
     ∀ n s, n < 2 → s < length EvalScenario.symbols →
       ∃ ps ts, at2 (GRUModel.predArr r) n s = Some ps
         ∧ at2 (GRUModel.truthArr r) n s = Some ts
         ∧ length ps = 2 ∧ length ts = 2).
Proof.
  apply (evaluation_result_shapes EvalScenario.gru EvalScenario.X_test
           EvalScenario.truths EvalScenario.symbols 2
           (λ _, EvalScenario.probabilities) 2 [4]).
  - reflexivity.
  - reflexivity.
  - lia.
  - vm_compute. lia.
  - lia.
  - exact EvalScenario_result.
Defined.

(** In the worked evaluation asset A has 3 hits of 4, asset B 2 of 4, and
    the overall accuracy is that of 5 hits of 8. *)
Lemma X15_witness :
  let r := evaluationOf EvalScenario.probabilities EvalScenario.truths 2 2 2 in
  let hits := assetHits (GRUModel.predArr r) (GRUModel.truthArr r) in
  let total := sum_list (map hits (seq 0 (length EvalScenario.symbols))) in
  let ratio (k n : nat) := (inject_Z (Z.of_nat k) / inject_Z (Z.of_nat n))%Q in
  (∀ s a, GRUModel.perStockAcc r !! s = Some a →
     (a == ratio32 (hits s) (2 * 2))%Q
     ∧ hits s ≤ 2 * 2
     ∧ (Qabs (a - ratio (hits s) (2 * 2)%nat)
        <= ratio (hits s) (2 * 2)%nat * (1 # 4194304))%Q
     ∧ (0 <= a)%Q ∧ (a <= 1)%Q)
  ∧ (GRUModel.overallAcc r
     == ratio32 total (2 * length EvalScenario.symbols * 2))%Q
  ∧ total ≤ 2 * length EvalScenario.symbols * 2
  ∧ (Qabs (GRUModel.overallAcc r
           - ratio total (2 * length EvalScenario.symbols * 2)%nat)
     <= ratio total (2 * length EvalScenario.symbols * 2)%nat
        * (1 # 4194304))%Q
  ∧ (0 <= GRUModel.overallAcc r)%Q ∧ (GRUModel.overallAcc r <= 1)%Q.
Proof.
  apply (accuracies_are_hit_ratios EvalScenario.gru EvalScenario.X_test
           EvalScenario.truths EvalScenario.symbols 2
           (λ _, EvalScenario.probabilities) 2 [4]).
  - reflexivity.
  - reflexivity.
  - reflexivity.
  - reflexivity.
  - lia.
  - vm_compute. lia.
  - lia.
  - vm_compute. reflexivity.
  - exact EvalScenario_result.
Defined.

(** The probabilities of the worked evaluation and the same pushed to 0
    and 1 are evaluated alike. *)
Lemma X17_witness :
  GRUModel.evaluateTestSet EvalScenario.gru EvalScenario.X_test
    EvalScenario.truths EvalScenario.symbols 2
  = GRUModel.evaluateTestSet PipelineScenario.sharp EvalScenario.X_test
      EvalScenario.truths EvalScenario.symbols 2.
Proof.
  apply (evaluation_depends_on_thresholded_predictions EvalScenario.gru
           PipelineScenario.sharp EvalScenario.X_test EvalScenario.X_test
           EvalScenario.truths EvalScenario.symbols 2
           (λ _, EvalScenario.probabilities)
           (λ _, mkTensor [2; 4] [0; 1; 1; 0; 1; 1; 0; 0]%float)).
  - reflexivity.
  - reflexivity.
  - reflexivity.
  - vm_compute. reflexivity.
Defined.

(** A predictor that returns the truths of the worked evaluation scores
    the float32 mean of ones only throughout. *)
Lemma X18_witness :
  let r := evaluationOf EvalScenario.truths EvalScenario.truths 2 2 2 in
  GRUModel.predArr r = GRUModel.truthArr r
  ∧ (∀ s a, GRUModel.perStockAcc r !! s = Some a →
       (a == ratio32 (2 * 2) (2 * 2))%Q
       ∧ (1 - (1 # 4194304) <= a)%Q ∧ (a <= 1)%Q)
  ∧ (GRUModel.overallAcc r
     == ratio32 (2 * length EvalScenario.symbols * 2)
          (2 * length EvalScenario.symbols * 2))%Q
  ∧ (1 - (1 # 4194304) <= GRUModel.overallAcc r)%Q
  ∧ (GRUModel.overallAcc r <= 1)%Q
  ∧ (∀ s n, s < length EvalScenario.symbols → n < 2 →
       at2 (GRUModel.perStockTimeline r) s n = Some 1%Z).
Proof.
  apply (perfect_predictions_score_one PipelineScenario.oracle
           EvalScenario.X_test EvalScenario.truths EvalScenario.symbols 2
           (λ _, EvalScenario.truths) 2 [4]).
  - reflexivity.
  - reflexivity.
  - reflexivity.
  - reflexivity.
  - lia.
  - vm_compute. lia.
  - lia.
  - vm_compute. reflexivity.
  - vm_compute. reflexivity.
  - vm_compute. reflexivity.
Defined.

(** The test sample of the worked scenario is the one anchored on January
    5; its labels reach the evaluator as the truths of assets A and B. *)
Lemma X19_witness :
  ∃ r,
    GRUModel.evaluateTestSet PipelineScenario.gru EvalScenario.X_test
      (matrixOf (outputDim PipelineScenario.meta)
         (t_y_test PipelineScenario.tensors))
      (meta_symbols PipelineScenario.meta)
      (forecastHorizon Scenario.loaded) = Ok r
    ∧ length (GRUModel.truthArr r)
      = Z.to_nat (testSamples PipelineScenario.meta)
    ∧ ∀ n x s o,
        Scenario.samples !! (Z.to_nat (trainSamples PipelineScenario.meta) + n)
        = Some x →
        s < length (symbols Scenario.loaded) →
        1 ≤ o ≤ forecastHorizon Scenario.loaded →
        ∃ ser vD vF,
          seriesAt Scenario.loaded s = Ok ser ∧ ser !! anchor x = Some vD
          ∧ ser !! (anchor x + o) = Some vF
          ∧ at3 (GRUModel.truthArr r) n s (o - 1)
            = Some (if gt (close vF) (close vD) then 1%Z else 0%Z).
Proof.
  apply (test_truths_are_the_loader_labels Scenario.loaded 75
           (fst Scenario.prepared) PipelineScenario.meta
           PipelineScenario.tensors Scenario.samples PipelineScenario.gru
           (λ _, mkTensor [1; 2] [0.75; 0.25]%float) EvalScenario.X_test).
  - exact Scenario_prepare.
  - exact Scenario_tensors.
  - exact Scenario_samples.
  - reflexivity.
  - vm_compute. reflexivity.
Defined.

(** In the worked scenario the opens and closes of A run from 9 to 14:
    the normaliser of A holds 9 and 14, both attained. *)
Lemma X20_witness :
  (∃ v, v ∈ Scenario.seriesA ∧ slotPresent v
        ∧ open v = openMin PipelineScenario.normalizerA)
  ∧ (∃ v, v ∈ Scenario.seriesA ∧ slotPresent v
          ∧ close v = closeMin PipelineScenario.normalizerA)
  ∧ (∀ v, v ∈ Scenario.seriesA → slotPresent v →
       PrimFloat.leb (openMin PipelineScenario.normalizerA) (open v) = true
       ∧ PrimFloat.leb (closeMin PipelineScenario.normalizerA) (close v)
         = true)
  ∧ ((openMax PipelineScenario.normalizerA
      = (openMin PipelineScenario.normalizerA + eps)%float
      ∧ ∀ v, v ∈ Scenario.seriesA → slotPresent v →
             strict_eq (open v) (openMin PipelineScenario.normalizerA) = true)
     ∨ ((∃ v, v ∈ Scenario.seriesA ∧ slotPresent v
              ∧ open v = openMax PipelineScenario.normalizerA)
        ∧ ∀ v, v ∈ Scenario.seriesA → slotPresent v →
               PrimFloat.leb (open v) (openMax PipelineScenario.normalizerA)
               = true))
  ∧ ((closeMax PipelineScenario.normalizerA
      = (closeMin PipelineScenario.normalizerA + eps)%float
      ∧ ∀ v, v ∈ Scenario.seriesA → slotPresent v →
             strict_eq (close v) (closeMin PipelineScenario.normalizerA)
             = true)
     ∨ ((∃ v, v ∈ Scenario.seriesA ∧ slotPresent v
              ∧ close v = closeMax PipelineScenario.normalizerA)
        ∧ ∀ v, v ∈ Scenario.seriesA → slotPresent v →
               PrimFloat.leb (close v)
                 (closeMax PipelineScenario.normalizerA) = true)).
Proof.
  apply (normaliser_holds_least_and_greatest IsoDate.parse
           IsoDate.toISOString Scenario.fresh Scenario.parsed
           Scenario.loaded _ 0 "A" Scenario.seriesA
           PipelineScenario.normalizerA Scenario_load).
  - vm_compute. reflexivity.
  - vm_compute. reflexivity.
  - vm_compute. reflexivity.
Defined.

(** In the worked scenario the six days stand in the order of the
    calendar. *)
Lemma X21_witness :
  StronglySorted (chronological IsoDate.parse) (dates Scenario.loaded)
  ∧ ∀ i j a b, i < j → dates Scenario.loaded !! i = Some a →
      dates Scenario.loaded !! j = Some b →
      chronological IsoDate.parse a b ∧ a ≠ b.
Proof.
  exact (loaded_dates_chronological IsoDate.parse IsoDate.toISOString
           Scenario.fresh Scenario.parsed Scenario.loaded _ Scenario_load
           Scenario_dates_readable).
Defined.

(** Preparing the worked scenario a second time at 75 percent gives the
    same three-to-one split. *)
Lemma X22_witness :
  snd (prepareDataset (fst Scenario.prepared) 50)
  = snd (prepareDataset Scenario.loaded 50)
  ∧ (is_ok (snd (prepareDataset Scenario.loaded 50)) = true →
     dataset (fst (prepareDataset (fst Scenario.prepared) 50))
     = dataset (fst (prepareDataset Scenario.loaded 50)))
  ∧ snd (prepareDataset (fst Scenario.prepared) 75)
    = Ok PipelineScenario.meta
  ∧ dataset (fst (prepareDataset (fst Scenario.prepared) 75))
    = dataset (fst Scenario.prepared).
Proof.
  apply (prepareDataset_can_be_repeated Scenario.loaded 75 50
           (fst Scenario.prepared) PipelineScenario.meta).
  exact Scenario_prepare.
Defined.
